(** * brutus/ebnf.py: the REBNF parser-node builder and the CST matcher

    A shallow embedding of [src/brutus/ebnf.py].  The module has two halves:

    - [make_parser_node] folds the meta-tokens of one grammar rule into a
      tree of [EBNFNode]s, and [EBNFParser.__init__] collects these trees
      in the rule table;
    - [EBNFParser.match_rule], [match], [match_terminal],
      [match_nonterminal], [match_optional], [match_one_or_more],
      [match_repeating], [match_alternate] and [match_sequence] walk such
      a tree against a list of target tokens and build [CSTNode]s.

    Python exceptions are values of [exn]; a call returns [Ok] or [Raise].
    The matcher has two ways of running on: calls of [match] nested ever
    deeper, which the interpreter ends with [RecursionError] at its
    recursion limit, and a [while] loop that keeps turning, which nothing
    ends.  [match_] takes the recursion limit, counted in nested calls of
    [match], and a number of turns granted to each loop; a loop that wants
    more turns gives [OutOfFuel], so a call that is [OutOfFuel] however
    many turns are granted is a call that never returns.  The trace
    kept in [_report_list], the call counters in [_calls] and
    [_max_recursion_level] influence no result and are left out.  What is
    kept of the trace is the two places where evaluating its arguments can
    raise: [tokens[0]] in [match], and [token_lexemes(node.children)] in
    [match_sequence], which reads the lexeme of every child found.  The
    later reads of [token_lexemes] are over lists that went through that
    one ([match_sequence_found_lexemes]), and the remaining arguments read
    parser nodes and tokens, which always have a lexeme. *)

From Stdlib Require Import Ascii ZArith DecimalString.
From stdpp Require Import base option list strings gmap.

Open Scope string_scope.
Open Scope list_scope.
Set Warnings "-register-all".

(** ** Symbols and tokens *)

(** [tokenizer.Symbol] with the class attribute [is_terminal] of its two
    subclasses [EBNFTerminalSymbol] and [EBNFNonTerminalSymbol]. *)
Record Symbol := mkSymbol { name : string; is_terminal : bool }.

#[global] Instance Symbol_eq_dec : EqDecision Symbol.
Proof. solve_decision. Defined.

(** Modelled from the spec: [Symbol.__eq__] lives in brutus/tokenizer.py,
    which is not part of the sources; section 3 of the specification says
    symbols are compared by name.  The reserved symbols below have pairwise
    different names, so on them this agrees with comparison by identity. *)
Definition symbol_eq (a b : Symbol) : bool := bool_decide (name a = name b).

(** [s in [a, b, ...]] *)
Definition symbol_in (s : Symbol) (l : list Symbol) : bool :=
  existsb (symbol_eq s) l.

(** Modelled from the spec: the symbols [EBNFTokenizer.add_lexer] registers
    are created in brutus/tokenizer.py; section 3 lists them as the
    terminal leaves and meta-lexer symbols, so they are terminal. *)
Definition lexer_symbol (n : string) : Symbol := mkSymbol n true.

Definition STARTREPEAT := lexer_symbol "STARTREPEAT".
Definition ENDREPEAT := lexer_symbol "ENDREPEAT".
Definition STARTGROUP := lexer_symbol "STARTGROUP".
Definition ENDGROUP := lexer_symbol "ENDGROUP".
Definition STARTOPTION := lexer_symbol "STARTOPTIONAL".
Definition ENDOPTION := lexer_symbol "ENDOPTIONAL".
Definition STARTATL := lexer_symbol "STARTATL".
Definition ENDATL := lexer_symbol "ENDATL".
Definition OR := lexer_symbol "OR".
Definition LITERAL := lexer_symbol "LITERAL".
Definition RULE := lexer_symbol "RULE".
Definition TERM := lexer_symbol "TERM".
Definition DEFINE := lexer_symbol "DEFINE".
Definition ENDDEFINE := lexer_symbol "ENDDEFINE".

Definition EBNFTerminalSymbol (n : string) : Symbol := mkSymbol n true.
Definition EBNFNonTerminalSymbol (n : string) : Symbol := mkSymbol n false.

Definition REPEATING := EBNFNonTerminalSymbol "REPEATING".
Definition SEQUENCE := EBNFNonTerminalSymbol "SEQUENCE".
Definition OPTIONAL := EBNFNonTerminalSymbol "OPTIONAL".
Definition OPT := EBNFTerminalSymbol "OPT".
Definition REP := EBNFTerminalSymbol "REP".
Definition ATL := EBNFTerminalSymbol "ATL".
Definition ATLEASTONCE := EBNFNonTerminalSymbol "ATLEASTONCE".
Definition ALTERNATING := EBNFNonTerminalSymbol "ALTERNATING".

(** [tokenizer.Token(symbol, lexeme, start, end)].  [ebnf] records whether
    the object is an instance of the subclass [EBNFToken], which
    [match_rule] tests with [isinstance]. *)
Record Token := mkToken {
  symbol : Symbol;
  lexeme : string;
  start : Z;
  end_ : Z;
  ebnf : bool
}.

#[global] Instance Token_eq_dec : EqDecision Token.
Proof. solve_decision. Defined.

Definition EBNFToken (s : Symbol) (lex : string) (st en : Z) : Token :=
  mkToken s lex st en true.

(** [token.symbol = s] *)
Definition set_symbol (t : Token) (s : Symbol) : Token :=
  mkToken s (lexeme t) (start t) (end_ t) (ebnf t).

(** ** Parser nodes *)

(** [EBNFNode]: a token and the list of child nodes. *)
Inductive EBNFNode := mkEBNFNode (tok : Token) (kids : list EBNFNode).

Definition token (n : EBNFNode) : Token :=
  match n with mkEBNFNode t _ => t end.

Definition children (n : EBNFNode) : list EBNFNode :=
  match n with mkEBNFNode _ c => c end.

Definition alternate (n : EBNFNode) : bool :=
  symbol_eq (symbol (token n)) ALTERNATING.
Definition optional (n : EBNFNode) : bool :=
  symbol_eq (symbol (token n)) OPTIONAL.
Definition repeating (n : EBNFNode) : bool :=
  symbol_eq (symbol (token n)) REPEATING.
Definition oneormore (n : EBNFNode) : bool :=
  symbol_eq (symbol (token n)) ATLEASTONCE.

(** [this.add(thing)] *)
Definition add (this thing : EBNFNode) : EBNFNode :=
  mkEBNFNode (token this) (children this ++ [thing]).

(** [EBNFNode.key]: the code [__str__] prints for the node. *)
Definition EBNFNode_key (n : EBNFNode) : string :=
  match children n with
  | [] => "trm"
  | _ :: _ =>
      let res :=
        (if repeating n then ["rep"] else [])
        ++ (if optional n then ["opt"] else [])
        ++ (if oneormore n then ["atl"] else [])
        ++ (if alternate n then ["alt"] else []) in
      match res with
      | [] => "seq"
      | _ :: _ => String.concat "" res
      end
  end.

(** [node.token.symbol = s] *)
Definition retag (n : EBNFNode) (s : Symbol) : EBNFNode :=
  mkEBNFNode (set_symbol (token n) s) (children n).

(** ** Exceptions and results *)

(** The messages of the [SyntaxError]s the module raises, one constructor
    per [raise] statement, with the values its format string prints. *)
Inductive syntax_error :=
| ExpectedToClose (endtoken got : string)
    (* "Expected %s to close group, got %s" *)
| IllegalMix (rule : string)
    (* "Illegal mix of brackets and suffixes in %s" *)
| RuleAlreadyExists (key : string)
    (* "rule for %s already exists" *)
| DidNotProcess (key : string)
    (* "rule %s did not process correctly" *)
| NoRuleFor (rule : string)
    (* "No rule for {}" *)
| UnexpectedEndOfTokens (node : EBNFNode)
    (* "Unexpected end of tokens for %s" *)
| DidNotFindRequired
    (* "Did not find required seqence at least once" *)
| RanOutOfOptions
    (* "ran out of options in match_nonterminal" *)
| MissingGroup (tokens : list Token)
    (* "Missing group: %s" *)
| ExpectedFoundNothing (node : EBNFNode)
    (* "Expected %s and found nothing" *).

Inductive value_error :=
| RedefiningTerminal (key : string)
    (* "Redefining terminal symbol %s in EBNF" *)
| NoStartRule
    (* "no start rule established" *)
| MissingEBNFToken
    (* "parser node missing required EBNFToken" *)
| NotAllInputConsumed (tokens : list Token)
    (* "not all input consumed %s" % tokens[:3] *).

Inductive exn :=
| SyntaxError (e : syntax_error)
| ValueError (e : value_error)
| AttributeError          (* [endtoken.name] with [endtoken] None *)
| KeyError (key : string) (* a dictionary subscript that misses *)
| IndexError              (* [tokens[0]] on an empty list *)
| UnboundLocalError       (* [ok] read before any assignment *)
| StopIteration           (* [next] on an exhausted iterator *)
| RecursionError          (* the interpreter's recursion limit is reached *).

Inductive result (A : Type) :=
| Ok (a : A)
| Raise (e : exn)
| OutOfFuel.
Arguments Ok {A} a.
Arguments Raise {A} e.
Arguments OutOfFuel {A}.

Definition bind {A B} (r : result A) (k : A -> result B) : result B :=
  match r with
  | Ok a => k a
  | Raise e => Raise e
  | OutOfFuel => OutOfFuel
  end.

Notation "'do' x <- r ; k" := (bind r (fun x => k))
  (at level 10, x name, r at level 100, k at level 200).
Notation "'do' ' p <- r ; k" := (bind r (fun y => let 'p := y in k))
  (at level 10, p pattern, r at level 100, k at level 200).

(** ** The parser-node builder *)

(** [SEQ_MAP], [SUFFIX_MAP] and [groupings] *)
Definition SEQ_MAP (s : Symbol) : option Symbol :=
  if symbol_eq s STARTGROUP then Some SEQUENCE
  else if symbol_eq s STARTREPEAT then Some REPEATING
  else if symbol_eq s STARTOPTION then Some OPTIONAL
  else if symbol_eq s STARTATL then Some ATLEASTONCE
  else None.

Definition SUFFIX_MAP (s : Symbol) : option Symbol :=
  if symbol_eq s REP then Some REPEATING
  else if symbol_eq s OPT then Some OPTIONAL
  else if symbol_eq s ATL then Some ATLEASTONCE
  else None.

Definition groupings (s : Symbol) : option Symbol :=
  if symbol_eq s STARTGROUP then Some ENDGROUP
  else if symbol_eq s STARTREPEAT then Some ENDREPEAT
  else if symbol_eq s STARTOPTION then Some ENDOPTION
  else if symbol_eq s STARTATL then Some ENDATL
  else None.

Definition openers := [STARTGROUP; STARTREPEAT; STARTOPTION; STARTATL].
Definition closers := [ENDGROUP; ENDREPEAT; ENDOPTION; ENDATL].
Definition suffixes := [REP; OPT; ATL].

(** [d[k]] on a dictionary whose key is known to the code to be present *)
Definition subscript {A} (d : Symbol -> option A) (s : Symbol) : result A :=
  match d s with
  | Some a => Ok a
  | None => Raise (KeyError (name s))
  end.

(** [name.split('-')[0]] *)
Fixpoint split_dash (s : string) : string :=
  match s with
  | EmptyString => EmptyString
  | String c rest =>
      if bool_decide (c = "-"%char) then EmptyString
      else String c (split_dash rest)
  end.

(** ["%s-%d" % (key, n)] *)
Definition group_name (key : string) (n : nat) : string :=
  key +:+ "-" +:+ NilZero.string_of_uint (Nat.to_uint n).

(** The module-level [groupcount = Counter()]: a missing key counts 0. *)
Definition count (gc : gmap string nat) (key : string) : nat :=
  default 0 (gc !! key).

Definition increment (gc : gmap string nat) (key : string)
  : gmap string nat :=
  <[key := S (count gc key)]> gc.

(** [endtoken != first.symbol], where [endtoken] may be None *)
Definition differs (endtoken : option Symbol) (s : Symbol) : bool :=
  match endtoken with
  | None => true
  | Some e => negb (symbol_eq e s)
  end.

(** [make_parser_node(name, tokens, endtoken)] and its [while tokens] loop.
    The loop state is the node [this] under construction and the tokens
    not yet consumed; [groupcount] is threaded through.  The recursion is
    on the rest of the token list the recursive call hands back, so the
    embedding carries a bound [fuel]; [make_parser_node] below starts it
    high enough for the bound never to be reached. *)
Fixpoint make_parser_node_fuel (fuel : nat) (gc : gmap string nat)
    (nm : string) (tokens : list Token) (endtoken : option Symbol)
  : result (gmap string nat * option EBNFNode * list Token) :=
  match fuel with
  | O => OutOfFuel
  | S fuel' =>
      match tokens with
      | [] => Ok (gc, None, [])
      | _ =>
          let this := mkEBNFNode (EBNFToken SEQUENCE nm 0 0) [] in
          do '(gc', this', rest) <-
             make_parser_node_loop fuel' gc nm endtoken this tokens ;
          Ok (gc', Some this', rest)
      end
  end
with make_parser_node_loop (fuel : nat) (gc : gmap string nat)
    (nm : string) (endtoken : option Symbol) (this : EBNFNode)
    (tokens : list Token)
  : result (gmap string nat * EBNFNode * list Token) :=
  match fuel with
  | O => OutOfFuel
  | S fuel' =>
      match tokens with
      | [] => Ok (gc, this, [])
      | first :: tail =>
          if symbol_in (symbol first) openers then
            let key := split_dash nm in
            let gc1 := increment gc key in
            do closer <- subscript groupings (symbol first) ;
            do '(gc2, child, tokens') <-
               make_parser_node_fuel fuel' gc1
                 (group_name key (count gc1 key)) tail (Some closer) ;
            match child with
            | Some c =>
                do kind <- subscript SEQ_MAP (symbol first) ;
                make_parser_node_loop fuel' gc2 nm endtoken
                  (add this (retag c kind)) tokens'
            | None =>
                make_parser_node_loop fuel' gc2 nm endtoken this tokens'
            end
          else if symbol_in (symbol first) closers then
            if differs endtoken (symbol first) then
              match endtoken with
              | None => Raise AttributeError
              | Some e =>
                  Raise (SyntaxError
                           (ExpectedToClose (name e) (name (symbol first))))
              end
            else
              let used_brackets :=
                symbol_in (symbol first) [ENDREPEAT; ENDOPTION] in
              match tail with
              | second :: tail' =>
                  if used_brackets && symbol_in (symbol second) suffixes
                  then Raise (SyntaxError (IllegalMix nm))
                  else if symbol_in (symbol second) suffixes then
                    do kind <- subscript SUFFIX_MAP (symbol second) ;
                    Ok (gc, retag this kind, tail')
                  else Ok (gc, this, tail)
              | [] => Ok (gc, this, tail)
              end
          else if symbol_eq (symbol first) OR then
            make_parser_node_loop fuel' gc nm endtoken
              (add (retag this ALTERNATING) (mkEBNFNode first [])) tail
          else
            make_parser_node_loop fuel' gc nm endtoken
              (add this (mkEBNFNode first [])) tail
      end
  end.

(** Every turn of the loop and every call consumes a token, so twice the
    length of the token list, plus two, is enough. *)
Definition make_parser_node (gc : gmap string nat) (nm : string)
    (tokens : list Token) (endtoken : option Symbol)
  : result (gmap string nat * option EBNFNode * list Token) :=
  make_parser_node_fuel (2 * length tokens + 2) gc nm tokens endtoken.

(** ** Concrete syntax trees *)

(** What a [CSTNode] is built around: [match_terminal] wraps its result in
    [CSTNode(parser_node.token.lexeme)], a string; every other node holds a
    token. *)
Inductive CSTToken :=
| Lexeme (s : string)
| Tok (t : Token).

(** [CSTNode]: a token and the list of child nodes. *)
Inductive CSTNode := mkCSTNode (tok : CSTToken) (kids : list CSTNode).

Definition cst_token (n : CSTNode) : CSTToken :=
  match n with mkCSTNode t _ => t end.

Definition cst_children (n : CSTNode) : list CSTNode :=
  match n with mkCSTNode _ c => c end.

(** [node.token.lexeme] exists: the token is a token, not a string. *)
Definition has_lexeme (n : CSTNode) : bool :=
  match cst_token n with
  | Tok _ => true
  | Lexeme _ => false
  end.

(** [token_lexemes(nodes)], evaluated for the trace: reading the lexeme of
    a node built around a string raises [AttributeError]. *)
Definition token_lexemes (nodes : list CSTNode) : result unit :=
  if forallb has_lexeme nodes then Ok tt else Raise AttributeError.

(** ** The grammar compiler: [EBNFParser.__init__] *)

(** Modelled from the spec: the target tokenizer ([tokenizer.Tokenizer],
    section 6.2) is an ordered list of [(pattern, symbol name or None)]
    entries and a table of the symbols registered so far; [add_lexer]
    appends an entry and registers its symbol. *)
Record Tokenizer := mkTokenizer {
  lexers : list (string * option string);
  symbols : gmap string Symbol
}.

Definition add_lexer (t : Tokenizer) (pattern : string)
    (sym : option string) : Tokenizer :=
  mkTokenizer (lexers t ++ [(pattern, sym)])
    (match sym with
     | Some n => <[n := lexer_symbol n]> (symbols t)
     | None => symbols t
     end).

(** The attributes of an [EBNFParser] that the matcher reads.  [rules] is
    an [OrderedDict]: the order of insertion decides the start rule. *)
Record EBNFParser := mkEBNFParser {
  symbol_table : gmap string Symbol;
  start_rule : option string;
  collapse_tree : bool;
  rules : list (string * option EBNFNode);
  tokenizer : Tokenizer
}.

(** [self.rules.get(rule)]: None for a missing key and for a stored None *)
Fixpoint rules_get (rs : list (string * option EBNFNode)) (rule : string)
  : option EBNFNode :=
  match rs with
  | [] => None
  | (k, v) :: rs' => if bool_decide (k = rule) then v else rules_get rs' rule
  end.

(** [self.rules[key] = node] *)
Fixpoint rules_set (rs : list (string * option EBNFNode)) (key : string)
    (v : option EBNFNode) : list (string * option EBNFNode) :=
  match rs with
  | [] => [(key, v)]
  | (k, w) :: rs' =>
      if bool_decide (k = key) then (k, v) :: rs'
      else (k, w) :: rules_set rs' key v
  end.

(** [key.islower()] and [key.isupper()] are methods of the built-in [str],
    a sequence of Unicode code points.  A [str] is kept here as its UTF-8
    encoding: splitting at a dash, joining and comparing strings come to
    the same on the bytes, and only these two methods look at the code
    points, which [code_points] reads back from the bytes.  [acc] and
    [more] are the bits read of a code point and the number of bytes it
    still takes. *)
Fixpoint code_points_from (acc : N) (more : nat) (s : string) : list N :=
  match s with
  | EmptyString => []
  | String c rest =>
      let b := N_of_ascii c in
      match more with
      | S more' =>
          let acc' := (acc * 64 + b mod 64)%N in
          match more' with
          | O => acc' :: code_points_from 0 0 rest
          | S _ => code_points_from acc' more' rest
          end
      | O =>
          if (b <? 128)%N then b :: code_points_from 0 0 rest
          else if (b <? 224)%N then code_points_from (b mod 32) 1 rest
          else if (b <? 240)%N then code_points_from (b mod 16) 2 rest
          else code_points_from (b mod 8) 3 rest
      end
  end.

Definition code_points (s : string) : list N := code_points_from 0 0 s.

(** The character properties the two methods test, from the Unicode
    character database of the interpreter (version 14.0): each table lists
    runs [(first, last, step)] of code points in increasing order. *)
Fixpoint in_runs (c : N) (runs : list (N * N * N)) : bool :=
  match runs with
  | [] => false
  | (first, last, step) :: runs' =>
      if (c <? first)%N then false
      else if (c <=? last)%N then ((c - first) mod step =? 0)%N
      else in_runs c runs'
  end.

(** The code points with the property Lowercase. *)
Definition lowercase_runs : list (N * N * N) :=
  [(97, 122, 1); (170, 170, 1); (181, 181, 1); (186, 186, 1); (223, 246, 1);
   (248, 255, 1); (257, 309, 2); (311, 312, 1); (314, 326, 2); (328, 329, 1);
   (331, 375, 2); (378, 378, 1); (380, 380, 1); (382, 384, 1); (387, 387, 1);
   (389, 389, 1); (392, 392, 1); (396, 397, 1); (402, 402, 1); (405, 405, 1);
   (409, 411, 1); (414, 414, 1); (417, 421, 2); (424, 424, 1); (426, 427, 1);
   (429, 429, 1); (432, 432, 1); (436, 436, 1); (438, 438, 1); (441, 442, 1);
   (445, 447, 1); (454, 454, 1); (457, 457, 1); (460, 474, 2); (476, 477, 1);
   (479, 493, 2); (495, 496, 1); (499, 499, 1); (501, 501, 1); (505, 561, 2);
   (563, 569, 1); (572, 572, 1); (575, 576, 1); (578, 578, 1); (583, 589, 2);
   (591, 659, 1); (661, 696, 1); (704, 705, 1); (736, 740, 1); (837, 837, 1);
   (881, 881, 1); (883, 883, 1); (887, 887, 1); (890, 893, 1); (912, 912, 1);
   (940, 974, 1); (976, 977, 1); (981, 983, 1); (985, 1005, 2);
   (1007, 1011, 1); (1013, 1013, 1); (1016, 1016, 1); (1019, 1020, 1);
   (1072, 1119, 1); (1121, 1153, 2); (1163, 1215, 2); (1218, 1228, 2);
   (1230, 1231, 1); (1233, 1327, 2); (1376, 1416, 1); (4304, 4346, 1);
   (4349, 4351, 1); (5112, 5117, 1); (7296, 7304, 1); (7424, 7615, 1);
   (7681, 7827, 2); (7829, 7837, 1); (7839, 7933, 2); (7935, 7943, 1);
   (7952, 7957, 1); (7968, 7975, 1); (7984, 7991, 1); (8000, 8005, 1);
   (8016, 8023, 1); (8032, 8039, 1); (8048, 8061, 1); (8064, 8071, 1);
   (8080, 8087, 1); (8096, 8103, 1); (8112, 8116, 1); (8118, 8119, 1);
   (8126, 8126, 1); (8130, 8132, 1); (8134, 8135, 1); (8144, 8147, 1);
   (8150, 8151, 1); (8160, 8167, 1); (8178, 8180, 1); (8182, 8183, 1);
   (8305, 8305, 1); (8319, 8319, 1); (8336, 8348, 1); (8458, 8458, 1);
   (8462, 8463, 1); (8467, 8467, 1); (8495, 8495, 1); (8500, 8500, 1);
   (8505, 8505, 1); (8508, 8509, 1); (8518, 8521, 1); (8526, 8526, 1);
   (8560, 8575, 1); (8580, 8580, 1); (9424, 9449, 1); (11312, 11359, 1);
   (11361, 11361, 1); (11365, 11366, 1); (11368, 11372, 2); (11377, 11377, 1);
   (11379, 11380, 1); (11382, 11389, 1); (11393, 11489, 2); (11491, 11492, 1);
   (11500, 11500, 1); (11502, 11502, 1); (11507, 11507, 1); (11520, 11557, 1);
   (11559, 11559, 1); (11565, 11565, 1); (42561, 42605, 2); (42625, 42649, 2);
   (42651, 42653, 1); (42787, 42797, 2); (42799, 42801, 1); (42803, 42861, 2);
   (42863, 42872, 1); (42874, 42874, 1); (42876, 42876, 1); (42879, 42887, 2);
   (42892, 42892, 1); (42894, 42894, 1); (42897, 42897, 1); (42899, 42901, 1);
   (42903, 42921, 2); (42927, 42927, 1); (42933, 42947, 2); (42952, 42952, 1);
   (42954, 42954, 1); (42961, 42969, 2); (42998, 42998, 1); (43000, 43002, 1);
   (43824, 43866, 1); (43868, 43880, 1); (43888, 43967, 1); (64256, 64262, 1);
   (64275, 64279, 1); (65345, 65370, 1); (66600, 66639, 1); (66776, 66811, 1);
   (66967, 66977, 1); (66979, 66993, 1); (66995, 67001, 1); (67003, 67004, 1);
   (67456, 67456, 1); (67459, 67461, 1); (67463, 67504, 1); (67506, 67514, 1);
   (68800, 68850, 1); (71872, 71903, 1); (93792, 93823, 1);
   (119834, 119859, 1); (119886, 119892, 1); (119894, 119911, 1);
   (119938, 119963, 1); (119990, 119993, 1); (119995, 119995, 1);
   (119997, 120003, 1); (120005, 120015, 1); (120042, 120067, 1);
   (120094, 120119, 1); (120146, 120171, 1); (120198, 120223, 1);
   (120250, 120275, 1); (120302, 120327, 1); (120354, 120379, 1);
   (120406, 120431, 1); (120458, 120485, 1); (120514, 120538, 1);
   (120540, 120545, 1); (120572, 120596, 1); (120598, 120603, 1);
   (120630, 120654, 1); (120656, 120661, 1); (120688, 120712, 1);
   (120714, 120719, 1); (120746, 120770, 1); (120772, 120777, 1);
   (120779, 120779, 1); (122624, 122633, 1); (122635, 122654, 1);
   (125218, 125251, 1)]%N.

(** The code points with the property Uppercase. *)
Definition uppercase_runs : list (N * N * N) :=
  [(65, 90, 1); (192, 214, 1); (216, 222, 1); (256, 310, 2); (313, 327, 2);
   (330, 374, 2); (376, 377, 1); (379, 379, 1); (381, 381, 1); (385, 386, 1);
   (388, 388, 1); (390, 391, 1); (393, 395, 1); (398, 401, 1); (403, 404, 1);
   (406, 408, 1); (412, 413, 1); (415, 416, 1); (418, 418, 1); (420, 420, 1);
   (422, 423, 1); (425, 425, 1); (428, 428, 1); (430, 431, 1); (433, 435, 1);
   (437, 437, 1); (439, 440, 1); (444, 444, 1); (452, 452, 1); (455, 455, 1);
   (458, 458, 1); (461, 475, 2); (478, 494, 2); (497, 497, 1); (500, 500, 1);
   (502, 504, 1); (506, 562, 2); (570, 571, 1); (573, 574, 1); (577, 577, 1);
   (579, 582, 1); (584, 590, 2); (880, 880, 1); (882, 882, 1); (886, 886, 1);
   (895, 895, 1); (902, 902, 1); (904, 906, 1); (908, 908, 1); (910, 911, 1);
   (913, 929, 1); (931, 939, 1); (975, 975, 1); (978, 980, 1); (984, 1006, 2);
   (1012, 1012, 1); (1015, 1015, 1); (1017, 1018, 1); (1021, 1071, 1);
   (1120, 1152, 2); (1162, 1214, 2); (1216, 1217, 1); (1219, 1229, 2);
   (1232, 1326, 2); (1329, 1366, 1); (4256, 4293, 1); (4295, 4295, 1);
   (4301, 4301, 1); (5024, 5109, 1); (7312, 7354, 1); (7357, 7359, 1);
   (7680, 7828, 2); (7838, 7934, 2); (7944, 7951, 1); (7960, 7965, 1);
   (7976, 7983, 1); (7992, 7999, 1); (8008, 8013, 1); (8025, 8031, 2);
   (8040, 8047, 1); (8120, 8123, 1); (8136, 8139, 1); (8152, 8155, 1);
   (8168, 8172, 1); (8184, 8187, 1); (8450, 8450, 1); (8455, 8455, 1);
   (8459, 8461, 1); (8464, 8466, 1); (8469, 8469, 1); (8473, 8477, 1);
   (8484, 8488, 2); (8490, 8493, 1); (8496, 8499, 1); (8510, 8511, 1);
   (8517, 8517, 1); (8544, 8559, 1); (8579, 8579, 1); (9398, 9423, 1);
   (11264, 11311, 1); (11360, 11360, 1); (11362, 11364, 1); (11367, 11371, 2);
   (11373, 11376, 1); (11378, 11378, 1); (11381, 11381, 1); (11390, 11392, 1);
   (11394, 11490, 2); (11499, 11499, 1); (11501, 11501, 1); (11506, 11506, 1);
   (42560, 42604, 2); (42624, 42650, 2); (42786, 42798, 2); (42802, 42862, 2);
   (42873, 42873, 1); (42875, 42875, 1); (42877, 42878, 1); (42880, 42886, 2);
   (42891, 42891, 1); (42893, 42893, 1); (42896, 42896, 1); (42898, 42898, 1);
   (42902, 42920, 2); (42922, 42926, 1); (42928, 42932, 1); (42934, 42946, 2);
   (42948, 42951, 1); (42953, 42953, 1); (42960, 42960, 1); (42966, 42966, 1);
   (42968, 42968, 1); (42997, 42997, 1); (65313, 65338, 1); (66560, 66599, 1);
   (66736, 66771, 1); (66928, 66938, 1); (66940, 66954, 1); (66956, 66962, 1);
   (66964, 66965, 1); (68736, 68786, 1); (71840, 71871, 1); (93760, 93791, 1);
   (119808, 119833, 1); (119860, 119885, 1); (119912, 119937, 1);
   (119964, 119964, 1); (119966, 119967, 1); (119970, 119970, 1);
   (119973, 119974, 1); (119977, 119980, 1); (119982, 119989, 1);
   (120016, 120041, 1); (120068, 120069, 1); (120071, 120074, 1);
   (120077, 120084, 1); (120086, 120092, 1); (120120, 120121, 1);
   (120123, 120126, 1); (120128, 120132, 1); (120134, 120134, 1);
   (120138, 120144, 1); (120172, 120197, 1); (120224, 120249, 1);
   (120276, 120301, 1); (120328, 120353, 1); (120380, 120405, 1);
   (120432, 120457, 1); (120488, 120512, 1); (120546, 120570, 1);
   (120604, 120628, 1); (120662, 120686, 1); (120720, 120744, 1);
   (120778, 120778, 1); (125184, 125217, 1); (127280, 127305, 1);
   (127312, 127337, 1); (127344, 127369, 1)]%N.

(** The code points of the category Lt, titlecase letters. *)
Definition titlecase_runs : list (N * N * N) :=
  [(453, 453, 1); (456, 456, 1); (459, 459, 1); (498, 498, 1);
   (8072, 8079, 1); (8088, 8095, 1); (8104, 8111, 1); (8124, 8124, 1);
   (8140, 8140, 1); (8188, 8188, 1)]%N.

(** The case of a code point, None for a code point without case. *)
Inductive letter_case := Lower | Upper | Title.

Definition case_of (c : N) : option letter_case :=
  if in_runs c lowercase_runs then Some Lower
  else if in_runs c uppercase_runs then Some Upper
  else if in_runs c titlecase_runs then Some Title
  else None.

Definition has_case (want : letter_case) (c : N) : bool :=
  match case_of c, want with
  | Some Lower, Lower | Some Upper, Upper | Some Title, Title => true
  | _, _ => false
  end.

Definition cased_char (c : N) : bool :=
  match case_of c with Some _ => true | None => false end.

(** The loop [str.islower()] and [str.isupper()] share: no character has
    another case than [want], and some character has the case [want]. *)
Definition str_case (want : letter_case) (s : string) : bool :=
  forallb (fun c => negb (cased_char c) || has_case want c) (code_points s)
  && existsb (has_case want) (code_points s).

Definition islower (s : string) : bool := str_case Lower s.
Definition isupper (s : string) : bool := str_case Upper s.

(** One [key := val] entry of [data], with [key] and [val] already
    stripped; a line of the text that does not split in two at [:=] makes
    the [for key, val in data] unpacking raise when the loop gets to it
    and stands for no entry: [data] is the lines of a text in which every
    line splits in two.  [ebnf_tokens] is [list(EBNFTokenizer(val))]: the
    engine that turns the text into meta-tokens is brutus/tokenizer.py, so
    an entry carries the meta-tokens next to the text; [emitted] below
    says which symbols the lexers of [EBNFTokenizer] can give them. *)
Record definition := mkDefinition {
  key : string;
  val : string;
  ebnf_tokens : list Token
}.

(** The state the [for key, val in data] loop of [__init__] updates. *)
Record init_state := mkInitState {
  st_groupcount : gmap string nat;
  st_symbol_table : gmap string Symbol;
  st_rules : list (string * option EBNFNode);
  st_tokenizer : Tokenizer
}.

(** One turn of the loop. *)
Definition init_step (st : init_state) (d : definition)
  : result init_state :=
  if bool_decide (is_Some (st_symbol_table st !! key d)) then
    Raise (SyntaxError (RuleAlreadyExists (key d)))
  else if islower (key d) then
    do '(gc, parser_node, remaining) <-
       make_parser_node (st_groupcount st) (key d) (ebnf_tokens d) None ;
    match remaining with
    | _ :: _ => Raise (SyntaxError (DidNotProcess (key d)))
    | [] =>
        Ok (mkInitState gc
              (<[key d := EBNFNonTerminalSymbol (key d)]> (st_symbol_table st))
              (rules_set (st_rules st) (key d) parser_node)
              (st_tokenizer st))
    end
  else if isupper (key d) then
    if bool_decide (is_Some (symbols (st_tokenizer st) !! key d)) then
      Raise (ValueError (RedefiningTerminal (key d)))
    else
      Ok (mkInitState (st_groupcount st)
            (<[key d := EBNFTerminalSymbol (key d)]> (st_symbol_table st))
            (st_rules st)
            (add_lexer (st_tokenizer st) (val d) (Some (key d))))
  else Ok st.

Fixpoint init_loop (st : init_state) (data : list definition)
  : result init_state :=
  match data with
  | [] => Ok st
  | d :: data' => do st' <- init_step st d ; init_loop st' data'
  end.

(** The pattern of the LITERAL lexer [__init__] installs: a double quote,
    one or more characters other than a double quote, a double quote. *)
Definition literal_pattern : string :=
  String "034"%char ("[^" +:+ String "034"%char ("]+" +:+
  String "034"%char EmptyString)).

(** The state [__init__] starts its loop in: empty tables, and a tokenizer
    with the whitespace and the LITERAL lexer. *)
Definition init_start (gc : gmap string nat) : init_state :=
  mkInitState gc ∅ []
    (add_lexer (add_lexer (mkTokenizer [] ∅) "\s+" None)
       literal_pattern (Some "LITERAL")).

(** [EBNFParser(text)], from the point where [text] has been split into
    [data].  The module-level [groupcount] goes in and comes out. *)
Definition EBNFParser_init (gc : gmap string nat) (data : list definition)
  : result (gmap string nat * EBNFParser) :=
  do st <- init_loop (init_start gc) data ;
  match st_rules st with
  | [] => Raise StopIteration
  | (k, _) :: _ =>
      Ok (st_groupcount st,
          mkEBNFParser (st_symbol_table st) (Some k) true (st_rules st)
            (st_tokenizer st))
  end.

(** ** The matcher *)

(** [split_by_or]: [groupby] on "is an OR marker", keeping the groups of
    the other nodes; [cur] is the group being collected. *)
Fixpoint split_by_or_from (cur : list EBNFNode) (l : list EBNFNode)
  : list (list EBNFNode) :=
  match l with
  | [] => match cur with [] => [] | _ => [cur] end
  | x :: l' =>
      if symbol_eq (symbol (token x)) OR then
        match cur with
        | [] => split_by_or_from [] l'
        | _ => cur :: split_by_or_from [] l'
        end
      else split_by_or_from (cur ++ [x]) l'
  end.

Definition split_by_or (l : list EBNFNode) : list (list EBNFNode) :=
  split_by_or_from [] l.

(** What every match operation returns: [(ok, node or None, tokens)]. *)
Definition outcome : Type := bool * option CSTNode * list Token.

Section Matcher.

(** The parser object, and the function the methods reach when they call
    [self.match]: every cycle of the mutual recursion goes through [match],
    so the other methods are written over it and [match_] below closes the
    knot. *)
Variable self : EBNFParser.
Variable match_rec : EBNFNode -> list Token -> nat -> result outcome.

(** The [while expected] loop of [match_sequence].  [ok] is None until the
    first assignment to the Python variable [ok]. *)
Fixpoint match_sequence_loop (i : nat) (orig_tokens : list Token)
    (expected : list EBNFNode) (ok : option bool) (found : list CSTNode)
    (tokens : list Token) : result (bool * list CSTNode * list Token) :=
  match expected with
  | [] =>
      match ok with
      | Some b => Ok (b, found, tokens)
      | None => Raise UnboundLocalError
      end
  | this :: expected' =>
      match tokens with
      | [] =>
          if oneormore this
          then Raise (SyntaxError (ExpectedFoundNothing this))
          else Ok (false, [], orig_tokens)
      | _ :: _ =>
          do '(ok', node, tokens') <- match_rec this tokens (S i) ;
          match node with
          | Some n =>
              do _ <- token_lexemes (cst_children n) ;
              match_sequence_loop i orig_tokens expected' (Some ok')
                (found ++ cst_children n) tokens'
          | None => Ok (false, found, tokens')
          end
      end
  end.

Definition match_sequence (nm : string) (originals : list EBNFNode)
    (tokens : list Token) (i : nat)
  : result (bool * list CSTNode * list Token) :=
  match_sequence_loop i tokens originals None [] tokens.

Definition match_optional (parser_node : EBNFNode) (tokens : list Token)
    (i : nat) : result outcome :=
  let tk := token parser_node in
  do '(ok, kids, tokens') <-
     match_sequence (lexeme tk) (children parser_node) tokens (S i) ;
  if ok then Ok (true, Some (mkCSTNode (Tok tk) kids), tokens')
  else Ok (false, None, tokens').

(** The [while ok] loop of [match_one_or_more]; [n] bounds its turns. *)
Fixpoint match_one_or_more_loop (n : nat) (nm : string)
    (expected : list EBNFNode) (i : nat) (acc : list CSTNode) (ok : bool)
    (kids : list CSTNode) (tokens : list Token)
  : result (list CSTNode * list Token) :=
  if ok then
    match n with
    | O => OutOfFuel
    | S n' =>
        do '(ok', kids', tokens') <-
           match_sequence nm expected tokens (S i) ;
        match_one_or_more_loop n' nm expected i (acc ++ kids) ok' kids'
          tokens'
    end
  else Ok (acc, tokens).

Definition match_one_or_more (n : nat) (parser_node : EBNFNode)
    (tokens : list Token) (i : nat) : result outcome :=
  let tk := token parser_node in
  let expected := children parser_node in
  do '(ok, kids, tokens1) <-
     match_sequence (lexeme tk) expected tokens (S i) ;
  if negb ok then Raise (SyntaxError (MissingGroup tokens1))
  else
    do '(acc, tokens2) <-
       match_one_or_more_loop n (lexeme tk) expected i [] ok kids tokens1 ;
    match acc with
    | _ :: _ => Ok (true, Some (mkCSTNode (Tok tk) acc), tokens2)
    | [] => Ok (false, None, tokens2)
    end.

(** The [while keep_trying] loop of [match_repeating]; [n] bounds its
    turns. *)
Fixpoint match_repeating_loop (n : nat) (nm : string)
    (expected : list EBNFNode) (i : nat) (acc : list CSTNode)
    (tokens : list Token) : result (list CSTNode * list Token) :=
  match n with
  | O => OutOfFuel
  | S n' =>
      do '(ok, addends, tokens') <-
         match_sequence nm expected tokens (S i) ;
      if ok then match_repeating_loop n' nm expected i (acc ++ addends) tokens'
      else Ok (acc, tokens')
  end.

Definition match_repeating (n : nat) (parser_node : EBNFNode)
    (tokens : list Token) (i : nat) : result outcome :=
  let tk := token parser_node in
  do '(acc, tokens') <-
     match_repeating_loop n (lexeme tk) (children parser_node) i [] tokens ;
  match acc with
  | _ :: _ => Ok (true, Some (mkCSTNode (Tok tk) acc), tokens')
  | [] => Ok (false, None, tokens')
  end.

(** The [for alternate in alternates] loop of [match_alternate]: every
    alternative starts from a copy of [original_tokens]; a [ValueError]
    from [match_sequence] counts as a miss.  None: no alternative matched. *)
Fixpoint match_alternate_loop (nm : string) (i : nat)
    (original_tokens : list Token) (alternates : list (list EBNFNode))
  : result (option (list CSTNode * list Token)) :=
  match alternates with
  | [] => Ok None
  | alt :: alternates' =>
      match match_sequence nm alt original_tokens (S i) with
      | Ok (true, found, remaining_tokens) =>
          Ok (Some (found, remaining_tokens))
      | Ok (false, _, _) =>
          match_alternate_loop nm i original_tokens alternates'
      | Raise (ValueError _) =>
          match_alternate_loop nm i original_tokens alternates'
      | Raise e => Raise e
      | OutOfFuel => OutOfFuel
      end
  end.

Definition match_alternate (parser_node : EBNFNode) (tokens : list Token)
    (i : nat) : result outcome :=
  match tokens with
  | [] => Ok (false, None, tokens)
  | _ :: _ =>
      let alternates := split_by_or (children parser_node) in
      do r <- match_alternate_loop (lexeme (token parser_node)) i tokens
                alternates ;
      match r with
      | Some (found, remaining_tokens) =>
          Ok (true, Some (mkCSTNode (Tok (token parser_node)) found),
              remaining_tokens)
      | None => Ok (false, None, tokens)
      end
  end.

(** The tail of [match_nonterminal]: extend [node] with the children of
    [child], and report a match when [node] has children. *)
Definition finish_nonterminal (node_token : Token) (kids : list CSTNode)
    (child : option CSTNode) (tokens : list Token) : outcome :=
  let kids' :=
    match child with
    | Some c => kids ++ cst_children c
    | None => kids
    end in
  match kids' with
  | _ :: _ => (true, Some (mkCSTNode (Tok node_token) kids'), tokens)
  | [] => (false, None, tokens)
  end.

Definition match_nonterminal (n : nat) (parser_node : EBNFNode)
    (tokens : list Token) (i : nat) : result outcome :=
  let tk := token parser_node in
  match symbol_table self !! split_dash (lexeme tk) with
  | None => Raise (KeyError (split_dash (lexeme tk)))
  | Some sym =>
      let node_token := mkToken sym (lexeme tk) (start tk) (end_ tk) false in
      match tokens with
      | [] => Ok (false, None, tokens)
      | _ :: _ =>
          if alternate parser_node then
            do '(ok, child, tokens') <-
               match_alternate parser_node tokens (S i) ;
            Ok (finish_nonterminal node_token [] child tokens')
          else if repeating parser_node then
            do '(ok, child, tokens') <-
               match_repeating n parser_node tokens (S i) ;
            Ok (finish_nonterminal node_token [] child tokens')
          else if optional parser_node then
            do '(ok, child, tokens') <-
               match_optional parser_node tokens (S i) ;
            Ok (finish_nonterminal node_token [] child tokens')
          else if oneormore parser_node then
            do '(ok, child, tokens') <-
               match_one_or_more n parser_node tokens (S i) ;
            if negb ok then Raise (SyntaxError DidNotFindRequired)
            else Ok (finish_nonterminal node_token [] child tokens')
          else if symbol_eq (symbol tk) SEQUENCE then
            do '(ok, found, tokens') <-
               match_sequence (lexeme tk) (children parser_node) tokens
                 (S i) ;
            Ok (finish_nonterminal node_token found None tokens')
          else Raise (SyntaxError RanOutOfOptions)
      end
  end.

Definition match_rule (rule : string) (tokens : list Token) (i : nat)
  : result outcome :=
  match rules_get (rules self) rule with
  | None => Raise (SyntaxError (NoRuleFor rule))
  | Some parser_node =>
      if negb (ebnf (token parser_node))
      then Raise (ValueError MissingEBNFToken)
      else
        do '(ok, node, tokens') <- match_rec parser_node tokens (S i) ;
        match i, tokens' with
        | O, _ :: _ =>
            Raise (ValueError (NotAllInputConsumed (take 3 tokens')))
        | _, _ => Ok (ok, node, tokens')
        end
  end.

Definition match_terminal (parser_node : EBNFNode) (tokens : list Token)
    (i : nat) : result outcome :=
  let tk := token parser_node in
  match tokens with
  | [] => Ok (false, None, tokens)
  | first :: tail =>
      if symbol_eq (symbol tk) RULE then
        do '(ok, child, tokens') <- match_rule (lexeme tk) tokens (S i) ;
        let kids :=
          match child with
          | Some c =>
              match collapse_tree self, cst_children c with
              | true, [only] => [only]
              | _, _ => [c]
              end
          | None => []
          end in
        Ok (true, Some (mkCSTNode (Lexeme (lexeme tk)) kids), tokens')
      else if symbol_eq (symbol tk) LITERAL then
        if bool_decide (lexeme tk = lexeme first) then
          Ok (true,
              Some (mkCSTNode (Lexeme (lexeme tk)) [mkCSTNode (Tok first) []]),
              tail)
        else Ok (false, None, tokens)
      else if bool_decide (lexeme tk = name (symbol first)) then
        Ok (true,
            Some (mkCSTNode (Lexeme (lexeme tk)) [mkCSTNode (Tok first) []]),
            tail)
      else Ok (false, None, tokens)
  end.

(** The body of [match]; [n] bounds the loops of the groups below it. *)
Definition match_body (n : nat) (parser_node : EBNFNode)
    (tokens : list Token) (i : nat) : result outcome :=
  match tokens with
  | [] =>
      if negb (optional parser_node || repeating parser_node)
      then Raise (SyntaxError (UnexpectedEndOfTokens parser_node))
      else Raise IndexError
  | _ :: _ =>
      if is_terminal (symbol (token parser_node))
      then match_terminal parser_node tokens i
      else match_nonterminal n parser_node tokens i
  end.

End Matcher.

(** [EBNFParser.match]: [depth] is the recursion limit left, counted in
    nested calls of [match]; [turns] is the number of turns granted to
    each [while] loop. *)
Fixpoint match_ (self : EBNFParser) (turns depth : nat)
    (parser_node : EBNFNode) (tokens : list Token) (i : nat)
  : result outcome :=
  match depth with
  | O => Raise RecursionError
  | S depth' =>
      match_body self (match_ self turns depth') turns parser_node tokens i
  end.

(** [EBNFParser.parse] *)
Definition parse (self : EBNFParser) (turns depth : nat)
    (tokens : list Token) : result outcome :=
  match start_rule self with
  | None | Some EmptyString => Raise (ValueError NoStartRule)
  | Some start => match_rule self (match_ self turns depth) start tokens 0
  end.

(** [EBNFParser.collapse_tree = b] *)
Definition set_collapse (b : bool) (self : EBNFParser) : EBNFParser :=
  mkEBNFParser (symbol_table self) (start_rule self) b (rules self)
    (tokenizer self).

(** ** Vocabulary of the statements *)

(** The children [pre] of a sequence match one after the other from
    [tokens] on, with a token left before each and every child found
    holding a token: the children found and the tokens left, as the loop
    of [match_sequence] has them when it is through with [pre]. *)
Fixpoint run_prefix
    (match_rec : EBNFNode -> list Token -> nat -> result outcome) (i : nat)
    (pre : list EBNFNode) (tokens : list Token)
  : option (list CSTNode * list Token) :=
  match pre with
  | [] => Some ([], tokens)
  | this :: pre' =>
      match tokens with
      | [] => None
      | _ :: _ =>
          match match_rec this tokens (S i) with
          | Ok (_, Some n, tokens1) =>
              if forallb has_lexeme (cst_children n) then
                match run_prefix match_rec i pre' tokens1 with
                | Some (found, tokens2) =>
                    Some (cst_children n ++ found, tokens2)
                | None => None
                end
              else None
          | _ => None
          end
      end
  end.

(** The node is an OR marker. *)
Definition is_or (n : EBNFNode) : bool := symbol_eq (symbol (token n)) OR.

(** An attempt at one alternative that [match_alternate] passes over: the
    sequence reports no match, or raises a [ValueError]. *)
Definition alt_misses (r : result (bool * list CSTNode * list Token))
  : bool :=
  match r with
  | Ok (false, _, _) => true
  | Raise (ValueError _) => true
  | _ => false
  end.

(** A meta-token that neither opens nor closes a group: the loop of
    [make_parser_node] appends it to the node under construction. *)
Definition flat (t : Token) : bool :=
  negb (symbol_in (symbol t) openers) && negb (symbol_in (symbol t) closers).

(** The node under construction after the loop of [make_parser_node] went
    over the flat tokens [X]. *)
Definition absorb (this : EBNFNode) (X : list Token) : EBNFNode :=
  fold_left
    (fun th t =>
       if symbol_eq (symbol t) OR
       then add (retag th ALTERNATING) (mkEBNFNode t [])
       else add th (mkEBNFNode t []))
    X this.

(** [o] and [c] are the opening and the closing token of a [{ }] or of a
    [[ ]] group. *)
Definition bracket_pair (o c : Token) : bool :=
  (symbol_eq (symbol o) STARTREPEAT && symbol_eq (symbol c) ENDREPEAT)
  || (symbol_eq (symbol o) STARTOPTION && symbol_eq (symbol c) ENDOPTION).

(** Two token lists with the same symbols, position by position; and two
    lists of definitions with the same keys, texts and token symbols. *)
Definition same_symbols (ts ts' : list Token) : Prop :=
  Forall2 (fun t t' => symbol t = symbol t') ts ts'.

Definition same_definition (d d' : definition) : Prop :=
  key d = key d' /\ val d = val d'
  /\ same_symbols (ebnf_tokens d) (ebnf_tokens d').

(** Two runs of the builder that agree on everything but the nodes built
    and the lexemes of the tokens left. *)
Definition builder_agree {A} (same : A -> A -> Prop)
    (r r' : result (gmap string nat * A * list Token)) : Prop :=
  match r, r' with
  | Ok (g, a, rest), Ok (g', a', rest') =>
      g = g' /\ same a a' /\ same_symbols rest rest'
  | Raise e, Raise e' => e = e'
  | OutOfFuel, OutOfFuel => True
  | _, _ => False
  end.

(** Two states of the loop of [__init__] that agree on everything but the
    parser nodes stored in the rule table. *)
Definition init_agree (st st' : init_state) : Prop :=
  st_groupcount st = st_groupcount st'
  /\ st_symbol_table st = st_symbol_table st'
  /\ map fst (st_rules st) = map fst (st_rules st')
  /\ st_tokenizer st = st_tokenizer st'.

(** The leaf tokens of a CST, left to right: a node without children is a
    leaf and contributes its token. *)
Fixpoint leaves (n : CSTNode) : list CSTToken :=
  match n with
  | mkCSTNode t [] => [t]
  | mkCSTNode _ kids => flat_map leaves kids
  end.

(** The height of a CST. *)
Fixpoint height (n : CSTNode) : nat :=
  match n with
  | mkCSTNode _ kids => S (foldr (fun k h => Nat.max (height k) h) 0 kids)
  end.

(** [unwraps deep flat]: the tree [flat] is the tree [deep] with some of its
    nodes that have exactly one child taken out, the child standing in the
    place of the node. *)
Inductive unwraps : CSTNode -> CSTNode -> Prop :=
| unwraps_keep t kids kids' :
    Forall2 unwraps kids kids' ->
    unwraps (mkCSTNode t kids) (mkCSTNode t kids')
| unwraps_drop t only flat :
    unwraps only flat -> unwraps (mkCSTNode t [only]) flat.

(** [unwraps_alone lone deep flat]: as [unwraps], where a node is taken out
    only if it has no sibling; [lone] tells whether [deep] stands without
    siblings, as the root and an only child do. *)
Inductive unwraps_alone : bool -> CSTNode -> CSTNode -> Prop :=
| unwraps_alone_keep lone t kids kids' :
    Forall2 (unwraps_alone (bool_decide (length kids = 1))) kids kids' ->
    unwraps_alone lone (mkCSTNode t kids) (mkCSTNode t kids')
| unwraps_alone_drop t only flat :
    unwraps_alone true only flat ->
    unwraps_alone true (mkCSTNode t [only]) flat.

(** A CST of the collapsing parse and the CST of the plain parse it comes
    from, each built around a token; two nodes as a match operation returns
    them, with the same token and children that correspond; two outcomes
    and two results that agree up to that. *)
Definition trims (a b : CSTNode) : Prop :=
  unwraps b a /\ has_lexeme a = true /\ has_lexeme b = true.

Definition node_sim (a b : CSTNode) : Prop :=
  cst_token a = cst_token b
  /\ Forall2 trims (cst_children a) (cst_children b).

Definition outcome_sim (a b : outcome) : Prop :=
  a.1.1 = b.1.1 /\ option_Forall2 node_sim a.1.2 b.1.2 /\ a.2 = b.2.

(** ... and the node, if any, is built around a token. *)
Definition outcome_sim_tok (a b : outcome) : Prop :=
  outcome_sim a b /\ from_option has_lexeme true a.1.2 = true.

(** ... when the parser node matched is not a terminal. *)
Definition outcome_sim_for (pn : EBNFNode) (a b : outcome) : Prop :=
  outcome_sim a b
  /\ (is_terminal (symbol (token pn)) = false ->
      from_option has_lexeme true a.1.2 = true).

Definition found_sim (a b : bool * list CSTNode * list Token) : Prop :=
  a.1.1 = b.1.1 /\ Forall2 trims a.1.2 b.1.2 /\ a.2 = b.2.

Definition result_sim {A} (R : A -> A -> Prop) (r r' : result A) : Prop :=
  match r, r' with
  | Ok a, Ok a' => R a a'
  | Raise e, Raise e' => e = e'
  | OutOfFuel, OutOfFuel => True
  | _, _ => False
  end.

(** [r] is [r'], unless a loop ran out of turns or the recursion limit was
    reached first. *)
Definition below {A} (r r' : result A) : Prop :=
  r = OutOfFuel \/ r = Raise RecursionError \/ r = r'.

(** The root node of every rule in the table is a non-terminal node. *)
Definition roots_ok (rs : list (string * option EBNFNode)) : Prop :=
  forall rule pn,
    rules_get rs rule = Some pn -> is_terminal (symbol (token pn)) = false.

(** A node without children, or no node at all. *)
Definition childless (node : option CSTNode) : bool :=
  match node with
  | Some (mkCSTNode _ (_ :: _)) => false
  | _ => true
  end.

(** What every outcome of [match] over [tokens] keeps to. *)
Definition kept (tokens : list Token) (o : outcome) : Prop :=
  o.1.1 = bool_decide (is_Some o.1.2)
  /\ o.2 `suffix_of` tokens
  /\ (childless o.1.2 = true -> o.2 <> []).

Definition seq_kept (tokens : list Token)
    (r : bool * list CSTNode * list Token) : Prop :=
  r.2 `suffix_of` tokens
  /\ (tokens <> [] -> r.1.1 = false \/ r.1.2 = [] -> r.2 <> []).

(** The property holds of a result that is a return. *)
Definition returns {A} (P : A -> Prop) (r : result A) : Prop :=
  forall a, r = Ok a -> P a.

(** The meta-token is an OR marker. *)
Definition or_token (t : Token) : bool := symbol_eq (symbol t) OR.

(** The leaf the loop of [make_parser_node] makes of a meta-token. *)
Definition leaf_of (t : Token) : EBNFNode := mkEBNFNode t [].

(** The node [make_parser_node] starts from. *)
Definition start_node (nm : string) : EBNFNode :=
  mkEBNFNode (EBNFToken SEQUENCE nm 0 0) [].

(** [r] is [r'] unless it ran out of fuel first. *)
Definition short_of {A} (r r' : result A) : Prop := r = OutOfFuel \/ r = r'.

(** The meta-tokens are tokens of [EBNFTokenizer]: their symbols are
    terminal. *)
Definition lexed (tokens : list Token) : bool :=
  forallb (fun t => is_terminal (symbol t)) tokens.

(** The symbols the lexers of [EBNFTokenizer] carry: the module registers
    a lexer for each of them and for nothing else, so there is none for
    [REP], [OPT] and [ATL]. *)
Definition meta_symbols : list Symbol :=
  [RULE; TERM; LITERAL; STARTREPEAT; ENDREPEAT; STARTGROUP; ENDGROUP;
   STARTOPTION; ENDOPTION; STARTATL; ENDATL; OR; DEFINE; ENDDEFINE].

(** Modelled from the spec: the engine behind [list(EBNFTokenizer(val))]
    is brutus/tokenizer.py, which is not part of the sources; by section
    4.2 a tokenizer emits, for each match, a token of the symbol of the
    lexer that matched.  [emitted tokens]: every token carries a symbol
    that [EBNFTokenizer] has a lexer for. *)
Definition emitted (tokens : list Token) : bool :=
  forallb (fun t => symbol_in (symbol t) meta_symbols) tokens.

Definition emitted_grammar (data : list definition) : bool :=
  forallb (fun d => emitted (ebnf_tokens d)) data.

(** The error is the one of a bracket group with a suffix. *)
Definition illegal_mix (e : exn) : bool :=
  match e with
  | SyntaxError (IllegalMix _) => true
  | _ => false
  end.

(** The kinds of node [SEQ_MAP] gives a group, and the kinds the node
    under construction can have when the loop of [make_parser_node] ends:
    outside every group no closer has been accepted, so no suffix has
    tagged it. *)
Definition group_kinds : list Symbol :=
  [SEQUENCE; REPEATING; OPTIONAL; ATLEASTONCE].

Definition root_kinds (endtoken : option Symbol) : list Symbol :=
  match endtoken with
  | None => [SEQUENCE; ALTERNATING]
  | Some _ => ALTERNATING :: group_kinds
  end.

(** A tree below the root of the rule [key], as the builder makes it: a
    leaf holds a meta-token and has no children; a group holds an
    [EBNFToken] named after the rule, is of one of the kinds of [SEQ_MAP],
    and has such trees as children. *)
Fixpoint built (key : string) (n : EBNFNode) : bool :=
  match n with
  | mkEBNFNode tk kids =>
      if is_terminal (symbol tk) then
        match kids with [] => true | _ => false end
      else
        ebnf tk && bool_decide (split_dash (lexeme tk) = key)
        && bool_decide (symbol tk ∈ group_kinds)
        && forallb (built key) kids
  end.

(** The root the builder returns for the name [nm] inside a group closed
    by [endtoken], or outside every group. *)
Definition built_root (endtoken : option Symbol) (nm : string)
    (n : EBNFNode) : Prop :=
  ebnf (token n) = true
  /\ lexeme (token n) = nm
  /\ symbol (token n) ∈ root_kinds endtoken
  /\ forallb (built (split_dash nm)) (children n) = true.

(** The keys of the rule definitions and of the terminal definitions, in
    the order of the text. *)
Definition lower_keys (data : list definition) : list string :=
  map key (List.filter (fun d => islower (key d)) data).

Definition upper_keys (data : list definition) : list string :=
  map key (List.filter (fun d => isupper (key d)) data).

(** The definition has a key in one case: it defines a rule or a
    terminal. *)
Definition cased (d : definition) : bool :=
  islower (key d) || isupper (key d).

(** The symbol table of a grammar. *)
Definition table_of (data : list definition) (k : string) : option Symbol :=
  if bool_decide (k ∈ lower_keys data) then Some (EBNFNonTerminalSymbol k)
  else if bool_decide (k ∈ upper_keys data) then Some (EBNFTerminalSymbol k)
  else None.

(** What the loop of [__init__] keeps true of its tables after the
    definitions [done_]. *)
Definition tables_of (done_ : list definition) (st : init_state) : Prop :=
  map fst (st_rules st) = lower_keys done_
  /\ NoDup (lower_keys done_)
  /\ forall k, st_symbol_table st !! k = table_of done_ k.

(** The children [found] account for the tokens between [tokens] and
    [rest]: their leaves are consumed tokens, in the order of the input;
    each of them is built around a token; and where there are children,
    tokens were consumed. *)
Definition yields (found : list CSTNode) (tokens rest : list Token) : Prop :=
  exists used ts,
    tokens = used ++ rest
    /\ flat_map leaves found = map Tok ts
    /\ ts `sublist_of` used
    /\ (found <> [] -> used <> [])
    /\ forallb has_lexeme found = true.

(** The node of a group or of a whole rule: built around a token, with
    children that account for the tokens consumed. *)
Definition grown_node (node : option CSTNode) (tokens rest : list Token)
  : Prop :=
  match node with
  | Some n =>
      yields (cst_children n) tokens rest
      /\ has_lexeme n = true /\ cst_children n <> []
  | None => True
  end.

(** What [match] on the parser node [pn] returns. *)
Definition grown (pn : EBNFNode) (tokens : list Token) (o : outcome) : Prop :=
  match o.1.2 with
  | Some n =>
      yields (cst_children n) tokens o.2
      /\ (is_terminal (symbol (token pn)) = false ->
          has_lexeme n = true /\ cst_children n <> [])
  | None => True
  end.

(** The kinds of node [match_nonterminal] has a branch for. *)
Definition node_kinds : list Symbol := ALTERNATING :: group_kinds.

(** A parser tree [match] can walk with the symbol table [table]: every
    node that is not a terminal leaf is of a kind [match_nonterminal] has a
    branch for, and the name before its dash is a key of the table. *)
Fixpoint sound (table : gmap string Symbol) (n : EBNFNode) : bool :=
  match n with
  | mkEBNFNode tk kids =>
      is_terminal (symbol tk)
      || (bool_decide (symbol tk ∈ node_kinds)
          && bool_decide (is_Some (table !! split_dash (lexeme tk)))
          && forallb (sound table) kids)
  end.

(** The rule table of the parser holds trees [match] can walk, each under
    a root that holds an [EBNFToken] and is no terminal. *)
Definition rules_fit (self : EBNFParser) : Prop :=
  forall k root,
    rules_get (rules self) k = Some root ->
    ebnf (token root) = true
    /\ is_terminal (symbol (token root)) = false
    /\ sound (symbol_table self) root = true.

(** The meta-tokens of the grammar are tokens of [EBNFTokenizer], and its
    rule keys have no dash. *)
Definition lexed_grammar (data : list definition) : bool :=
  forallb (fun d => lexed (ebnf_tokens d)) data.

Definition plain_keys (data : list definition) : bool :=
  forallb
    (fun d => implb (islower (key d))
                (bool_decide (split_dash (key d) = key d)))
    data.

(** The errors the matcher raises on purpose, the error of an empty group,
    and the recursion limit. *)
Definition matcher_error (e : exn) : bool :=
  match e with
  | SyntaxError (NoRuleFor _) | SyntaxError (MissingGroup _)
  | SyntaxError (ExpectedFoundNothing _) | SyntaxError DidNotFindRequired =>
      true
  | UnboundLocalError | RecursionError => true
  | _ => false
  end.

(** The result is no error, or one of the errors [allowed]. *)
Definition raises_only {A} (allowed : exn -> bool) (r : result A) : Prop :=
  forall e, r = Raise e -> allowed e = true.

(** The number of opening brackets among the tokens. *)
Definition opened (used : list Token) : nat :=
  length (List.filter (fun t => symbol_in (symbol t) openers) used).

(** [g] is [gc] after [n] more groups of the rule [key] were counted. *)
Definition counted (key : string) (n : nat) (gc g : gmap string nat) : Prop :=
  count g key = count gc key + n /\ forall k, k <> key -> g !! k = gc !! k.

(** The root of a rule outside every group: it holds an [EBNFToken] and
    is SEQUENCE or ALTERNATING. *)
Definition top_root (n : EBNFNode) : Prop :=
  ebnf (token n) = true /\ symbol (token n) ∈ root_kinds None.

(** ** Grammars and tokens of the examples *)

(** A meta-token as [EBNFTokenizer] emits it, and a target token. *)
Definition meta (s : Symbol) (lex : string) : Token := mkToken s lex 0 0 false.
Definition lit (lex : string) : Token := mkToken LITERAL lex 0 0 false.

(** The parser of a grammar that compiles; the empty parser otherwise. *)
Definition compiled (r : result (gmap string nat * EBNFParser))
  : EBNFParser :=
  match r with
  | Ok (_, p) => p
  | _ => mkEBNFParser ∅ None true [] (mkTokenizer [] ∅)
  end.

(** A rule definition from its name and the meta-tokens of its body. *)
Definition rule (k : string) (body : list Token) : definition :=
  mkDefinition k "" body.

(** A leaf parser node, as [make_parser_node] builds it from a meta-token. *)
Definition leaf (s : Symbol) (lex : string) : EBNFNode :=
  mkEBNFNode (meta s lex) [].

(** A group node named [nm] of kind [s] over the children [kids]. *)
Definition group (s : Symbol) (nm : string) (kids : list EBNFNode)
  : EBNFNode :=
  mkEBNFNode (EBNFToken s nm 0 0) kids.

(** The CST leaf of a consumed token. *)
Definition ate (t : Token) : CSTNode := mkCSTNode (Tok t) [].

(** [r := "a" "b" ;] *)
Definition grammar_ab : EBNFParser :=
  compiled (EBNFParser_init ∅
    [rule "r" [meta LITERAL "a"; meta LITERAL "b"]]).

(** [r := { "a" } "b" ;] *)
Definition grammar_rep_a_b : EBNFParser :=
  compiled (EBNFParser_init ∅
    [rule "r" [meta STARTREPEAT "{"; meta LITERAL "a"; meta ENDREPEAT "}";
               meta LITERAL "b"]]).

(** [r := "a" "b" | "a" ;] *)
Definition grammar_alt : EBNFParser :=
  compiled (EBNFParser_init ∅
    [rule "r" [meta LITERAL "a"; meta LITERAL "b"; meta OR "|";
               meta LITERAL "a"]]).

(** [r := s | "b" ;  s := "a" ;] *)
Definition grammar_rule_or_b : EBNFParser :=
  compiled (EBNFParser_init ∅
    [rule "r" [meta RULE "s"; meta OR "|"; meta LITERAL "b"];
     rule "s" [meta LITERAL "a"]]).

(** [r := { s } ; s := "a" ;] *)
Definition grammar_rep_rule : EBNFParser :=
  compiled (EBNFParser_init ∅
    [rule "r" [meta STARTREPEAT "{"; meta RULE "s"; meta ENDREPEAT "}"];
     rule "s" [meta LITERAL "a"]]).

(** [r := < "a" > ;] *)
Definition grammar_atl : EBNFParser :=
  compiled (EBNFParser_init ∅
    [rule "r" [meta STARTATL "<"; meta LITERAL "a"; meta ENDATL ">"]]).

(** [r := ( "a" ) * ;] and [r := { "a" } ;] *)
Definition body_group_star : list Token :=
  [meta STARTGROUP "("; meta LITERAL "a"; meta ENDGROUP ")"; meta REP "*"].
Definition body_braces : list Token :=
  [meta STARTREPEAT "{"; meta LITERAL "a"; meta ENDREPEAT "}"].
Definition grammar_group_star : EBNFParser :=
  compiled (EBNFParser_init ∅ [rule "r" body_group_star]).
Definition grammar_braces : EBNFParser :=
  compiled (EBNFParser_init ∅ [rule "r" body_braces]).

(** [r := s ;], with no rule [s] *)
Definition grammar_dangling : list definition := [rule "r" [meta RULE "s"]].

(** [e := t "y" ; t := f ; f := "x" ;] *)
Definition grammar_chain_text : list definition :=
  [rule "e" [meta RULE "t"; meta LITERAL "y"];
   rule "t" [meta RULE "f"];
   rule "f" [meta LITERAL "x"]].
Definition grammar_chain : EBNFParser :=
  compiled (EBNFParser_init ∅ grammar_chain_text).

(** [r := A ;  A := [a]+ ;] *)
Definition grammar_term_text : list definition :=
  [rule "r" [meta TERM "A"]; mkDefinition "A" "[a]+" []].
Definition grammar_term : EBNFParser :=
  compiled (EBNFParser_init ∅ grammar_term_text).

(** [r := ( ) ;] *)
Definition grammar_empty_group : EBNFParser :=
  compiled (EBNFParser_init ∅
    [rule "r" [meta STARTGROUP "("; meta ENDGROUP ")"]]).

(** [r := s "c" ;  s := "a" "b" ;] *)
Definition grammar_prefix : EBNFParser :=
  compiled (EBNFParser_init ∅
    [rule "r" [meta RULE "s"; meta LITERAL "c"];
     rule "s" [meta LITERAL "a"; meta LITERAL "b"]]).

(** [my-rule := "a" ;] *)
Definition grammar_dashed_text : list definition :=
  [rule "my-rule" [meta LITERAL "a"]].
Definition grammar_dashed : EBNFParser :=
  compiled (EBNFParser_init ∅ grammar_dashed_text).

(** [r := [ "a" ] "b" ;] *)
Definition grammar_opt_a_b : EBNFParser :=
  compiled (EBNFParser_init ∅
    [rule "r" [meta STARTOPTION "["; meta LITERAL "a"; meta ENDOPTION "]";
               meta LITERAL "b"]]).

(** [r := < "a" > | "b" ;] *)
Definition grammar_atl_or_b : EBNFParser :=
  compiled (EBNFParser_init ∅
    [rule "r" [meta STARTATL "<"; meta LITERAL "a"; meta ENDATL ">";
               meta OR "|"; meta LITERAL "b"]]).

(** [r := "a" < "b" > ;] *)
Definition grammar_a_atl_b : EBNFParser :=
  compiled (EBNFParser_init ∅
    [rule "r" [meta LITERAL "a"; meta STARTATL "<"; meta LITERAL "b";
               meta ENDATL ">"]]).

(** ** Sequences of literals and terminals *)

(** The leaf of the meta-token [b] matches the token [t]: a literal by its
    lexeme, any other terminal by the name of the symbol of [t]. *)
Definition leaf_accepts (b t : Token) : bool :=
  if symbol_eq (symbol b) LITERAL then bool_decide (lexeme b = lexeme t)
  else bool_decide (lexeme b = name (symbol t)).

(** The tokens are as many as the meta-tokens, and each is matched by the
    leaf of its meta-token. *)
Fixpoint accepts (body tokens : list Token) : bool :=
  match body, tokens with
  | [], [] => true
  | b :: bs, t :: ts => leaf_accepts b t && accepts bs ts
  | _, _ => false
  end.

(** What the loop of [match_sequence] comes to over the leaves of the
    literal and terminal meta-tokens [body]. *)
Fixpoint eat (body orig : list Token) (found : list CSTNode)
    (tokens : list Token) : bool * list CSTNode * list Token :=
  match body with
  | [] => (true, found, tokens)
  | b :: bs =>
      match tokens with
      | [] => (false, [], orig)
      | t :: ts =>
          if leaf_accepts b t then eat bs orig (found ++ [ate t]) ts
          else (false, found, t :: ts)
      end
  end.

(** The leaf of [b] does not match the first of the tokens, if there is
    one. *)
Definition stops (b : Token) (rest : list Token) : bool :=
  match rest with
  | [] => true
  | t :: _ => negb (leaf_accepts b t)
  end.

(** * Properties *)

(** ** Sequences *)

Section Sequence.

Variable match_rec : EBNFNode -> list Token -> nat -> result outcome.

Lemma match_sequence_loop_prefix i orig pre rest :
  forall tokens ok0 found0 found toks,
    run_prefix match_rec i pre tokens = Some (found, toks) ->
    exists ok',
      match_sequence_loop match_rec i orig (pre ++ rest) ok0 found0 tokens
      = match_sequence_loop match_rec i orig rest ok' (found0 ++ found) toks.
Proof.
  induction pre as [|this pre IH]; intros tokens ok0 found0 found toks Hrun.
  - simpl in Hrun. injection Hrun as <- <-. exists ok0.
    by rewrite app_nil_r.
  - simpl in Hrun. destruct tokens as [|t tokens]; [done|].
    destruct (match_rec this (t :: tokens) (S i))
      as [[[ok1 [n|]] tokens1]| |] eqn:Hm; try done.
    destruct (forallb has_lexeme (cst_children n)) eqn:Hlex; [|done].
    destruct (run_prefix match_rec i pre tokens1) as [[f t2]|] eqn:Hp;
      [|done].
    injection Hrun as <- <-.
    destruct (IH tokens1 (Some ok1) (found0 ++ cst_children n) f t2 Hp)
      as [ok' Heq].
    exists ok'. simpl. rewrite Hm. simpl. unfold token_lexemes.
    rewrite Hlex. simpl. rewrite Heq.
    by rewrite app_assoc.
Qed.

(** The ways the loop of [match_sequence] ends early. *)
Lemma match_sequence_child_miss nm i pre this post tokens found toks ok toks' :
  run_prefix match_rec i pre tokens = Some (found, toks) ->
  toks <> [] ->
  match_rec this toks (S i) = Ok (ok, None, toks') ->
  match_sequence match_rec nm (pre ++ this :: post) tokens i
  = Ok (false, found, toks').
Proof.
  intros Hrun Hne Hmiss. unfold match_sequence.
  destruct (match_sequence_loop_prefix i tokens pre (this :: post) tokens
              None [] found toks Hrun) as [ok' ->].
  destruct toks as [|t toks]; [done|].
  simpl. by rewrite Hmiss.
Qed.

Lemma match_sequence_out_of_tokens nm i pre this post tokens found :
  run_prefix match_rec i pre tokens = Some (found, []) ->
  oneormore this = false ->
  match_sequence match_rec nm (pre ++ this :: post) tokens i
  = Ok (false, [], tokens).
Proof.
  intros Hrun Hone. unfold match_sequence.
  destruct (match_sequence_loop_prefix i tokens pre (this :: post) tokens
              None [] found [] Hrun) as [ok' ->].
  simpl. by rewrite Hone.
Qed.

Lemma match_sequence_nothing_left nm i pre this post tokens found :
  run_prefix match_rec i pre tokens = Some (found, []) ->
  oneormore this = true ->
  match_sequence match_rec nm (pre ++ this :: post) tokens i
  = Raise (SyntaxError (ExpectedFoundNothing this)).
Proof.
  intros Hrun Hone. unfold match_sequence.
  destruct (match_sequence_loop_prefix i tokens pre (this :: post)
              tokens None [] found [] Hrun) as [ok' ->].
  simpl. by rewrite Hone.
Qed.

(** C3, as the code has it.  When a child of the sequence misses, with a
    token left to match against, [match_sequence] returns [ok = false]
    with the children found before that child and the token list as the
    missing child's match left it, which is the list after the earlier
    children consumed their tokens and not the list from the start of the
    sequence.  When the tokens run out while a child is still expected,
    the child is not tried: the list from the start comes back, with no
    children, unless the child is an ATLEASTONCE group, for which
    [match_sequence] raises [SyntaxError] "Expected ... and found
    nothing". *)
Theorem match_sequence_miss nm i pre this post tokens found toks :
  run_prefix match_rec i pre tokens = Some (found, toks) ->
  (forall ok toks',
      toks <> [] ->
      match_rec this toks (S i) = Ok (ok, None, toks') ->
      match_sequence match_rec nm (pre ++ this :: post) tokens i
      = Ok (false, found, toks'))
  /\ (toks = [] -> oneormore this = false ->
      match_sequence match_rec nm (pre ++ this :: post) tokens i
      = Ok (false, [], tokens))
  /\ (toks = [] -> oneormore this = true ->
      match_sequence match_rec nm (pre ++ this :: post) tokens i
      = Raise (SyntaxError (ExpectedFoundNothing this))).
Proof.
  intros Hrun. split; [|split].
  - intros ok toks' Hne Hmiss.
    by apply match_sequence_child_miss with (toks := toks) (ok := ok).
  - intros -> Hone.
    by apply match_sequence_out_of_tokens with (found := found).
  - intros -> Hone.
    by apply match_sequence_nothing_left with (found := found).
Qed.

End Sequence.

Lemma match_S self turns depth pn tokens i :
  match_ self turns (S depth) pn tokens i
  = match_body self (match_ self turns depth) turns pn tokens i.
Proof. reflexivity. Qed.

(** The witness of [match_sequence_miss]: in the sequence ["a" "b"] over
    the tokens [a c] the second child misses after the first consumed [a];
    over the single token [a] the tokens run out before the second child;
    and so they do in the sequence ["a" < "b" >], before the group. *)
Lemma match_sequence_miss_witness :
  match_sequence (match_ grammar_ab 9 1) "r"
    ([leaf LITERAL "a"] ++ leaf LITERAL "b" :: []) [lit "a"; lit "c"] 1
  = Ok (false, [ate (lit "a")], [lit "c"])
  /\ match_sequence (match_ grammar_ab 9 1) "r"
       ([leaf LITERAL "a"] ++ leaf LITERAL "b" :: []) [lit "a"] 1
     = Ok (false, [], [lit "a"])
  /\ match_sequence (match_ grammar_a_atl_b 9 1) "r"
       ([leaf LITERAL "a"]
          ++ group ATLEASTONCE "r-1" [leaf LITERAL "b"] :: [])
       [lit "a"] 1
     = Raise (SyntaxError
         (ExpectedFoundNothing
            (group ATLEASTONCE "r-1" [leaf LITERAL "b"]))).
Proof.
  split; [|split].
  - refine (proj1 (match_sequence_miss (match_ grammar_ab 9 1) "r" 1
              [leaf LITERAL "a"] (leaf LITERAL "b") [] [lit "a"; lit "c"]
              [ate (lit "a")] [lit "c"] _) false [lit "c"] _ _);
      [reflexivity | discriminate | reflexivity].
  - refine (proj1 (proj2 (match_sequence_miss (match_ grammar_ab 9 1) "r" 1
              [leaf LITERAL "a"] (leaf LITERAL "b") [] [lit "a"]
              [ate (lit "a")] [] _)) _ _); reflexivity.
  - refine (proj2 (proj2 (match_sequence_miss (match_ grammar_a_atl_b 9 1)
              "r" 1 [leaf LITERAL "a"]
              (group ATLEASTONCE "r-1" [leaf LITERAL "b"]) [] [lit "a"]
              [ate (lit "a")] [] _)) _ _); reflexivity.
Defined.

(** C3, as the specification words it, fails: the second child of the
    sequence ["a" "b"] misses on the tokens [a c], and the token list that
    comes back is [c], not the list [a c] from the start of the sequence. *)
Lemma match_sequence_miss_keeps_consumption :
  exists toks,
    match_ grammar_ab 9 1 (leaf LITERAL "b") [lit "c"] 2
    = Ok (false, None, [lit "c"])
    /\ match_sequence (match_ grammar_ab 9 1) "r"
         [leaf LITERAL "a"; leaf LITERAL "b"] [lit "a"; lit "c"] 1
       = Ok (false, [ate (lit "a")], toks)
    /\ toks <> [lit "a"; lit "c"].
Proof.
  exists [lit "c"]. split; [reflexivity|]. split; [reflexivity | discriminate].
Qed.

(** ** Repeating groups inside a sequence *)

Lemma repeating_not_alternate pn :
  symbol (token pn) = REPEATING -> alternate pn = false /\ repeating pn = true.
Proof. unfold alternate, repeating. by intros ->. Qed.

(** C2, as the code has it.  With a token left, a REPEATING node whose
    child sequence matches zero times returns non-match, with the token
    list that attempt left; and a sequence that holds the node after the
    children [pre] returns at once with [ok = false], the children found
    for [pre] and that token list: the children [post] behind the repeat
    are not attempted.  With no token left the repeat is not tried, as
    [match] on it would raise [IndexError]: the sequence returns
    [ok = false] with no children and the token list it was called with.
    [outer] is [match] as the sequence calls it, [inner] is [match] as the
    body of the repeat calls it, one call deeper. *)
Theorem repeating_zero_match_ends_sequence
    self turns depth pn nm i pre post tokens found toks :
  let inner := match_ self (S turns) (S depth) in
  let outer := match_ self (S turns) (S (S depth)) in
  symbol (token pn) = REPEATING ->
  is_Some (symbol_table self !! split_dash (lexeme (token pn))) ->
  run_prefix outer i pre tokens = Some (found, toks) ->
  (forall body_found toks',
      toks <> [] ->
      match_sequence inner (lexeme (token pn)) (children pn) toks
        (S (S (S i)))
      = Ok (false, body_found, toks') ->
      outer pn toks (S i) = Ok (false, None, toks')
      /\ match_sequence outer nm (pre ++ pn :: post) tokens i
         = Ok (false, found, toks'))
  /\ (toks = [] ->
      outer pn toks (S i) = Raise IndexError
      /\ match_sequence outer nm (pre ++ pn :: post) tokens i
         = Ok (false, [], tokens)).
Proof.
  intros inner outer Hsym [sym Hsym_table] Hrun.
  destruct (repeating_not_alternate pn Hsym) as [Halt Hrep]. split.
  - intros body_found toks' Hne Hbody.
    assert (Hnode : outer pn toks (S i) = Ok (false, None, toks')).
    { destruct toks as [|t toks]; [done|].
      unfold outer. rewrite match_S. unfold match_body. rewrite Hsym.
      change (is_terminal REPEATING) with false. cbv iota.
      unfold match_nonterminal. rewrite Hsym_table, Halt, Hrep.
      unfold match_repeating. cbn [match_repeating_loop].
      fold inner. rewrite Hbody. reflexivity. }
    split; [exact Hnode|].
    by apply match_sequence_child_miss with (toks := toks) (ok := false).
  - intros ->. split.
    + unfold outer. rewrite match_S. unfold match_body.
      by rewrite Hrep, orb_true_r.
    + apply match_sequence_out_of_tokens with (found := found); [done|].
      unfold oneormore. by rewrite Hsym.
Qed.

(** The witness of [repeating_zero_match_ends_sequence]: the sequence
    [{ "a" } "b"] over the token [b], and the sequence ["a" { "b" }] over
    the token [a]. *)
Lemma repeating_zero_match_ends_sequence_witness :
  (match_ grammar_rep_a_b 9 2 (group REPEATING "r-1" [leaf LITERAL "a"])
     [lit "b"] 2 = Ok (false, None, [lit "b"])
   /\ match_sequence (match_ grammar_rep_a_b 9 2) "r"
        ([] ++ group REPEATING "r-1" [leaf LITERAL "a"] :: [leaf LITERAL "b"])
        [lit "b"] 1 = Ok (false, [], [lit "b"]))
  /\ (match_ grammar_rep_a_b 9 2 (group REPEATING "r-1" [leaf LITERAL "b"])
        [] 2 = Raise IndexError
      /\ match_sequence (match_ grammar_rep_a_b 9 2) "r"
           ([leaf LITERAL "a"]
              ++ group REPEATING "r-1" [leaf LITERAL "b"] :: [])
           [lit "a"] 1 = Ok (false, [], [lit "a"])).
Proof.
  split.
  - refine (proj1 (repeating_zero_match_ends_sequence grammar_rep_a_b 8 0
              (group REPEATING "r-1" [leaf LITERAL "a"]) "r" 1 []
              [leaf LITERAL "b"] [lit "b"] [] [lit "b"] _ _ _)
              [] [lit "b"] _ _);
      [reflexivity | by vm_compute; eexists | reflexivity | discriminate
      | reflexivity].
  - refine (proj2 (repeating_zero_match_ends_sequence grammar_rep_a_b 8 0
              (group REPEATING "r-1" [leaf LITERAL "b"]) "r" 1
              [leaf LITERAL "a"] [] [lit "a"] [ate (lit "a")] [] _ _ _) _);
      [reflexivity | by vm_compute; eexists | reflexivity | reflexivity].
Defined.

(** C2, as the specification words it, fails: in [r := { "a" } "b" ;] over
    the token [b] the repeat matches zero times; the child ["b"] behind it
    would match, yet the sequence stops at the repeat with [ok = false],
    and the parse ends with the token unconsumed. *)
Lemma zero_match_repeat_stops_sequence :
  match_ grammar_rep_a_b 9 2 (group REPEATING "r-1" [leaf LITERAL "a"])
    [lit "b"] 2 = Ok (false, None, [lit "b"])
  /\ match_sequence (match_ grammar_rep_a_b 9 2) "r"
       [group REPEATING "r-1" [leaf LITERAL "a"]; leaf LITERAL "b"]
       [lit "b"] 1 = Ok (false, [], [lit "b"])
  /\ match_sequence (match_ grammar_rep_a_b 9 2) "r" [leaf LITERAL "b"]
       [lit "b"] 1 = Ok (true, [ate (lit "b")], [])
  /\ rules_get (rules grammar_rep_a_b) "r"
     = Some (group SEQUENCE "r"
         [group REPEATING "r-1" [leaf LITERAL "a"]; leaf LITERAL "b"])
  /\ parse grammar_rep_a_b 9 3 [lit "b"]
     = Raise (ValueError (NotAllInputConsumed [lit "b"])).
Proof. repeat split; reflexivity. Qed.

(** ** Alternation *)

(** [split_by_or] cuts the children at the OR markers: put end to end, the
    alternatives are the children that are no markers, and no alternative
    is empty or holds a marker. *)
Lemma split_by_or_from_concat l :
  forall cur,
    concat (split_by_or_from cur l)
    = cur ++ List.filter (fun n => negb (is_or n)) l.
Proof.
  induction l as [|x l IH]; intros cur.
  - destruct cur; simpl; by rewrite ?app_nil_r.
  - cbn [split_by_or_from List.filter]. unfold is_or at 1.
    destruct (symbol_eq (symbol (token x)) OR); cbn [negb].
    + destruct cur as [|c cur]; [apply IH|].
      cbn [concat]. by rewrite IH.
    + rewrite IH. by rewrite <- app_assoc.
Qed.

Lemma split_by_or_concat l :
  concat (split_by_or l) = List.filter (fun n => negb (is_or n)) l.
Proof. apply split_by_or_from_concat. Qed.

Lemma split_by_or_from_alternatives l :
  forall cur,
    Forall (fun n => is_or n = false) cur ->
    Forall (fun alt => alt <> [] /\ Forall (fun n => is_or n = false) alt)
      (split_by_or_from cur l).
Proof.
  induction l as [|x l IH]; intros cur Hcur.
  - destruct cur as [|c cur]; cbn [split_by_or_from]; [constructor|].
    constructor; [done|constructor].
  - cbn [split_by_or_from].
    destruct (symbol_eq (symbol (token x)) OR) eqn:Hx.
    + destruct cur as [|c cur]; [by apply IH|].
      constructor; [done|]. by apply IH.
    + apply IH. apply Forall_app. split; [done|]. by repeat constructor.
Qed.

Lemma split_by_or_alternatives l :
  Forall (fun alt => alt <> [] /\ Forall (fun n => is_or n = false) alt)
    (split_by_or l).
Proof. by apply split_by_or_from_alternatives. Qed.

(** [match] on an ALTERNATING node, with a token left, is
    [match_alternate] on it, and the children of what that returns hang
    under a node for the rule. *)
Lemma match_alternating_node self turns depth pn t tokens i sym :
  symbol (token pn) = ALTERNATING ->
  symbol_table self !! split_dash (lexeme (token pn)) = Some sym ->
  match_ self turns (S depth) pn (t :: tokens) i
  = (do '(ok, child, tokens') <-
       match_alternate (match_ self turns depth) pn (t :: tokens) (S i) ;
     Ok (finish_nonterminal
           (mkToken sym (lexeme (token pn)) (start (token pn))
              (end_ (token pn)) false)
           [] child tokens')).
Proof.
  intros Hsym Htable. rewrite match_S. unfold match_body. rewrite Hsym.
  change (is_terminal ALTERNATING) with false. cbv iota.
  unfold match_nonterminal. rewrite Htable. unfold alternate.
  by rewrite Hsym.
Qed.

Section Alternation.

Variable match_rec : EBNFNode -> list Token -> nat -> result outcome.

Lemma match_alternate_loop_skip nm i tokens pre rest :
  Forall (fun a =>
    alt_misses (match_sequence match_rec nm a tokens (S i)) = true) pre ->
  match_alternate_loop match_rec nm i tokens (pre ++ rest)
  = match_alternate_loop match_rec nm i tokens rest.
Proof.
  induction 1 as [|a pre Ha _ IH]; [done|].
  simpl.
  destruct (match_sequence match_rec nm a tokens (S i))
    as [[[[] f] r]|[]|]; try done.
Qed.

(** What [match_alternate] makes of the answers of [match_sequence]: the
    alternatives are tried in order, each from the token list
    [match_alternate] was called with.  Alternatives whose sequence
    answers no match are passed over, and the first whose sequence answers
    a match is committed: its children and the tokens it left are the
    result.  When every sequence answers no match, and when there is no
    token to start from, the result is non-match with the token list
    unchanged. *)
Theorem match_alternate_first_match parser_node tokens i :
  let attempt a :=
    match_sequence match_rec (lexeme (token parser_node)) a tokens (S i) in
  (forall pre alt post found remaining,
      tokens <> [] ->
      split_by_or (children parser_node) = pre ++ alt :: post ->
      Forall (fun a => alt_misses (attempt a) = true) pre ->
      attempt alt = Ok (true, found, remaining) ->
      match_alternate match_rec parser_node tokens i
      = Ok (true, Some (mkCSTNode (Tok (token parser_node)) found),
            remaining))
  /\ (Forall (fun a => alt_misses (attempt a) = true)
        (split_by_or (children parser_node)) ->
      match_alternate match_rec parser_node tokens i
      = Ok (false, None, tokens))
  /\ (tokens = [] ->
      match_alternate match_rec parser_node tokens i
      = Ok (false, None, tokens)).
Proof.
  intros attempt. unfold match_alternate. split; [|split].
  - intros pre alt post found remaining Hne -> Hpre Halt.
    destruct tokens as [|t toks]; [done|].
    rewrite match_alternate_loop_skip by exact Hpre.
    simpl. unfold attempt in Halt. by rewrite Halt.
  - intros Hall. destruct tokens as [|t toks]; [done|].
    rewrite <- (app_nil_r (split_by_or _)).
    rewrite match_alternate_loop_skip by exact Hall.
    reflexivity.
  - by intros ->.
Qed.

End Alternation.

(** The witness of [match_alternate_first_match]: the root of
    [r := "a" "b" | "a" ;] over the token [a], where the first alternative
    runs out of tokens and the second matches, over the token [c], where
    both miss, and over no token. *)
Lemma match_alternate_first_match_witness :
  let root :=
    mkEBNFNode (EBNFToken ALTERNATING "r" 0 0)
      [leaf LITERAL "a"; leaf LITERAL "b"; leaf OR "|"; leaf LITERAL "a"] in
  rules_get (rules grammar_alt) "r" = Some root
  /\ match_alternate (match_ grammar_alt 9 1) root [lit "a"] 2
     = Ok (true, Some (mkCSTNode (Tok (token root)) [ate (lit "a")]), [])
  /\ match_alternate (match_ grammar_alt 9 1) root [lit "c"] 2
     = Ok (false, None, [lit "c"])
  /\ match_alternate (match_ grammar_alt 9 1) root [] 2 = Ok (false, None, []).
Proof.
  intros root. split; [reflexivity|]. split; [|split].
  - refine (proj1 (match_alternate_first_match (match_ grammar_alt 9 1) root
              [lit "a"] 2)
              [[leaf LITERAL "a"; leaf LITERAL "b"]] [leaf LITERAL "a"] []
              [ate (lit "a")] [] _ _ _ _);
      [discriminate | reflexivity | | reflexivity].
    repeat constructor.
  - refine (proj1 (proj2 (match_alternate_first_match (match_ grammar_alt 9 1)
              root [lit "c"] 2)) _).
    repeat constructor.
  - exact (proj2 (proj2 (match_alternate_first_match (match_ grammar_alt 9 1)
              root [] 2)) eq_refl).
Defined.

(** C6, where the code departs from it: [r := s | "b" ;  s := "a" ;] over
    the token [b].  The rule [s] of the first alternative misses, and the
    second alternative matches the token when it is tried alone.  Yet the
    RULE leaf of [s] answers true on the miss, so the sequence of the
    first alternative answers a match with no children and nothing
    consumed: [match_alternate] commits it and never tries ["b"].  The
    node it returns has no children, [match] on the ALTERNATING node
    answers no match, and the parse ends with the token unconsumed. *)
Theorem alternation_commits_missed_rule turns depth :
  let self := grammar_rule_or_b in
  let root :=
    group ALTERNATING "r" [leaf RULE "s"; leaf OR "|"; leaf LITERAL "b"] in
  let deep := S (S (S depth)) in
  rules_get (rules self) "r" = Some root
  /\ split_by_or (children root) = [[leaf RULE "s"]; [leaf LITERAL "b"]]
  /\ match_rule self (match_ self turns (S (S depth))) "s" [lit "b"] 5
     = Ok (false, None, [lit "b"])
  /\ match_sequence (match_ self turns deep) "r" [leaf RULE "s"]
       [lit "b"] 3
     = Ok (true, [], [lit "b"])
  /\ match_sequence (match_ self turns deep) "r" [leaf LITERAL "b"]
       [lit "b"] 3
     = Ok (true, [ate (lit "b")], [])
  /\ match_alternate (match_ self turns deep) root [lit "b"] 2
     = Ok (true, Some (mkCSTNode (Tok (token root)) []), [lit "b"])
  /\ match_ self turns (S deep) root [lit "b"] 1
     = Ok (false, None, [lit "b"])
  /\ parse self turns (S deep) [lit "b"]
     = Raise (ValueError (NotAllInputConsumed [lit "b"])).
Proof. repeat split; reflexivity. Qed.

(** ** Rule references *)

(** A RULE leaf over a non-empty token list answers [ok = true] whenever
    the call of [match_rule] returns, whatever that call answered. *)
Lemma match_terminal_rule_true self match_rec pn t tokens i ok child toks :
  symbol_eq (symbol (token pn)) RULE = true ->
  match_rule self match_rec (lexeme (token pn)) (t :: tokens) (S i)
  = Ok (ok, child, toks) ->
  exists node,
    match_terminal self match_rec pn (t :: tokens) i
    = Ok (true, Some node, toks).
Proof.
  intros Hrule Hcall. unfold match_terminal. rewrite Hrule, Hcall.
  simpl. eauto.
Qed.

(** C4 at the failing input.  In [r := { s } ; s := "a" ;] the rule [s]
    does not match the token [b]: [match_rule] answers [ok = false] with
    no node.  The RULE leaf for [s] nevertheless answers [ok = true], with
    a childless node and no token consumed. *)
Theorem rule_leaf_reports_true_on_miss :
  match_rule grammar_rep_rule (match_ grammar_rep_rule 9 3) "s" [lit "b"] 7
  = Ok (false, None, [lit "b"])
  /\ match_terminal grammar_rep_rule (match_ grammar_rep_rule 9 3)
       (leaf RULE "s") [lit "b"] 6
     = Ok (true, Some (mkCSTNode (Lexeme "s") []), [lit "b"]).
Proof. split; reflexivity. Qed.

(** ** Termination *)

(** One turn of the repeat [{ s }] over the token [b]: three nested calls
    of [match] are all it takes, and the body sequence answers
    [ok = true], finds nothing and consumes nothing. *)
Lemma rule_leaf_turn turns depth i :
  match_ grammar_rep_rule turns (3 + depth) (leaf RULE "s") [lit "b"] i
  = Ok (true, Some (mkCSTNode (Lexeme "s") []), [lit "b"]).
Proof. reflexivity. Qed.

Lemma body_turn turns depth i :
  match_sequence (match_ grammar_rep_rule turns (3 + depth)) "r-1"
    [leaf RULE "s"] [lit "b"] i = Ok (true, [], [lit "b"]).
Proof. reflexivity. Qed.

Lemma repeat_never_ends turns depth n i acc :
  match_repeating_loop (match_ grammar_rep_rule turns (3 + depth)) n "r-1"
    [leaf RULE "s"] i acc [lit "b"] = OutOfFuel.
Proof.
  revert acc. induction n as [|n IH]; intros acc; [reflexivity|].
  cbn [match_repeating_loop]. rewrite body_turn. cbn [bind].
  apply IH.
Qed.

(** C5 at the failing input.  For [r := { s } ; s := "a" ;] and the token
    list [b], [parse] never returns and never raises.  The calls of
    [match] nest five deep and no deeper, so with a recursion limit of
    five or more no [RecursionError] ends the parse; and however many
    turns the loop of [match_repeating] is granted, it wants more: each
    turn ends (see [body_turn]) with [ok = true] and the token list
    unchanged. *)
Theorem parse_diverges turns depth :
  parse grammar_rep_rule turns (5 + depth) [lit "b"] = OutOfFuel.
Proof.
  unfold parse.
  change (start_rule grammar_rep_rule) with (Some "r").
  cbv iota. unfold match_rule.
  change (rules_get (rules grammar_rep_rule) "r")
    with (Some (group SEQUENCE "r"
                  [group REPEATING "r-1" [leaf RULE "s"]])).
  cbv iota. change (negb _) with false. cbv iota.
  change (5 + depth) with (S (S (3 + depth))).
  rewrite match_S. unfold match_body. change (is_terminal _) with false.
  cbv iota. unfold match_nonterminal.
  change (symbol_table grammar_rep_rule !! _)
    with (Some (EBNFNonTerminalSymbol "r")).
  cbv iota.
  change (alternate _) with false. change (repeating _) with false.
  change (optional _) with false. change (oneormore _) with false.
  change (symbol_eq _ SEQUENCE) with true. cbv iota.
  unfold match_sequence. cbn [children group match_sequence_loop].
  rewrite match_S. unfold match_body. change (is_terminal _) with false.
  cbv iota. unfold match_nonterminal.
  change (symbol_table grammar_rep_rule !! _)
    with (Some (EBNFNonTerminalSymbol "r")).
  cbv iota.
  change (alternate _) with false. change (repeating _) with true.
  cbv iota. unfold match_repeating.
  cbn [children group token lexeme EBNFToken].
  rewrite repeat_never_ends. reflexivity.
Qed.

(** With a recursion limit below five the same parse ends at the limit. *)
Lemma parse_shallow_limit turns :
  parse grammar_rep_rule (S turns) 4 [lit "b"] = Raise RecursionError.
Proof. reflexivity. Qed.

(** ** At-least-once groups and the end of the input *)

Lemma match_literal_miss self turns depth lex t rest i :
  lex <> lexeme t ->
  match_ self turns (S depth) (leaf LITERAL lex) (t :: rest) i
  = Ok (false, None, t :: rest).
Proof.
  intros Hne. rewrite match_S. unfold match_body, match_terminal. simpl.
  by rewrite bool_decide_false.
Qed.

(** [match] called with no tokens left always raises: the guard raises for
    a node that is neither optional nor repeating, and [tokens[0]] raises
    for the others. *)
Lemma match_no_tokens self turns depth pn i :
  match_ self turns (S depth) pn [] i
  = if negb (optional pn || repeating pn)
    then Raise (SyntaxError (UnexpectedEndOfTokens pn))
    else Raise IndexError.
Proof. reflexivity. Qed.

(** C9, as the specification words it, fails: on the empty input the
    parse of [r := < "a" > ;] raises the "Unexpected end of tokens" error
    of [match] for the root node of the rule, a SEQUENCE node; none of the
    errors of the at-least-once group is raised. *)
Lemma empty_input_error_is_not_missing_group :
  exists root,
    parse grammar_atl 9 5 [] = Raise (SyntaxError (UnexpectedEndOfTokens root))
    /\ symbol (token root) = SEQUENCE
    /\ parse grammar_atl 9 5 [] <> Raise (SyntaxError (MissingGroup []))
    /\ parse grammar_atl 9 5 [] <> Raise (SyntaxError DidNotFindRequired).
Proof.
  exists (group SEQUENCE "r" [group ATLEASTONCE "r-1" [leaf LITERAL "a"]]).
  repeat split; try reflexivity; discriminate.
Qed.

(** C9, as the code has it.  For [r := < "a" > ;] the empty input raises
    [SyntaxError] "Unexpected end of tokens" in [match], for the root
    SEQUENCE node and before the at-least-once group is tried.  The error
    of the group matching zero times, [SyntaxError] "Missing group", is
    what an input raises whose first token is not [a]. *)
Theorem atl_grammar_errors turns depth :
  parse grammar_atl turns (S depth) []
  = Raise (SyntaxError (UnexpectedEndOfTokens
      (group SEQUENCE "r" [group ATLEASTONCE "r-1" [leaf LITERAL "a"]])))
  /\ forall t rest,
       "a" <> lexeme t ->
       parse grammar_atl turns (S (S (S depth))) (t :: rest)
       = Raise (SyntaxError (MissingGroup (t :: rest))).
Proof.
  split; [reflexivity|].
  intros t rest Hne. unfold parse.
  change (start_rule grammar_atl) with (Some "r"). cbv iota.
  unfold match_rule.
  change (rules_get (rules grammar_atl) "r")
    with (Some (group SEQUENCE "r"
                  [group ATLEASTONCE "r-1" [leaf LITERAL "a"]])).
  cbv iota. change (negb _) with false. cbv iota.
  rewrite match_S. unfold match_body. change (is_terminal _) with false.
  cbv iota. unfold match_nonterminal.
  change (symbol_table grammar_atl !! _)
    with (Some (EBNFNonTerminalSymbol "r")).
  cbv iota.
  change (alternate _) with false. change (repeating _) with false.
  change (optional _) with false. change (oneormore _) with false.
  change (symbol_eq _ SEQUENCE) with true. cbv iota.
  unfold match_sequence. cbn [children group match_sequence_loop].
  rewrite match_S. unfold match_body. change (is_terminal _) with false.
  cbv iota. unfold match_nonterminal.
  change (symbol_table grammar_atl !! _)
    with (Some (EBNFNonTerminalSymbol "r")).
  cbv iota.
  change (alternate _) with false. change (repeating _) with false.
  change (optional _) with false. change (oneormore _) with true.
  cbv iota. unfold match_one_or_more, match_sequence.
  cbn [children group match_sequence_loop].
  rewrite match_literal_miss by exact Hne. reflexivity.
Qed.

(** The witness of [atl_grammar_errors]: the token [b]. *)
Lemma atl_grammar_errors_witness :
  parse grammar_atl 9 3 [lit "b"]
  = Raise (SyntaxError (MissingGroup [lit "b"])).
Proof.
  refine (proj2 (atl_grammar_errors 9 0) (lit "b") [] _). discriminate.
Defined.

(** ** The parser-node builder *)

Lemma symbol_eq_name a b : symbol_eq a b = true -> name a = name b.
Proof. unfold symbol_eq. by intros ?%bool_decide_eq_true. Qed.

Lemma symbol_eq_ext a a' b : name a = name a' -> symbol_eq a b = symbol_eq a' b.
Proof. unfold symbol_eq. by intros ->. Qed.

Lemma symbol_in_ext a a' l : name a = name a' -> symbol_in a l = symbol_in a' l.
Proof.
  intros H. unfold symbol_in. induction l as [|b l IH]; [done|].
  simpl. by rewrite IH, (symbol_eq_ext a a' b H).
Qed.

Lemma groupings_ext a a' : name a = name a' -> groupings a = groupings a'.
Proof. intros H. unfold groupings. by rewrite !(symbol_eq_ext a a' _ H). Qed.

Lemma count_increment gc k : count (increment gc k) k = S (count gc k).
Proof. unfold count, increment. by rewrite lookup_insert_eq. Qed.

Lemma flat_spec t :
  flat t = true ->
  symbol_in (symbol t) openers = false /\ symbol_in (symbol t) closers = false.
Proof.
  unfold flat. intros [H1 H2]%andb_prop.
  by apply negb_true_iff in H1, H2.
Qed.

(** The loop goes over flat tokens one by one, appending them. *)
Lemma loop_flat_prefix X :
  forall fuel gc nm e this rest,
    forallb flat X = true ->
    make_parser_node_loop (length X + fuel) gc nm e this (X ++ rest)
    = make_parser_node_loop fuel gc nm e (absorb this X) rest.
Proof.
  induction X as [|t X IH]; intros fuel gc nm e this rest HX; [done|].
  simpl in HX. apply andb_prop in HX as [Ht HX].
  destruct (flat_spec t Ht) as [Ho Hc].
  change (length (t :: X) + fuel) with (S (length X + fuel)).
  change ((t :: X) ++ rest) with (t :: (X ++ rest)).
  cbn [make_parser_node_loop]. rewrite Ho, Hc.
  destruct (symbol_eq (symbol t) OR) eqn:Hor.
  - rewrite IH by exact HX. simpl. by rewrite Hor.
  - rewrite IH by exact HX. simpl. by rewrite Hor.
Qed.

(** At the closer of a [{ }] or [[ ]] group that a suffix follows, the
    loop raises. *)
Lemma loop_closer_suffix fuel gc nm this o c sfx post closer :
  bracket_pair o c = true ->
  groupings (symbol o) = Some closer ->
  symbol_in (symbol sfx) suffixes = true ->
  make_parser_node_loop (S fuel) gc nm (Some closer) this (c :: sfx :: post)
  = Raise (SyntaxError (IllegalMix nm)).
Proof.
  intros Hpair Hgr Hsfx. unfold bracket_pair in Hpair.
  apply orb_prop in Hpair as [H|H]; apply andb_prop in H as [Ho Hc];
    apply symbol_eq_name in Ho, Hc.
  - rewrite (groupings_ext _ STARTREPEAT Ho) in Hgr.
    injection Hgr as <-.
    cbn [make_parser_node_loop].
    rewrite (symbol_in_ext _ ENDREPEAT openers Hc).
    rewrite (symbol_in_ext _ ENDREPEAT closers Hc).
    rewrite (symbol_in_ext _ ENDREPEAT [ENDREPEAT; ENDOPTION] Hc).
    unfold differs. unfold symbol_eq at 1. rewrite <- Hc.
    rewrite bool_decide_true by done.
    rewrite Hsfx. reflexivity.
  - rewrite (groupings_ext _ STARTOPTION Ho) in Hgr.
    injection Hgr as <-.
    cbn [make_parser_node_loop].
    rewrite (symbol_in_ext _ ENDOPTION openers Hc).
    rewrite (symbol_in_ext _ ENDOPTION closers Hc).
    rewrite (symbol_in_ext _ ENDOPTION [ENDREPEAT; ENDOPTION] Hc).
    unfold differs. unfold symbol_eq at 1. rewrite <- Hc.
    rewrite bool_decide_true by done.
    rewrite Hsfx. reflexivity.
Qed.

Lemma make_parser_node_fuel_S fuel gc nm tokens e :
  tokens <> [] ->
  make_parser_node_fuel (S fuel) gc nm tokens e
  = (do '(gc', this', rest) <-
       make_parser_node_loop fuel gc nm e
         (mkEBNFNode (EBNFToken SEQUENCE nm 0 0) []) tokens ;
     Ok (gc', Some this', rest)).
Proof. by destruct tokens. Qed.

(** A [{ X }] or [[ X ]] group over flat tokens with a suffix behind it:
    the loop that meets the opener gets the error of the group. *)
Lemma loop_bracket_group F gc nm e this o X c sfx post :
  bracket_pair o c = true ->
  forallb flat X = true ->
  symbol_in (symbol sfx) suffixes = true ->
  make_parser_node_loop (S (S (length X + S F))) gc nm e this
    (o :: X ++ c :: sfx :: post)
  = Raise (SyntaxError
      (IllegalMix (group_name (split_dash nm) (S (count gc (split_dash nm)))))).
Proof.
  intros Hpair HX Hsfx.
  assert (Hopen : symbol_in (symbol o) openers = true
                  /\ exists closer, groupings (symbol o) = Some closer).
  { unfold bracket_pair in Hpair.
    apply orb_prop in Hpair as [H|H]; apply andb_prop in H as [Ho _];
      apply symbol_eq_name in Ho.
    - rewrite (symbol_in_ext _ STARTREPEAT _ Ho),
        (groupings_ext _ STARTREPEAT Ho). eauto.
    - rewrite (symbol_in_ext _ STARTOPTION _ Ho),
        (groupings_ext _ STARTOPTION Ho). eauto. }
  destruct Hopen as [Hopen [closer Hgr]].
  cbn [make_parser_node_loop]. rewrite Hopen. unfold subscript at 1.
  rewrite Hgr. cbn [bind].
  rewrite make_parser_node_fuel_S by (by destruct X).
  rewrite loop_flat_prefix by exact HX.
  rewrite (loop_closer_suffix F _ _ _ o c sfx post closer Hpair Hgr Hsfx).
  cbn [bind]. by rewrite count_increment.
Qed.

Lemma init_loop_app st a b :
  init_loop st (a ++ b) = (do st' <- init_loop st a ; init_loop st' b).
Proof.
  revert st. induction a as [|d a IH]; intros st; [done|].
  simpl. destruct (init_step st d); simpl; [apply IH | done | done].
Qed.

(** The bound [make_parser_node] starts from is never reached, and the
    builder hands back no more tokens than it was given. *)
Lemma builder_fuel_enough fuel :
  (forall gc nm tokens e,
      2 * length tokens + 2 <= fuel ->
      match make_parser_node_fuel fuel gc nm tokens e with
      | Ok (_, _, rest) => length rest <= length tokens
      | Raise _ => True
      | OutOfFuel => False
      end)
  /\ (forall gc nm e this tokens,
        2 * length tokens + 1 <= fuel ->
        match make_parser_node_loop fuel gc nm e this tokens with
        | Ok (_, _, rest) => length rest <= length tokens
        | Raise _ => True
        | OutOfFuel => False
        end).
Proof.
  induction fuel as [|fuel [IHnode IHloop]]; [split; intros; lia|].
  split.
  - intros gc nm [|t ts] e Hfuel; [cbn; lia|].
    cbn [make_parser_node_fuel].
    pose proof (IHloop gc nm e (mkEBNFNode (EBNFToken SEQUENCE nm 0 0) [])
                  (t :: ts) ltac:(lia)) as H.
    by destruct (make_parser_node_loop fuel gc nm e _ (t :: ts))
      as [[[g a] r]| |].
  - intros gc nm e this [|first tail] Hfuel; [cbn; lia|].
    cbn [length] in Hfuel. cbn [make_parser_node_loop].
    destruct (symbol_in (symbol first) openers).
    { unfold subscript at 1.
      destruct (groupings (symbol first)) as [closer|]; cbn [bind]; [|done].
      pose proof (IHnode (increment gc (split_dash nm))
                    (group_name (split_dash nm)
                       (count (increment gc (split_dash nm)) (split_dash nm)))
                    tail (Some closer) ltac:(lia)) as H.
      destruct (make_parser_node_fuel fuel _ _ tail _)
        as [[[g child] r]| |]; [|done|done].
      cbn [bind].
      assert (Hnext : forall th,
                 match make_parser_node_loop fuel g nm e th r with
                 | Ok (_, _, rest) => length rest <= length (first :: tail)
                 | Raise _ => True
                 | OutOfFuel => False
                 end).
      { intros th. pose proof (IHloop g nm e th r ltac:(lia)) as H'.
        destruct (make_parser_node_loop fuel g nm e th r)
          as [[[g' a'] r']| |]; [|done|done].
        cbn [length]. lia. }
      destruct child as [c|]; [|apply Hnext].
      unfold subscript.
      destruct (SEQ_MAP (symbol first)); cbn [bind]; [apply Hnext | done]. }
    assert (Htail : forall th,
               match make_parser_node_loop fuel gc nm e th tail with
               | Ok (_, _, rest) => length rest <= length (first :: tail)
               | Raise _ => True
               | OutOfFuel => False
               end).
    { intros th. pose proof (IHloop gc nm e th tail ltac:(lia)) as H'.
      destruct (make_parser_node_loop fuel gc nm e th tail)
        as [[[g' a'] r']| |]; [|done|done].
      cbn [length]. lia. }
    destruct (symbol_in (symbol first) closers).
    { destruct (differs e (symbol first)); [by destruct e|].
      destruct tail as [|second tail']; [cbn; lia|].
      destruct (symbol_in (symbol first) [ENDREPEAT; ENDOPTION]
                && symbol_in (symbol second) suffixes); [done|].
      destruct (symbol_in (symbol second) suffixes).
      - unfold subscript.
        destruct (SUFFIX_MAP (symbol second)); cbn [bind length];
          [lia | done].
      - cbn [length]. lia. }
    destruct (symbol_eq (symbol first) OR); apply Htail.
Qed.

(** [make_parser_node] always returns or raises. *)
Lemma make_parser_node_total gc nm tokens e :
  make_parser_node gc nm tokens e <> OutOfFuel.
Proof.
  unfold make_parser_node.
  pose proof (proj1 (builder_fuel_enough (2 * length tokens + 2))
                gc nm tokens e ltac:(lia)) as H.
  by destruct (make_parser_node_fuel _ gc nm tokens e).
Qed.

Lemma symbol_in_true s l :
  symbol_in s l = true -> exists x, x ∈ l /\ name s = name x.
Proof.
  unfold symbol_in. intros (x & Hx & Heq)%existsb_exists.
  exists x. split; [by apply list_elem_of_In | by apply symbol_eq_name].
Qed.

(** From [symbol_in s l = true] for one of the constant lists: one case
    per symbol of the list, with the name of [s] known. *)
Ltac name_cases H x Hname :=
  apply symbol_in_true in H as (x & H & Hname);
  repeat (apply elem_of_cons in H as [->|H]);
  [.. | by apply elem_of_nil in H].

Lemma init_step_total st d : init_step st d <> OutOfFuel.
Proof.
  unfold init_step.
  destruct (bool_decide (is_Some (st_symbol_table st !! key d))); [done|].
  destruct (islower (key d)).
  - pose proof (make_parser_node_total (st_groupcount st) (key d)
                  (ebnf_tokens d) None) as Htotal.
    destruct (make_parser_node _ _ _ _) as [[[g node] [|? ?]]| |]; by cbn.
  - destruct (isupper (key d)); [|done].
    by destruct (bool_decide (is_Some (symbols (st_tokenizer st) !! key d))).
Qed.

(** ** Suffixes behind a bracket group *)

Lemma emitted_no_suffix s :
  symbol_in s meta_symbols = true -> symbol_in s suffixes = false.
Proof.
  unfold symbol_in at 1. intros (x & Hx & Heq)%existsb_exists.
  apply symbol_eq_name in Heq. rewrite (symbol_in_ext _ _ _ Heq).
  unfold meta_symbols in Hx. cbn [In] in Hx.
  repeat (destruct Hx as [<-|Hx]; [reflexivity|]). done.
Qed.

Lemma emitted_cons t ts :
  emitted (t :: ts) = true ->
  symbol_in (symbol t) suffixes = false /\ emitted ts = true.
Proof.
  cbn [emitted forallb]. intros [Ht Hts]%andb_prop.
  split; [by apply emitted_no_suffix | done].
Qed.

(** Over the tokens of the meta-lexer the builder never raises the error of
    the suffix check, and the tokens it hands back are tokens of the
    meta-lexer. *)
Lemma builder_no_mix fuel :
  (forall gc nm tokens e,
      emitted tokens = true ->
      match make_parser_node_fuel fuel gc nm tokens e with
      | Ok (_, _, rest) => emitted rest = true
      | Raise ex => illegal_mix ex = false
      | OutOfFuel => True
      end)
  /\ (forall gc nm e this tokens,
        emitted tokens = true ->
        match make_parser_node_loop fuel gc nm e this tokens with
        | Ok (_, _, rest) => emitted rest = true
        | Raise ex => illegal_mix ex = false
        | OutOfFuel => True
        end).
Proof.
  induction fuel as [|fuel [IHnode IHloop]]; [by split|].
  split.
  - intros gc nm [|t ts] e Hem; [done|].
    cbn [make_parser_node_fuel].
    specialize (IHloop gc nm e (mkEBNFNode (EBNFToken SEQUENCE nm 0 0) [])
                  (t :: ts) Hem).
    by destruct (make_parser_node_loop fuel gc nm e _ (t :: ts))
      as [[[g' this'] rest']| |].
  - intros gc nm e this [|first tail] Hem; [done|].
    destruct (emitted_cons _ _ Hem) as [Hfirst Htail].
    cbn [make_parser_node_loop].
    destruct (symbol_in (symbol first) openers).
    { unfold subscript.
      destruct (groupings (symbol first)) as [closer|]; cbn [bind]; [|done].
      specialize (IHnode (increment gc (split_dash nm))
                    (group_name (split_dash nm)
                       (count (increment gc (split_dash nm)) (split_dash nm)))
                    tail (Some closer) Htail).
      destruct (make_parser_node_fuel fuel _ _ tail _)
        as [[[g2 child] tokens']| |]; cbn [bind]; [|done|done].
      destruct child as [c|]; [|by apply IHloop].
      destruct (SEQ_MAP (symbol first)) as [kind|]; cbn [bind]; [|done].
      by apply IHloop. }
    destruct (symbol_in (symbol first) closers).
    { destruct (differs e (symbol first)); [by destruct e|].
      destruct tail as [|second tail']; [done|].
      destruct (emitted_cons _ _ Htail) as [Hsecond Htail'].
      rewrite Hsecond, andb_false_r. done. }
    destruct (symbol_eq (symbol first) OR); by apply IHloop.
Qed.

Lemma init_step_no_mix st d :
  emitted (ebnf_tokens d) = true ->
  forall e, init_step st d = Raise e -> illegal_mix e = false.
Proof.
  intros Hem e. unfold init_step.
  destruct (bool_decide (is_Some (st_symbol_table st !! key d)));
    [by intros [= <-]|].
  destruct (islower (key d)).
  - pose proof (proj1 (builder_no_mix (2 * length (ebnf_tokens d) + 2))
                  (st_groupcount st) (key d) (ebnf_tokens d) None Hem)
      as Hnode.
    fold (make_parser_node (st_groupcount st) (key d) (ebnf_tokens d) None)
      in Hnode.
    destruct (make_parser_node _ _ _ _) as [[[g node] [|? ?]]|ex|];
      cbn [bind]; try done.
    + by intros [= <-].
    + by intros [= <-].
  - destruct (isupper (key d)); [|done].
    destruct (bool_decide (is_Some (symbols (st_tokenizer st) !! key d)));
      [by intros [= <-] | done].
Qed.

Lemma init_loop_no_mix data :
  emitted_grammar data = true ->
  forall st e, init_loop st data = Raise e -> illegal_mix e = false.
Proof.
  induction data as [|d data IH]; intros Hem st e; [done|].
  cbn [emitted_grammar forallb] in Hem. apply andb_prop in Hem as [Hd Hdata].
  cbn [init_loop].
  destruct (init_step st d) as [st'|ex|] eqn:Hstep; cbn [bind]; [|  |done].
  - by apply IH.
  - intros [= <-]. by apply (init_step_no_mix st d Hd).
Qed.

(** The suffix check at work: handed a [{ X }] or [[ X ]] group with a
    [REP], [OPT] or [ATL] token behind its closer, [make_parser_node]
    raises the error for the group. *)
Lemma make_parser_node_illegal_mix gc nm e pre o X c sfx post :
  forallb flat pre = true ->
  forallb flat X = true ->
  bracket_pair o c = true ->
  symbol_in (symbol sfx) suffixes = true ->
  make_parser_node gc nm (pre ++ o :: X ++ c :: sfx :: post) e
  = Raise (SyntaxError
      (IllegalMix (group_name (split_dash nm) (S (count gc (split_dash nm)))))).
Proof.
  intros Hpre HX Hpair Hsfx. unfold make_parser_node.
  rewrite !length_app. cbn [length]. rewrite !length_app. cbn [length].
  replace (2 * (length pre + S (length X + S (S (length post)))) + 2)
    with (S (length pre
             + S (S (length X
                     + S (length pre + length X + 2 * length post + 4)))))
    by lia.
  rewrite make_parser_node_fuel_S by (by destruct pre).
  rewrite loop_flat_prefix by exact Hpre.
  by rewrite loop_bracket_group.
Qed.

(** C8, where the code departs from it.  [make_parser_node] has the check:
    handed a [REP], [OPT] or [ATL] token right behind the closer of a
    [{ X }] or [[ X ]] group, it raises [SyntaxError] "Illegal mix of
    brackets and suffixes" for the group.  But [EBNFTokenizer] has no
    lexer for [*], [?] and [+]: whatever the text of a grammar, the
    meta-tokens of its rules carry none of the three symbols, the check is
    never reached, and [EBNFParser(...)] never raises that error. *)
Theorem illegal_mix_unreachable gc data :
  (forall nm e pre o X c sfx post,
      forallb flat pre = true ->
      forallb flat X = true ->
      bracket_pair o c = true ->
      symbol_in (symbol sfx) suffixes = true ->
      make_parser_node gc nm (pre ++ o :: X ++ c :: sfx :: post) e
      = Raise (SyntaxError
          (IllegalMix
             (group_name (split_dash nm) (S (count gc (split_dash nm)))))))
  /\ (emitted_grammar data = true ->
      forall nm,
        EBNFParser_init gc data <> Raise (SyntaxError (IllegalMix nm))).
Proof.
  split.
  - intros nm e pre o X c sfx post. apply make_parser_node_illegal_mix.
  - intros Hem nm. unfold EBNFParser_init.
    pose proof (init_loop_no_mix data Hem (init_start gc)) as Hloop.
    destruct (init_loop (init_start gc) data) as [st|ex|]; cbn [bind].
    + by destruct (st_rules st) as [|[k v] rs].
    + intros [= ->]. by specialize (Hloop _ eq_refl).
    + done.
Qed.

(** The witness of [illegal_mix_unreachable]: the meta-tokens
    [{ "a" } *] handed to [make_parser_node], and the grammar
    [r := { "a" } ;], whose meta-tokens are all that the meta-lexer has a
    lexer for in the text [r := { "a" } * ;] of scenario 5. *)
Lemma illegal_mix_unreachable_witness :
  make_parser_node ∅ "r"
    ([] ++ meta STARTREPEAT "{" :: [meta LITERAL "a"]
        ++ meta ENDREPEAT "}" :: meta REP "*" :: []) None
  = Raise (SyntaxError (IllegalMix "r-1"))
  /\ EBNFParser_init ∅ [rule "r" body_braces]
     <> Raise (SyntaxError (IllegalMix "r-1")).
Proof.
  split.
  - exact (proj1 (illegal_mix_unreachable ∅ [rule "r" body_braces])
             "r" None [] (meta STARTREPEAT "{") [meta LITERAL "a"]
             (meta ENDREPEAT "}") (meta REP "*") []
             eq_refl eq_refl eq_refl eq_refl).
  - exact (proj2 (illegal_mix_unreachable ∅ [rule "r" body_braces])
             eq_refl "r-1").
Defined.

Lemma retag_retag n k k' : retag (retag n k) k' = retag n k'.
Proof. by destruct n. Qed.

Lemma suffix_map_in s kind :
  SUFFIX_MAP s = Some kind -> symbol_in s suffixes = true.
Proof.
  unfold SUFFIX_MAP, symbol_in, suffixes. simpl.
  destruct (symbol_eq s REP), (symbol_eq s OPT), (symbol_eq s ATL); done.
Qed.

(** The tag a suffix puts on the node of a [( X )] group is overwritten:
    after the recursive call returns, the loop that met the opener tags the
    child with [SEQ_MAP[STARTGROUP]], whatever the suffix was. *)
Lemma loop_paren_group_suffix F gc nm e this o X c sfx post kind :
  symbol_eq (symbol o) STARTGROUP = true ->
  symbol_eq (symbol c) ENDGROUP = true ->
  forallb flat X = true ->
  SUFFIX_MAP (symbol sfx) = Some kind ->
  let key := split_dash nm in
  let child :=
    absorb (mkEBNFNode
              (EBNFToken SEQUENCE (group_name key (S (count gc key))) 0 0) [])
      X in
  make_parser_node_loop (S (S (length X + S F))) gc nm e this
    (o :: X ++ c :: sfx :: post)
  = make_parser_node_loop (S (length X + S F)) (increment gc key) nm e
      (add this (retag child SEQUENCE)) post.
Proof.
  intros Ho Hc HX Hkind key child.
  apply symbol_eq_name in Ho, Hc.
  cbn [make_parser_node_loop].
  rewrite (symbol_in_ext _ STARTGROUP _ Ho).
  change (symbol_in STARTGROUP openers) with true. cbv iota.
  unfold subscript at 1. rewrite (groupings_ext _ STARTGROUP Ho).
  change (groupings STARTGROUP) with (Some ENDGROUP). cbn [bind].
  rewrite make_parser_node_fuel_S by (by destruct X).
  rewrite loop_flat_prefix by exact HX.
  cbn [make_parser_node_loop].
  rewrite (symbol_in_ext _ ENDGROUP openers Hc).
  rewrite (symbol_in_ext _ ENDGROUP closers Hc).
  rewrite (symbol_in_ext _ ENDGROUP [ENDREPEAT; ENDOPTION] Hc).
  change (symbol_in ENDGROUP openers) with false.
  change (symbol_in ENDGROUP closers) with true.
  change (symbol_in ENDGROUP [ENDREPEAT; ENDOPTION]) with false.
  cbv iota. unfold differs, symbol_eq at 1. rewrite <- Hc.
  rewrite bool_decide_true by done.
  cbn [negb andb]. rewrite (suffix_map_in _ _ Hkind).
  unfold subscript at 1. rewrite Hkind. cbn [bind].
  unfold subscript.
  assert (HSEQ : SEQ_MAP (symbol o) = Some SEQUENCE).
  { unfold SEQ_MAP. by rewrite (symbol_eq_ext _ STARTGROUP _ Ho). }
  rewrite HSEQ. cbn [bind]. rewrite retag_retag, count_increment.
  reflexivity.
Qed.

(** C1 at the failing input.  The body [( "a" ) *] compiles to a SEQUENCE
    child, the body [{ "a" }] to a REPEATING child: the two forms are not
    equivalent, and the node of the group does not end up REPEATING.  Over
    the tokens [a a] the braces grammar parses both, while the suffix
    grammar consumes one and fails on the other. *)
Theorem suffix_form_differs_from_braces :
  make_parser_node ∅ "r" body_group_star None
  = Ok ({["r" := 1]},
        Some (group SEQUENCE "r" [group SEQUENCE "r-1" [leaf LITERAL "a"]]),
        [])
  /\ make_parser_node ∅ "r" body_braces None
     = Ok ({["r" := 1]},
           Some (group SEQUENCE "r" [group REPEATING "r-1" [leaf LITERAL "a"]]),
           [])
  /\ parse grammar_braces 9 5 [lit "a"; lit "a"]
     = Ok (true,
           Some (mkCSTNode (Tok (mkToken (EBNFNonTerminalSymbol "r") "r" 0 0
                                   false))
                   [ate (lit "a"); ate (lit "a")]),
           [])
  /\ parse grammar_group_star 9 5 [lit "a"; lit "a"]
     = Raise (ValueError (NotAllInputConsumed [lit "a"])).
Proof. repeat split; reflexivity. Qed.

(** ** Compilation does not look at rule names *)

Ltac agree_done :=
  cbn; repeat split; auto; try done; try (by constructor).

Lemma same_symbols_length ts ts' :
  same_symbols ts ts' -> length ts = length ts'.
Proof. apply Forall2_length. Qed.

(** The builder reads the symbols of the meta-tokens and nothing else of
    them: on two token lists with the same symbols it takes the same
    branches, raises the same errors and leaves [groupcount] the same. *)
Lemma builder_reads_symbols fuel :
  (forall gc nm tokens tokens' e,
      same_symbols tokens tokens' ->
      builder_agree (fun a a' => is_Some a <-> is_Some a')
        (make_parser_node_fuel fuel gc nm tokens e)
        (make_parser_node_fuel fuel gc nm tokens' e))
  /\ (forall gc nm e this this' tokens tokens',
        same_symbols tokens tokens' ->
        builder_agree (fun _ _ => True)
          (make_parser_node_loop fuel gc nm e this tokens)
          (make_parser_node_loop fuel gc nm e this' tokens')).
Proof.
  induction fuel as [|fuel [IHnode IHloop]]; [split; intros; exact I|].
  split.
  - intros gc nm tokens tokens' e Hsame.
    destruct Hsame as [|t t' ts ts' Ht Hts]; [agree_done|].
    cbn [make_parser_node_fuel].
    pose proof (IHloop gc nm e (mkEBNFNode (EBNFToken SEQUENCE nm 0 0) [])
                  (mkEBNFNode (EBNFToken SEQUENCE nm 0 0) [])
                  (t :: ts) (t' :: ts') ltac:(by constructor)) as H.
    destruct (make_parser_node_loop fuel gc nm e _ (t :: ts))
      as [[[g a] r]| |];
      destruct (make_parser_node_loop fuel gc nm e _ (t' :: ts'))
      as [[[g' a'] r']| |]; try done.
    destruct H as (-> & _ & Hr). agree_done.
  - intros gc nm e this this' tokens tokens' Hsame.
    destruct Hsame as [|first first' tail tail' Hfirst Htail];
      [agree_done|].
    cbn [make_parser_node_loop]. rewrite <- Hfirst.
    destruct (symbol_in (symbol first) openers).
    { destruct (subscript groupings (symbol first)) as [closer| |];
        cbn [bind]; [|done|done].
      pose proof (IHnode (increment gc (split_dash nm))
                    (group_name (split_dash nm)
                       (count (increment gc (split_dash nm)) (split_dash nm)))
                    tail tail' (Some closer) Htail) as H.
      destruct (make_parser_node_fuel fuel _ _ tail _)
        as [[[g child] r]| |];
        destruct (make_parser_node_fuel fuel _ _ tail' _)
        as [[[g' child'] r']| |]; try done.
      destruct H as (-> & Hchild & Hr). cbn [bind].
      destruct child as [c1|], child' as [c2|].
      - destruct (subscript SEQ_MAP (symbol first)); cbn [bind];
          [by apply IHloop | done | done].
      - destruct Hchild as [Hc _]. by destruct Hc.
      - destruct Hchild as [_ Hc]. by destruct Hc.
      - by apply IHloop. }
    destruct (symbol_in (symbol first) closers).
    { destruct (differs e (symbol first)); [by destruct e|].
      destruct Htail as [|second second' tail tail' Hsecond Htail];
        [agree_done|].
      rewrite <- Hsecond.
      destruct (symbol_in (symbol first) [ENDREPEAT; ENDOPTION]
                && symbol_in (symbol second) suffixes); [done|].
      destruct (symbol_in (symbol second) suffixes).
      - destruct (subscript SUFFIX_MAP (symbol second)); cbn [bind];
          [agree_done | done | done].
      - agree_done. }
    destruct (symbol_eq (symbol first) OR); by apply IHloop.
Qed.

Lemma rules_set_keys rs rs' k v v' :
  map fst rs = map fst rs' ->
  map fst (rules_set rs k v) = map fst (rules_set rs' k v').
Proof.
  revert rs'. induction rs as [|[k1 w1] rs IH]; intros [|[k2 w2] rs'] H;
    try done.
  simpl in H. injection H as <- H. simpl.
  destruct (bool_decide (k1 = k)); simpl; [by rewrite H|].
  by rewrite (IH rs' H).
Qed.

Lemma init_step_agree st st' d d' :
  init_agree st st' -> same_definition d d' ->
  match init_step st d, init_step st' d' with
  | Ok s, Ok s' => init_agree s s'
  | Raise e, Raise e' => e = e'
  | _, _ => False
  end.
Proof.
  intros (Hgc & Htab & Hrules & Htok) (Hkey & Hval & Htoks).
  unfold init_step. rewrite <- Hgc, <- Htab, <- Htok, <- Hkey, <- Hval.
  destruct (bool_decide (is_Some (st_symbol_table st !! key d))); [done|].
  destruct (islower (key d)).
  - pose proof (make_parser_node_total (st_groupcount st) (key d)
                  (ebnf_tokens d) None) as Htotal.
    unfold make_parser_node in *.
    rewrite <- (same_symbols_length _ _ Htoks).
    pose proof (proj1 (builder_reads_symbols
                         (2 * length (ebnf_tokens d) + 2))
                  (st_groupcount st) (key d) _ _ None Htoks) as H.
    destruct (make_parser_node_fuel _ _ _ (ebnf_tokens d) _)
      as [[[g a] r]| |];
      destruct (make_parser_node_fuel _ _ _ (ebnf_tokens d') _)
      as [[[g' a'] r']| |]; try done; cbn [bind].
    destruct H as (-> & _ & Hr).
    destruct Hr; [|done]. repeat split; try done.
    by apply rules_set_keys.
  - destruct (isupper (key d)); [|by repeat split].
    destruct (bool_decide (is_Some (symbols (st_tokenizer st) !! key d)));
      [done|]. by repeat split.
Qed.

Lemma init_loop_agree data data' :
  Forall2 same_definition data data' ->
  forall st st',
    init_agree st st' ->
    match init_loop st data, init_loop st' data' with
    | Ok s, Ok s' => init_agree s s'
    | Raise e, Raise e' => e = e'
    | _, _ => False
    end.
Proof.
  induction 1 as [|d d' data data' Hd _ IH]; intros st st' Hst; [done|].
  cbn [init_loop].
  pose proof (init_step_agree st st' d d' Hst Hd) as H.
  destruct (init_step st d), (init_step st' d'); try done; cbn [bind].
  by apply IH.
Qed.

(** Whether a grammar compiles, and with which error it fails, depends on
    the keys and on the symbols of the meta-tokens only, not on their
    lexemes: a RULE token compiles the same whatever rule it names. *)
Lemma compile_reads_symbols gc data data' :
  Forall2 same_definition data data' ->
  match EBNFParser_init gc data, EBNFParser_init gc data' with
  | Ok (g, p), Ok (g', p') =>
      g = g' /\ start_rule p = start_rule p'
      /\ symbol_table p = symbol_table p'
  | Raise e, Raise e' => e = e'
  | _, _ => False
  end.
Proof.
  intros Hdata. unfold EBNFParser_init.
  pose proof (init_loop_agree data data' Hdata (init_start gc)
                (init_start gc) ltac:(done)) as H.
  destruct (init_loop (init_start gc) data) as [s| |],
    (init_loop (init_start gc) data') as [s'| |]; try done; cbn [bind].
  destruct H as (Hgc & Htab & Hrules & Htok).
  destruct (st_rules s) as [|[k v] rs], (st_rules s') as [|[k' v'] rs'];
    try done.
  simpl in Hrules. injection Hrules as -> _. by repeat split.
Qed.

(** C10.  A grammar that compiles still compiles, whatever rules its RULE
    tokens name: compilation looks at no lexeme, so a reference to a rule
    that is defined nowhere is accepted.  The error comes at parse time:
    when [match] reaches a RULE leaf whose rule is missing from the rule
    table, with a token left, [match_rule] raises [SyntaxError]
    "No rule for" that name. *)
Theorem dangling_rule_raises_at_parse_time gc data gc' p :
  EBNFParser_init gc data = Ok (gc', p) ->
  (forall data',
      Forall2 same_definition data data' ->
      exists p', EBNFParser_init gc data' = Ok (gc', p'))
  /\ (forall pn t tokens i turns depth,
        symbol (token pn) = RULE ->
        rules_get (rules p) (lexeme (token pn)) = None ->
        match_ p turns (S depth) pn (t :: tokens) i
        = Raise (SyntaxError (NoRuleFor (lexeme (token pn))))).
Proof.
  intros Hcompiled. split.
  - intros data' Hdata.
    pose proof (compile_reads_symbols gc data data' Hdata) as H.
    rewrite Hcompiled in H.
    destruct (EBNFParser_init gc data') as [[g' p']| |]; [|done|done].
    destruct H as (-> & _). by exists p'.
  - intros pn t tokens i turns depth Hrule Hmissing.
    rewrite match_S. unfold match_body, match_terminal, match_rule.
    by rewrite Hrule, Hmissing.
Qed.

(** The witness of [dangling_rule_raises_at_parse_time]: the grammar
    [r := s ;] compiles although no rule [s] exists, as does the same
    grammar with another name in the place of [s], and its parse of the
    token [a] raises at the RULE leaf. *)
Lemma dangling_rule_raises_at_parse_time_witness :
  (exists p',
      EBNFParser_init ∅ [rule "r" [meta RULE "nowhere"]] = Ok (∅, p'))
  /\ match_ (compiled (EBNFParser_init ∅ grammar_dangling)) 0 1
       (leaf RULE "s") [lit "a"] 3
     = Raise (SyntaxError (NoRuleFor "s")).
Proof.
  pose proof (dangling_rule_raises_at_parse_time ∅ grammar_dangling
                ∅ (compiled (EBNFParser_init ∅ grammar_dangling))
                eq_refl) as [Hcompile Hparse].
  split.
  - apply Hcompile. repeat constructor.
  - exact (Hparse (leaf RULE "s") (lit "a") [] 3 0 0 eq_refl eq_refl).
Defined.

(** ** Tree collapsing *)

Lemma leaves_node t kids :
  leaves (mkCSTNode t kids)
  = match kids with [] => [t] | _ => flat_map leaves kids end.
Proof. by destruct kids. Qed.

Lemma height_node t kids :
  height (mkCSTNode t kids)
  = S (foldr (fun k h => Nat.max (height k) h) 0 kids).
Proof. reflexivity. Qed.

Lemma height_kids n kids :
  foldr (fun k h => Nat.max (height k) h) 0 kids <= n ->
  Forall (fun k => height k <= n) kids.
Proof.
  induction kids as [|k kids IH]; [by constructor|].
  cbn [foldr]. intros H. constructor; [lia|]. apply IH. lia.
Qed.

(** Taking unary nodes out of a tree leaves its leaves as they are. *)
Lemma unwraps_leaves n :
  forall deep flat,
    height deep <= n -> unwraps deep flat -> leaves deep = leaves flat.
Proof.
  induction n as [|n IH]; intros deep flat Hheight Hunwraps.
  - destruct deep. rewrite height_node in Hheight. lia.
  - destruct Hunwraps as [t kids kids' Hkids | t only flat Honly];
      rewrite height_node in Hheight.
    + apply le_S_n, height_kids in Hheight. rewrite !leaves_node.
      destruct Hkids as [|k k' ks ks' Hk Hks]; [done|].
      assert (Hall : Forall2 unwraps (k :: ks) (k' :: ks')) by by constructor.
      clear Hk Hks. revert Hheight.
      induction Hall as [|a b l l' Hab _ IHl]; [done|].
      intros [Ha Hl]%Forall_cons. cbn [flat_map].
      by rewrite (IH a b Ha Hab), (IHl Hl).
    + cbn [foldr] in Hheight. rewrite leaves_node. cbn [flat_map].
      rewrite app_nil_r. apply IH; [lia | done].
Qed.

Lemma trims_leaves a b : trims a b -> leaves a = leaves b.
Proof.
  intros [Hunwraps _]. symmetry.
  by apply (unwraps_leaves (height b)).
Qed.

Lemma trims_lexemes l l' :
  Forall2 trims l l' ->
  forallb has_lexeme l = true /\ forallb has_lexeme l' = true.
Proof.
  induction 1 as [|a b l l' (_ & Ha & Hb) _ [IH IH']]; [done|].
  simpl. by rewrite Ha, Hb, IH, IH'.
Qed.

Lemma node_sim_unwraps a b : node_sim a b -> unwraps b a.
Proof.
  destruct a as [t kids], b as [t' kids']. intros [Ht Hkids].
  simpl in Ht, Hkids. subst t'. apply unwraps_keep.
  apply Forall2_flip. eapply Forall2_impl; [exact Hkids|].
  by intros x y [Hxy _].
Qed.

(** What collapsing does to the child of a RULE leaf: the node appended by
    the collapsing parse is the child itself or, when the child has one
    child only, that one; the plain parse appends the child. *)
Lemma collapse_choice b c c' :
  node_sim c c' -> has_lexeme c = true ->
  Forall2 trims
    (match b, cst_children c with true, [only] => [only] | _, _ => [c] end)
    [c'].
Proof.
  intros Hsim Hc. pose proof (node_sim_unwraps c c' Hsim) as Hunwraps.
  assert (Hc' : has_lexeme c' = true).
  { unfold has_lexeme in *. by rewrite <- (proj1 Hsim). }
  assert (Hplain : Forall2 trims [c] [c']).
  { constructor; [done | constructor]. }
  destruct b; [|by destruct (cst_children c)].
  destruct c as [t kids], c' as [t' kids']. destruct Hsim as [_ Hkids].
  cbn [cst_children] in *.
  destruct Hkids as [|k k' ks ks' Hk Hks]; [exact Hplain|].
  destruct Hks as [|k2 k2' ks ks' Hk2 Hks]; [|exact Hplain].
  destruct Hk as (Hk & Hlk & Hlk').
  constructor; [|constructor]. split; [|done]. by apply unwraps_drop.
Qed.

Tactic Notation "sim_cases" hyp(H)
    "as" simple_intropattern(p1) simple_intropattern(p2) :=
  match type of H with
  | result_sim _ ?r1 ?r2 =>
      destruct r1 as [p1| |], r2 as [p2| |]; try done; cbn [bind]
  end.

Ltac sim_done :=
  cbn; repeat split; auto; try done; try (by repeat constructor).

Section Collapse.

(** Two parser objects with the same tables, whatever their
    [collapse_tree], and two versions of [match] below them that return
    results equal up to the shape of the trees. *)
Variables self1 self2 : EBNFParser.
Hypothesis same_table : symbol_table self1 = symbol_table self2.
Hypothesis same_rules : rules self1 = rules self2.
Hypothesis rule_roots : roots_ok (rules self2).
Hypothesis collapse_off : collapse_tree self2 = false.
Variables m1 m2 : EBNFNode -> list Token -> nat -> result outcome.
Hypothesis m_sim :
  forall pn tokens i,
    result_sim (outcome_sim_for pn) (m1 pn tokens i) (m2 pn tokens i).

Lemma sim_sequence_loop i orig expected :
  forall ok f1 f2 tokens,
    Forall2 trims f1 f2 ->
    result_sim found_sim
      (match_sequence_loop m1 i orig expected ok f1 tokens)
      (match_sequence_loop m2 i orig expected ok f2 tokens).
Proof.
  induction expected as [|this expected IH]; intros ok f1 f2 tokens Hf.
  - destruct ok; sim_done.
  - cbn [match_sequence_loop].
    destruct tokens as [|t tokens]; [destruct (oneormore this); sim_done|].
    pose proof (m_sim this (t :: tokens) (S i)) as H.
    sim_cases H as [[ok1 n1] t1] [[ok2 n2] t2].
    destruct H as [(Hok & Hn & Ht) _]. simpl in Hok, Hn, Ht. subst.
    destruct Hn as [n1 n2 [_ Hkids]|]; [|sim_done].
    unfold token_lexemes.
    destruct (trims_lexemes _ _ Hkids) as [-> ->]. cbn [bind].
    apply IH. by apply Forall2_app.
Qed.

Lemma sim_sequence nm originals tokens i :
  result_sim found_sim (match_sequence m1 nm originals tokens i)
    (match_sequence m2 nm originals tokens i).
Proof. by apply sim_sequence_loop. Qed.

Lemma sim_optional pn tokens i :
  result_sim outcome_sim (match_optional m1 pn tokens i)
    (match_optional m2 pn tokens i).
Proof.
  unfold match_optional.
  pose proof (sim_sequence (lexeme (token pn)) (children pn) tokens (S i))
    as H.
  sim_cases H as [[ok1 k1] t1] [[ok2 k2] t2].
  destruct H as (Hok & Hk & Ht). simpl in Hok, Hk, Ht. subst.
  destruct ok2; sim_done.
Qed.

Lemma sim_one_or_more_loop n nm expected i :
  forall acc1 acc2 ok k1 k2 tokens,
    Forall2 trims acc1 acc2 -> Forall2 trims k1 k2 ->
    result_sim (fun a b => Forall2 trims a.1 b.1 /\ a.2 = b.2)
      (match_one_or_more_loop m1 n nm expected i acc1 ok k1 tokens)
      (match_one_or_more_loop m2 n nm expected i acc2 ok k2 tokens).
Proof.
  induction n as [|n IH]; intros acc1 acc2 ok k1 k2 tokens Hacc Hk;
    destruct ok; try done.
  cbn [match_one_or_more_loop].
  pose proof (sim_sequence nm expected tokens (S i)) as H.
  sim_cases H as [[ok1 f1] t1] [[ok2 f2] t2].
  destruct H as (Hok & Hf & Ht). simpl in Hok, Hf, Ht. subst.
  apply IH; [by apply Forall2_app | done].
Qed.

Lemma sim_one_or_more n pn tokens i :
  result_sim outcome_sim (match_one_or_more m1 n pn tokens i)
    (match_one_or_more m2 n pn tokens i).
Proof.
  unfold match_one_or_more.
  pose proof (sim_sequence (lexeme (token pn)) (children pn) tokens (S i))
    as H.
  sim_cases H as [[ok1 k1] t1] [[ok2 k2] t2].
  destruct H as (Hok & Hk & Ht). simpl in Hok, Hk, Ht. subst.
  destruct ok2; [|done]. cbn [negb].
  pose proof (sim_one_or_more_loop n (lexeme (token pn)) (children pn) i
                [] [] true k1 k2 t2 ltac:(constructor) Hk) as H.
  sim_cases H as [a1 r1] [a2 r2]. destruct H as [Ha Hr].
  simpl in Ha, Hr. subst.
  destruct Ha; [sim_done|]. repeat split; try done.
  constructor. split; [done|]. by constructor.
Qed.

Lemma sim_repeating_loop n nm expected i :
  forall acc1 acc2 tokens,
    Forall2 trims acc1 acc2 ->
    result_sim (fun a b => Forall2 trims a.1 b.1 /\ a.2 = b.2)
      (match_repeating_loop m1 n nm expected i acc1 tokens)
      (match_repeating_loop m2 n nm expected i acc2 tokens).
Proof.
  induction n as [|n IH]; intros acc1 acc2 tokens Hacc; [done|].
  cbn [match_repeating_loop].
  pose proof (sim_sequence nm expected tokens (S i)) as H.
  sim_cases H as [[ok1 f1] t1] [[ok2 f2] t2].
  destruct H as (Hok & Hf & Ht). simpl in Hok, Hf, Ht. subst.
  destruct ok2; [|done]. apply IH. by apply Forall2_app.
Qed.

Lemma sim_repeating n pn tokens i :
  result_sim outcome_sim (match_repeating m1 n pn tokens i)
    (match_repeating m2 n pn tokens i).
Proof.
  unfold match_repeating.
  pose proof (sim_repeating_loop n (lexeme (token pn)) (children pn) i
                [] [] tokens ltac:(constructor)) as H.
  sim_cases H as [a1 r1] [a2 r2]. destruct H as [Ha Hr].
  simpl in Ha, Hr. subst.
  destruct Ha; [sim_done|]. repeat split; try done.
  constructor. split; [done|]. by constructor.
Qed.

Lemma sim_alternate_loop nm i tokens alternates :
  result_sim
    (option_Forall2 (fun a b => Forall2 trims a.1 b.1 /\ a.2 = b.2))
    (match_alternate_loop m1 nm i tokens alternates)
    (match_alternate_loop m2 nm i tokens alternates).
Proof.
  induction alternates as [|alt alternates IH]; [by constructor|].
  cbn [match_alternate_loop].
  pose proof (sim_sequence nm alt tokens (S i)) as H.
  destruct (match_sequence m1 nm alt tokens (S i)) as [[[ok1 f1] t1]|e1|],
    (match_sequence m2 nm alt tokens (S i)) as [[[ok2 f2] t2]|e2|];
    try done.
  - destruct H as (Hok & Hf & Ht). simpl in Hok, Hf, Ht. subst.
    destruct ok2; [|done]. by repeat constructor.
  - simpl in H. subst. by destruct e2.
Qed.

Lemma sim_alternate pn tokens i :
  result_sim outcome_sim (match_alternate m1 pn tokens i)
    (match_alternate m2 pn tokens i).
Proof.
  unfold match_alternate. destruct tokens as [|t tokens]; [sim_done|].
  pose proof (sim_alternate_loop (lexeme (token pn)) i (t :: tokens)
                (split_by_or (children pn))) as H.
  sim_cases H as o1 o2.
  destruct H as [[f1 r1] [f2 r2] [Hf Hr]|]; [|sim_done].
  simpl in Hf, Hr. subst. repeat split; try done.
  constructor. by split.
Qed.

Lemma sim_finish node_token k1 k2 c1 c2 tokens :
  Forall2 trims k1 k2 -> option_Forall2 node_sim c1 c2 ->
  outcome_sim_tok (finish_nonterminal node_token k1 c1 tokens)
    (finish_nonterminal node_token k2 c2 tokens).
Proof.
  intros Hk Hc. unfold finish_nonterminal.
  assert (Hkids : Forall2 trims
            match c1 with Some c => k1 ++ cst_children c | None => k1 end
            match c2 with Some c => k2 ++ cst_children c | None => k2 end).
  { destruct Hc as [a b [_ Hab]|]; [by apply Forall2_app | done]. }
  destruct Hkids; [sim_done|].
  repeat split; try done. constructor. split; [done|]. by constructor.
Qed.

Lemma sim_nonterminal n pn tokens i :
  result_sim outcome_sim_tok (match_nonterminal self1 m1 n pn tokens i)
    (match_nonterminal self2 m2 n pn tokens i).
Proof.
  unfold match_nonterminal. rewrite same_table.
  destruct (symbol_table self2 !! _) as [sym|]; [|done].
  destruct tokens as [|t tokens]; [sim_done|].
  destruct (alternate pn).
  { pose proof (sim_alternate pn (t :: tokens) (S i)) as H.
    sim_cases H as [[ok1 c1] r1] [[ok2 c2] r2].
    destruct H as (Hok & Hc & Hr). simpl in Hok, Hc, Hr. subst.
    by apply sim_finish. }
  destruct (repeating pn).
  { pose proof (sim_repeating n pn (t :: tokens) (S i)) as H.
    sim_cases H as [[ok1 c1] r1] [[ok2 c2] r2].
    destruct H as (Hok & Hc & Hr). simpl in Hok, Hc, Hr. subst.
    by apply sim_finish. }
  destruct (optional pn).
  { pose proof (sim_optional pn (t :: tokens) (S i)) as H.
    sim_cases H as [[ok1 c1] r1] [[ok2 c2] r2].
    destruct H as (Hok & Hc & Hr). simpl in Hok, Hc, Hr. subst.
    by apply sim_finish. }
  destruct (oneormore pn).
  { pose proof (sim_one_or_more n pn (t :: tokens) (S i)) as H.
    sim_cases H as [[ok1 c1] r1] [[ok2 c2] r2].
    destruct H as (Hok & Hc & Hr). simpl in Hok, Hc, Hr. subst.
    destruct ok2; [|done]. by apply sim_finish. }
  destruct (symbol_eq (symbol (token pn)) SEQUENCE); [|done].
  pose proof (sim_sequence (lexeme (token pn)) (children pn) (t :: tokens)
                (S i)) as H.
  sim_cases H as [[ok1 f1] r1] [[ok2 f2] r2].
  destruct H as (Hok & Hf & Hr). simpl in Hok, Hf, Hr. subst.
  apply sim_finish; [done | constructor].
Qed.

Lemma sim_rule rule tokens i :
  result_sim outcome_sim_tok (match_rule self1 m1 rule tokens i)
    (match_rule self2 m2 rule tokens i).
Proof.
  unfold match_rule. rewrite same_rules.
  destruct (rules_get (rules self2) rule) as [pn|] eqn:Hget; [|done].
  destruct (negb (ebnf (token pn))); [done|].
  pose proof (m_sim pn tokens (S i)) as H.
  sim_cases H as [[ok1 c1] r1] [[ok2 c2] r2].
  destruct H as [(Hok & Hc & Hr) Htok]. simpl in Hok, Hc, Hr. subst.
  specialize (Htok (rule_roots rule pn Hget)).
  destruct i, r2; sim_done.
Qed.

Lemma sim_terminal pn tokens i :
  result_sim outcome_sim (match_terminal self1 m1 pn tokens i)
    (match_terminal self2 m2 pn tokens i).
Proof.
  unfold match_terminal. destruct tokens as [|first tail]; [sim_done|].
  destruct (symbol_eq (symbol (token pn)) RULE).
  { pose proof (sim_rule (lexeme (token pn)) (first :: tail) (S i)) as H.
    sim_cases H as [[ok1 c1] r1] [[ok2 c2] r2].
    destruct H as [(Hok & Hc & Hr) Htok]. simpl in Hok, Hc, Hr, Htok. subst.
    rewrite collapse_off.
    repeat split; try done. constructor. split; [done|]. simpl.
    destruct Hc as [c1 c2 Hc|]; [|constructor].
    by apply collapse_choice. }
  destruct (symbol_eq (symbol (token pn)) LITERAL).
  { destruct (bool_decide (lexeme (token pn) = lexeme first)); sim_done. }
  destruct (bool_decide (lexeme (token pn) = name (symbol first))); sim_done.
Qed.

Lemma sim_body n pn tokens i :
  result_sim (outcome_sim_for pn) (match_body self1 m1 n pn tokens i)
    (match_body self2 m2 n pn tokens i).
Proof.
  unfold match_body. destruct tokens as [|t tokens].
  - by destruct (negb (optional pn || repeating pn)).
  - destruct (is_terminal (symbol (token pn))) eqn:Hterm.
    + pose proof (sim_terminal pn (t :: tokens) i) as H.
      sim_cases H as o1 o2. split; [exact H | congruence].
    + pose proof (sim_nonterminal n pn (t :: tokens) i) as H.
      sim_cases H as o1 o2. destruct H as [H Htok]. by split.
Qed.

End Collapse.

Lemma sim_match self b turns depth :
  roots_ok (rules self) ->
  forall pn tokens i,
    result_sim (outcome_sim_for pn)
      (match_ (set_collapse b self) turns depth pn tokens i)
      (match_ (set_collapse false self) turns depth pn tokens i).
Proof.
  intros Hroots.
  induction depth as [|depth IH]; intros pn tokens i; [done|].
  rewrite !match_S. by apply sim_body.
Qed.

(** The root node of a rule is a non-terminal node: [make_parser_node]
    starts it as SEQUENCE and only ever tags it ALTERNATING or with the
    kind of a suffix. *)
Lemma suffix_map_nonterminal s kind :
  SUFFIX_MAP s = Some kind -> is_terminal kind = false.
Proof.
  unfold SUFFIX_MAP.
  destruct (symbol_eq s REP); [by intros [= <-]|].
  destruct (symbol_eq s OPT); [by intros [= <-]|].
  destruct (symbol_eq s ATL); [by intros [= <-]|done].
Qed.

Lemma loop_root_nonterminal fuel :
  forall gc nm e this tokens g this' rest,
    make_parser_node_loop fuel gc nm e this tokens = Ok (g, this', rest) ->
    is_terminal (symbol (token this)) = false ->
    is_terminal (symbol (token this')) = false.
Proof.
  induction fuel as [|fuel IH]; intros gc nm e this tokens g this' rest;
    [done|].
  destruct tokens as [|first tail]; [by intros [= _ <- _]|].
  cbn [make_parser_node_loop].
  destruct (symbol_in (symbol first) openers).
  { unfold subscript.
    destruct (groupings (symbol first)) as [closer|]; cbn [bind]; [|done].
    destruct (make_parser_node_fuel fuel _ _ tail _)
      as [[[g2 child] tokens']| |]; cbn [bind]; [|done|done].
    destruct child as [c|]; [|apply IH].
    destruct (SEQ_MAP (symbol first)); cbn [bind]; [|done].
    intros Hloop Hthis. by eapply IH. }
  destruct (symbol_in (symbol first) closers).
  { destruct (differs e (symbol first)); [by destruct e|].
    destruct tail as [|second tail']; [by intros [= _ <- _]|].
    destruct (symbol_in (symbol first) [ENDREPEAT; ENDOPTION]
              && symbol_in (symbol second) suffixes); [done|].
    destruct (symbol_in (symbol second) suffixes);
      [|by intros [= _ <- _]].
    unfold subscript.
    destruct (SUFFIX_MAP (symbol second)) as [kind|] eqn:Hkind;
      cbn [bind]; [|done].
    intros [= _ <- _] _. by apply suffix_map_nonterminal in Hkind. }
  destruct (symbol_eq (symbol first) OR).
  - intros Hloop _. by eapply IH.
  - intros Hloop Hthis. by eapply IH.
Qed.

Lemma make_parser_node_root gc nm tokens e g root rest :
  make_parser_node gc nm tokens e = Ok (g, Some root, rest) ->
  is_terminal (symbol (token root)) = false.
Proof.
  unfold make_parser_node.
  replace (2 * length tokens + 2) with (S (2 * length tokens + 1)) by lia.
  destruct tokens as [|t tokens]; [done|].
  cbn [make_parser_node_fuel].
  destruct (make_parser_node_loop _ gc nm e _ (t :: tokens))
    as [[[g' this'] rest']| |] eqn:Hloop; cbn [bind]; [|done|done].
  intros [= _ <- _]. by eapply loop_root_nonterminal.
Qed.

Lemma rules_get_set rs k v k' :
  rules_get (rules_set rs k v) k'
  = if bool_decide (k = k') then v else rules_get rs k'.
Proof.
  induction rs as [|[k1 w1] rs IH]; [done|].
  cbn [rules_set]. destruct (bool_decide (k1 = k)) eqn:H1; cbn [rules_get].
  - apply bool_decide_eq_true in H1. subst k1.
    by destruct (bool_decide (k = k')).
  - rewrite IH. apply bool_decide_eq_false in H1.
    destruct (bool_decide (k1 = k')) eqn:H2; [|done].
    apply bool_decide_eq_true in H2. subst k'.
    by rewrite bool_decide_false by congruence.
Qed.

Lemma init_loop_roots data :
  forall st st',
    init_loop st data = Ok st' ->
    roots_ok (st_rules st) -> roots_ok (st_rules st').
Proof.
  induction data as [|d data IH]; intros st st'; [by intros [= <-]|].
  cbn [init_loop].
  destruct (init_step st d) as [st1| |] eqn:Hstep; cbn [bind]; [|done|done].
  intros Hloop Hroots. apply (IH st1 st' Hloop).
  unfold init_step in Hstep.
  destruct (bool_decide (is_Some (st_symbol_table st !! key d))); [done|].
  destruct (islower (key d)).
  - destruct (make_parser_node (st_groupcount st) (key d) (ebnf_tokens d)
                None) as [[[g root] remaining]| |] eqn:Hnode;
      cbn [bind] in Hstep; [|done|done].
    destruct remaining; [|done]. injection Hstep as <-.
    intros rule pn. cbn [st_rules]. rewrite rules_get_set.
    destruct (bool_decide (key d = rule)); [|apply Hroots].
    intros ->. by eapply make_parser_node_root.
  - destruct (isupper (key d)); [|by injection Hstep as <-].
    destruct (bool_decide (is_Some (symbols (st_tokenizer st) !! key d)));
      [done|]. by injection Hstep as <-.
Qed.

Lemma compiled_roots gc data gc' p :
  EBNFParser_init gc data = Ok (gc', p) -> roots_ok (rules p).
Proof.
  unfold EBNFParser_init.
  destruct (init_loop (init_start gc) data) as [st| |] eqn:Hloop;
    cbn [bind]; [|done|done].
  destruct (st_rules st) as [|[k v] rs] eqn:Hrules; [done|].
  intros [= _ <-]. cbn [rules]. rewrite <- Hrules.
  by apply (init_loop_roots data (init_start gc) st Hloop).
Qed.

(** The children [match_sequence] returns all hold a token, so the later
    reads of their lexemes for the trace cannot raise. *)
Lemma match_sequence_found_lexemes match_rec i orig expected :
  forall ok found tokens ok' found' tokens',
    match_sequence_loop match_rec i orig expected ok found tokens
    = Ok (ok', found', tokens') ->
    forallb has_lexeme found = true ->
    forallb has_lexeme found' = true.
Proof.
  induction expected as [|this expected IH];
    intros ok found tokens ok' found' tokens'.
  - destruct ok; [|done]. by intros [= _ <- _].
  - cbn [match_sequence_loop]. destruct tokens as [|t tokens].
    { destruct (oneormore this); [done|]. by intros [= _ <- _]. }
    destruct (match_rec this (t :: tokens) (S i)) as [[[ok1 [n|]] t1]| |];
      cbn [bind]; [| by intros [= _ <- _] | done | done].
    unfold token_lexemes.
    destruct (forallb has_lexeme (cst_children n)) eqn:Hn; cbn [bind];
      [|done].
    intros Hloop Hfound. apply (IH _ _ _ _ _ _ Hloop).
    by rewrite forallb_app, Hfound, Hn.
Qed.

(** C7, as the code has it.  For a grammar that compiles, a parse with
    tree collapsing enabled and the same parse with it disabled end the
    same way: both raise the same error, or both return the same [ok] and
    the same remaining tokens, and the CST of the collapsing parse is the
    CST of the plain parse with some nodes that have exactly one child
    taken out, with or without siblings beside them, so that the two have
    the same leaf tokens in the same order. *)
Theorem collapse_preserves_leaves gc data gc' self turns depth tokens :
  EBNFParser_init gc data = Ok (gc', self) ->
  match parse (set_collapse true self) turns depth tokens,
        parse (set_collapse false self) turns depth tokens with
  | Ok (ok, node, rest), Ok (ok', node', rest') =>
      ok = ok' /\ rest = rest'
      /\ match node, node' with
         | Some n, Some n' => unwraps n' n /\ leaves n = leaves n'
         | None, None => True
         | _, _ => False
         end
  | Raise e, Raise e' => e = e'
  | OutOfFuel, OutOfFuel => True
  | _, _ => False
  end.
Proof.
  intros Hroots%compiled_roots.
  unfold parse. cbn [start_rule set_collapse].
  destruct (start_rule self) as [[|c start]|]; [done| |done].
  pose proof (sim_rule (set_collapse true self) (set_collapse false self)
                eq_refl Hroots _ _
                (sim_match self true turns depth Hroots)
                (String c start) tokens 0) as H.
  destruct (match_rule (set_collapse true self) _ _ tokens 0)
    as [[[ok1 n1] r1]| |],
    (match_rule (set_collapse false self) _ _ tokens 0)
    as [[[ok2 n2] r2]| |]; try done.
  destruct H as [(Hok & Hn & Hr) Htok]. simpl in Hok, Hn, Hr, Htok.
  repeat split; try done.
  destruct Hn as [a b Hab|]; [|done].
  pose proof (node_sim_unwraps a b Hab) as Hunwraps.
  split; [exact Hunwraps|]. symmetry.
  by apply (unwraps_leaves (height b)).
Qed.

(** The witness of [collapse_preserves_leaves], where collapsing does
    change the tree: in [e := t "y" ; t := f ; f := "x" ;] over the tokens
    [x y] the enabled parse hangs the token [x] directly under [e], the
    disabled parse keeps the nodes [t] and [f] above it. *)
Lemma collapse_preserves_leaves_witness :
  let tok_of k := Tok (mkToken (EBNFNonTerminalSymbol k) k 0 0 false) in
  let flat_tree := mkCSTNode (tok_of "e") [ate (lit "x"); ate (lit "y")] in
  let deep_tree :=
    mkCSTNode (tok_of "e")
      [mkCSTNode (tok_of "t") [mkCSTNode (tok_of "f") [ate (lit "x")]];
       ate (lit "y")] in
  parse (set_collapse true grammar_chain) 9 9 [lit "x"; lit "y"]
  = Ok (true, Some flat_tree, [])
  /\ parse (set_collapse false grammar_chain) 9 9 [lit "x"; lit "y"]
     = Ok (true, Some deep_tree, [])
  /\ unwraps deep_tree flat_tree
  /\ leaves flat_tree = leaves deep_tree.
Proof.
  intros tok_of flat_tree deep_tree.
  pose proof (collapse_preserves_leaves ∅ grammar_chain_text ∅ grammar_chain
                9 9 [lit "x"; lit "y"] eq_refl) as H.
  change (parse (set_collapse true grammar_chain) 9 9 [lit "x"; lit "y"])
    with (@Ok outcome (true, Some flat_tree, [])) in H.
  change (parse (set_collapse false grammar_chain) 9 9 [lit "x"; lit "y"])
    with (@Ok outcome (true, Some deep_tree, [])) in H.
  destruct H as (_ & _ & H).
  split; [reflexivity|]. split; [reflexivity|]. exact H.
Defined.

(** C7, as the specification words it, fails: in
    [e := t "y" ; t := f ; f := "x" ;] over the tokens [x y] the node of
    [t] hangs under [e] beside the leaf [y], and the collapsing parse
    takes it out all the same. *)
Lemma collapse_removes_node_with_sibling :
  let tok_of k := Tok (mkToken (EBNFNonTerminalSymbol k) k 0 0 false) in
  let flat_tree := mkCSTNode (tok_of "e") [ate (lit "x"); ate (lit "y")] in
  let deep_tree :=
    mkCSTNode (tok_of "e")
      [mkCSTNode (tok_of "t") [mkCSTNode (tok_of "f") [ate (lit "x")]];
       ate (lit "y")] in
  parse (set_collapse true grammar_chain) 9 9 [lit "x"; lit "y"]
  = Ok (true, Some flat_tree, [])
  /\ parse (set_collapse false grammar_chain) 9 9 [lit "x"; lit "y"]
     = Ok (true, Some deep_tree, [])
  /\ ~ unwraps_alone true deep_tree flat_tree.
Proof.
  intros tok_of flat_tree deep_tree.
  split; [reflexivity|]. split; [reflexivity|].
  intros H. inversion H as [lone t kids kids' Hkids|]; subst.
  apply Forall2_cons_1 in Hkids as [Hfirst _].
  inversion Hfirst.
Qed.

(** ** The bounds are only bounds *)

Lemma below_refl {A} (r : result A) : below r r.
Proof. by right; right. Qed.

Lemma below_bind {A B} (r r' : result A) (k k' : A -> result B) :
  below r r' -> (forall a, below (k a) (k' a)) ->
  below (bind r k) (bind r' k').
Proof.
  intros [-> | [-> | ->]] Hk; [by left | by right; left |].
  destruct r'; [apply Hk | apply below_refl..].
Qed.

Ltac below_done := solve [apply below_refl | by left | by right; left].

Section Monotone.

(** A match with more turns and a higher recursion limit returns what the
    match with less returned, if that one was not cut short. *)
Variable self : EBNFParser.
Variables m m' : EBNFNode -> list Token -> nat -> result outcome.
Hypothesis m_below : forall pn tokens i, below (m pn tokens i) (m' pn tokens i).

Lemma mono_sequence_loop i orig expected :
  forall ok found tokens,
    below (match_sequence_loop m i orig expected ok found tokens)
      (match_sequence_loop m' i orig expected ok found tokens).
Proof.
  induction expected as [|this expected IH]; intros ok found tokens;
    [below_done|].
  cbn [match_sequence_loop]. destruct tokens as [|t tokens]; [below_done|].
  apply below_bind; [apply m_below|].
  intros [[ok' [n|]] tokens']; [|below_done].
  apply below_bind; [below_done|]. intros _. apply IH.
Qed.

Lemma mono_sequence nm originals tokens i :
  below (match_sequence m nm originals tokens i)
    (match_sequence m' nm originals tokens i).
Proof. apply mono_sequence_loop. Qed.

Lemma mono_optional pn tokens i :
  below (match_optional m pn tokens i) (match_optional m' pn tokens i).
Proof.
  unfold match_optional. apply below_bind; [apply mono_sequence|].
  intros [[[] kids] tokens']; below_done.
Qed.

Lemma mono_one_or_more_loop n n' nm expected i :
  n <= n' ->
  forall acc ok kids tokens,
    below (match_one_or_more_loop m n nm expected i acc ok kids tokens)
      (match_one_or_more_loop m' n' nm expected i acc ok kids tokens).
Proof.
  revert n'. induction n as [|n IH]; intros n' Hle acc ok kids tokens.
  - destruct ok; [below_done|]. destruct n'; below_done.
  - destruct n' as [|n']; [lia|]. cbn [match_one_or_more_loop].
    destruct ok; [|below_done].
    apply below_bind; [apply mono_sequence|].
    intros [[ok' kids'] tokens']. apply IH. lia.
Qed.

Lemma mono_one_or_more n n' pn tokens i :
  n <= n' ->
  below (match_one_or_more m n pn tokens i)
    (match_one_or_more m' n' pn tokens i).
Proof.
  intros Hle. unfold match_one_or_more.
  apply below_bind; [apply mono_sequence|].
  intros [[ok kids] tokens1]. destruct (negb ok); [below_done|].
  apply below_bind; [by apply mono_one_or_more_loop|].
  intros [[|? ?] ?]; below_done.
Qed.

Lemma mono_repeating_loop n n' nm expected i :
  n <= n' ->
  forall acc tokens,
    below (match_repeating_loop m n nm expected i acc tokens)
      (match_repeating_loop m' n' nm expected i acc tokens).
Proof.
  revert n'. induction n as [|n IH]; intros n' Hle acc tokens; [below_done|].
  destruct n' as [|n']; [lia|]. cbn [match_repeating_loop].
  apply below_bind; [apply mono_sequence|].
  intros [[[] addends] tokens']; [|below_done]. apply IH. lia.
Qed.

Lemma mono_repeating n n' pn tokens i :
  n <= n' ->
  below (match_repeating m n pn tokens i) (match_repeating m' n' pn tokens i).
Proof.
  intros Hle. unfold match_repeating.
  apply below_bind; [by apply mono_repeating_loop|].
  intros [[|? ?] ?]; below_done.
Qed.

Lemma mono_alternate_loop nm i tokens alternates :
  below (match_alternate_loop m nm i tokens alternates)
    (match_alternate_loop m' nm i tokens alternates).
Proof.
  induction alternates as [|alt alternates IH]; [below_done|].
  cbn [match_alternate_loop].
  destruct (mono_sequence nm alt tokens (S i)) as [-> | [-> | ->]];
    [below_done | below_done |].
  destruct (match_sequence m' nm alt tokens (S i)) as [[[[] ?] ?]|[]|];
    first [below_done | apply IH].
Qed.

Lemma mono_alternate pn tokens i :
  below (match_alternate m pn tokens i) (match_alternate m' pn tokens i).
Proof.
  unfold match_alternate. destruct tokens as [|t tokens]; [below_done|].
  apply below_bind; [apply mono_alternate_loop|].
  intros [[? ?]|]; below_done.
Qed.

Lemma mono_nonterminal n n' pn tokens i :
  n <= n' ->
  below (match_nonterminal self m n pn tokens i)
    (match_nonterminal self m' n' pn tokens i).
Proof.
  intros Hle. unfold match_nonterminal.
  destruct (symbol_table self !! _) as [sym|]; [|below_done].
  destruct tokens as [|t tokens]; [below_done|].
  destruct (alternate pn).
  { apply below_bind; [apply mono_alternate|].
    intros [[? ?] ?]; below_done. }
  destruct (repeating pn).
  { apply below_bind; [by apply mono_repeating|].
    intros [[? ?] ?]; below_done. }
  destruct (optional pn).
  { apply below_bind; [apply mono_optional|].
    intros [[? ?] ?]; below_done. }
  destruct (oneormore pn).
  { apply below_bind; [by apply mono_one_or_more|].
    intros [[? ?] ?]; below_done. }
  destruct (symbol_eq (symbol (token pn)) SEQUENCE); [|below_done].
  apply below_bind; [apply mono_sequence|]. intros [[? ?] ?]; below_done.
Qed.

Lemma mono_rule rule tokens i :
  below (match_rule self m rule tokens i) (match_rule self m' rule tokens i).
Proof.
  unfold match_rule.
  destruct (rules_get (rules self) rule) as [pn|]; [|below_done].
  destruct (negb (ebnf (token pn))); [below_done|].
  apply below_bind; [apply m_below|]. intros [[? ?] ?]; below_done.
Qed.

Lemma mono_terminal pn tokens i :
  below (match_terminal self m pn tokens i)
    (match_terminal self m' pn tokens i).
Proof.
  unfold match_terminal. destruct tokens as [|first tail]; [below_done|].
  destruct (symbol_eq (symbol (token pn)) RULE); [|below_done].
  apply below_bind; [apply mono_rule|]. intros [[? ?] ?]; below_done.
Qed.

Lemma mono_body n n' pn tokens i :
  n <= n' ->
  below (match_body self m n pn tokens i) (match_body self m' n' pn tokens i).
Proof.
  intros Hle. unfold match_body. destruct tokens as [|t tokens];
    [below_done|].
  destruct (is_terminal (symbol (token pn)));
    [apply mono_terminal | by apply mono_nonterminal].
Qed.

End Monotone.

Lemma match_mono self turns turns' depth :
  turns <= turns' ->
  forall depth' pn tokens i,
    depth <= depth' ->
    below (match_ self turns depth pn tokens i)
      (match_ self turns' depth' pn tokens i).
Proof.
  intros Hturns.
  induction depth as [|depth IH]; intros depth' pn tokens i Hle;
    [below_done|].
  destruct depth' as [|depth']; [lia|]. rewrite !match_S.
  apply mono_body; [|lia]. intros pn' tokens' i'. apply IH. lia.
Qed.

(** Once a parse returns, or raises anything but [RecursionError], it
    does the same with every higher recursion limit and with more turns
    granted to the loops. *)
Lemma parse_mono self turns turns' depth depth' tokens :
  turns <= turns' -> depth <= depth' ->
  below (parse self turns depth tokens) (parse self turns' depth' tokens).
Proof.
  intros Hturns Hdepth. unfold parse.
  destruct (start_rule self) as [[|c start]|]; [below_done| |below_done].
  apply mono_rule. intros pn tokens' i. by apply match_mono.
Qed.

(** ** The return contract of the matcher *)

Lemma returns_bind {A B} (P : A -> Prop) (Q : B -> Prop) r (k : A -> result B) :
  returns P r -> (forall a, P a -> returns Q (k a)) -> returns Q (bind r k).
Proof.
  intros Hr Hk. destruct r as [a| |]; cbn [bind]; [|done|done].
  apply Hk. by apply Hr.
Qed.

Lemma returns_ok {A} (P : A -> Prop) a : P a -> returns P (Ok a).
Proof. by intros H ? [= <-]. Qed.

Lemma returns_raise {A} (P : A -> Prop) e : returns P (Raise e).
Proof. done. Qed.

Lemma returns_fuel {A} (P : A -> Prop) : returns P OutOfFuel.
Proof. done. Qed.

Section Contract.

Variable self : EBNFParser.
Variable m : EBNFNode -> list Token -> nat -> result outcome.
Hypothesis m_kept : forall pn tokens i, returns (kept tokens) (m pn tokens i).

Lemma kept_sequence_loop i orig expected :
  forall ok found tokens,
    ok <> Some false ->
    tokens `suffix_of` orig ->
    (orig <> [] -> found = [] -> tokens <> []) ->
    returns (seq_kept orig)
      (match_sequence_loop m i orig expected ok found tokens).
Proof.
  induction expected as [|this expected IH];
    intros ok found tokens Hok Hsuf Hne.
  - cbn [match_sequence_loop]. destruct ok as [b|]; [|done].
    apply returns_ok. split; [done|]. cbn. intros Ho [->|Hf]; [done|auto].
  - cbn [match_sequence_loop]. destruct tokens as [|t tokens].
    { destruct (oneormore this); [done|]. apply returns_ok. by split. }
    eapply returns_bind; [apply m_kept|].
    intros [[ok' node] tokens'] (Hc & Hs & Hl). cbn in Hc, Hs, Hl.
    destruct node as [n|].
    + eapply returns_bind with (P := fun _ => True); [done|]. intros _ _.
      apply IH.
      * rewrite Hc. by rewrite bool_decide_true by eauto.
      * by etrans.
      * intros _ [_ Hn]%app_eq_nil. apply Hl.
        destruct n as [tk kids]. cbn in Hn. by subst kids.
    + apply returns_ok. split; [by etrans|]. cbn. intros _ _. by apply Hl.
Qed.

Lemma kept_sequence nm originals tokens i :
  returns (seq_kept tokens) (match_sequence m nm originals tokens i).
Proof. by apply kept_sequence_loop. Qed.

Lemma kept_optional pn tokens i :
  tokens <> [] -> returns (kept tokens) (match_optional m pn tokens i).
Proof.
  intros Hne. unfold match_optional.
  eapply returns_bind; [apply kept_sequence|].
  intros [[ok kids] tokens'] [Hs Hl]. cbn in Hs, Hl.
  destruct ok; apply returns_ok; (split; [done|]); (split; [done|]); cbn.
  - destruct kids; [|done]. intros _. apply Hl; auto.
  - intros _. apply Hl; auto.
Qed.

Lemma kept_one_or_more_loop n nm expected i orig :
  forall acc ok kids tokens,
    tokens `suffix_of` orig ->
    (acc = [] -> ok = false \/ kids = [] -> tokens <> []) ->
    returns (fun r => r.2 `suffix_of` orig /\ (r.1 = [] -> r.2 <> []))
      (match_one_or_more_loop m n nm expected i acc ok kids tokens).
Proof.
  induction n as [|n IH]; intros acc ok kids tokens Hs Hl.
  - cbn [match_one_or_more_loop]. destruct ok; [done|].
    apply returns_ok. split; [done|]. cbn. intros ->. apply Hl; auto.
  - cbn [match_one_or_more_loop]. destruct ok.
    + eapply returns_bind; [apply kept_sequence|].
      intros [[ok' kids'] tokens'] [Hs' Hl']. cbn in Hs', Hl'.
      apply IH; [by etrans|].
      intros [-> ->]%app_eq_nil Hor. apply Hl'; [|done]. apply Hl; auto.
    + apply returns_ok. split; [done|]. cbn. intros ->. apply Hl; auto.
Qed.

Lemma kept_one_or_more n pn tokens i :
  tokens <> [] -> returns (kept tokens) (match_one_or_more m n pn tokens i).
Proof.
  intros Hne. unfold match_one_or_more.
  eapply returns_bind; [apply kept_sequence|].
  intros [[ok kids] tokens1] [Hs Hl]. cbn in Hs, Hl.
  destruct ok; cbn [negb]; [|done].
  eapply returns_bind.
  { apply (kept_one_or_more_loop n _ _ i tokens [] true kids tokens1 Hs).
    intros _ Hor. by apply Hl. }
  intros [acc tokens2] [Hs2 Hl2]. cbn in Hs2, Hl2.
  destruct acc; apply returns_ok; (split; [done|]); (split; [done|]); cbn;
    [auto | done].
Qed.

Lemma kept_repeating_loop n nm expected i orig :
  forall acc tokens,
    tokens `suffix_of` orig ->
    (acc = [] -> tokens <> []) ->
    returns (fun r => r.2 `suffix_of` orig /\ (r.1 = [] -> r.2 <> []))
      (match_repeating_loop m n nm expected i acc tokens).
Proof.
  induction n as [|n IH]; intros acc tokens Hs Hl; [done|].
  cbn [match_repeating_loop].
  eapply returns_bind; [apply kept_sequence|].
  intros [[ok addends] tokens'] [Hs' Hl']. cbn in Hs', Hl'.
  destruct ok.
  - apply IH; [by etrans|].
    intros [-> ->]%app_eq_nil. apply Hl'; auto.
  - apply returns_ok. split; [by etrans|]. cbn. intros ->. apply Hl'; auto.
Qed.

Lemma kept_repeating n pn tokens i :
  tokens <> [] -> returns (kept tokens) (match_repeating m n pn tokens i).
Proof.
  intros Hne. unfold match_repeating.
  eapply returns_bind.
  { by apply (kept_repeating_loop n _ _ i tokens [] tokens). }
  intros [acc tokens'] [Hs Hl]. cbn in Hs, Hl.
  destruct acc; apply returns_ok; (split; [done|]); (split; [done|]); cbn;
    [auto | done].
Qed.

Lemma kept_alternate_loop nm i tokens alternates :
  tokens <> [] ->
  returns (fun r => match r with
                    | Some (found, rest) =>
                        rest `suffix_of` tokens /\ (found = [] -> rest <> [])
                    | None => True
                    end)
    (match_alternate_loop m nm i tokens alternates).
Proof.
  intros Hne.
  induction alternates as [|alt alternates IH]; [by apply returns_ok|].
  cbn [match_alternate_loop].
  pose proof (kept_sequence nm alt tokens (S i)) as H.
  destruct (match_sequence m nm alt tokens (S i)) as [[[[] found] rest]|[]|];
    try done.
  apply returns_ok. destruct (H _ eq_refl) as [Hs Hl]. cbn in Hs, Hl.
  split; [done|]. intros ->. apply Hl; auto.
Qed.

Lemma kept_alternate pn tokens i :
  tokens <> [] -> returns (kept tokens) (match_alternate m pn tokens i).
Proof.
  intros Hne. unfold match_alternate. destruct tokens as [|t tokens]; [done|].
  eapply returns_bind; [by apply kept_alternate_loop|].
  intros [[found rest]|] H; apply returns_ok.
  - destruct H as [Hs Hl]. split; [done|]. split; [done|]. cbn.
    destruct found; [auto | done].
  - by repeat split.
Qed.

Lemma kept_finish node_token kids child tokens tokens' :
  tokens' `suffix_of` tokens ->
  (kids = [] -> childless child = true -> tokens' <> []) ->
  kept tokens (finish_nonterminal node_token kids child tokens').
Proof.
  intros Hs Hl. unfold finish_nonterminal.
  destruct child as [[tk [|c cs]]|]; cbn [cst_children].
  - rewrite app_nil_r. destruct kids; repeat split; cbn; auto; done.
  - destruct kids; repeat split; cbn; auto; done.
  - destruct kids; repeat split; cbn; auto; done.
Qed.

Lemma kept_nonterminal n pn tokens i :
  tokens <> [] ->
  returns (kept tokens) (match_nonterminal self m n pn tokens i).
Proof.
  intros Hne. unfold match_nonterminal.
  destruct (symbol_table self !! _) as [sym|]; [|done].
  destruct tokens as [|t tokens]; [done|].
  destruct (alternate pn).
  { eapply returns_bind; [by apply kept_alternate|].
    intros [[ok child] tokens'] (Hc & Hs & Hl). apply returns_ok.
    apply kept_finish; [done|]. intros _. apply Hl. }
  destruct (repeating pn).
  { eapply returns_bind; [by apply kept_repeating|].
    intros [[ok child] tokens'] (Hc & Hs & Hl). apply returns_ok.
    apply kept_finish; [done|]. intros _. apply Hl. }
  destruct (optional pn).
  { eapply returns_bind; [by apply kept_optional|].
    intros [[ok child] tokens'] (Hc & Hs & Hl). apply returns_ok.
    apply kept_finish; [done|]. intros _. apply Hl. }
  destruct (oneormore pn).
  { eapply returns_bind; [by apply kept_one_or_more|].
    intros [[ok child] tokens'] (Hc & Hs & Hl).
    destruct (negb ok); [done|]. apply returns_ok.
    apply kept_finish; [done|]. intros _. apply Hl. }
  destruct (symbol_eq (symbol (token pn)) SEQUENCE); [|done].
  eapply returns_bind; [apply kept_sequence|].
  intros [[ok found] tokens'] [Hs Hl]. cbn in Hs, Hl. apply returns_ok.
  apply kept_finish; [done|]. intros -> _. apply Hl; auto.
Qed.

Lemma kept_rule rule tokens i :
  returns (kept tokens) (match_rule self m rule tokens i).
Proof.
  unfold match_rule.
  destruct (rules_get (rules self) rule) as [pn|]; [|done].
  destruct (negb (ebnf (token pn))); [done|].
  eapply returns_bind; [apply m_kept|].
  intros [[ok node] tokens'] H.
  destruct i; [destruct tokens'|]; by try apply returns_ok.
Qed.

Lemma kept_terminal pn tokens i :
  tokens <> [] -> returns (kept tokens) (match_terminal self m pn tokens i).
Proof.
  intros Hne. unfold match_terminal. destruct tokens as [|first tail]; [done|].
  destruct (symbol_eq (symbol (token pn)) RULE).
  { eapply returns_bind; [apply kept_rule|].
    intros [[ok child] tokens'] (Hc & Hs & Hl). cbn in Hc, Hs, Hl.
    apply returns_ok. split; [done|]. split; [done|]. cbn.
    destruct child as [c|]; [|auto].
    by destruct (collapse_tree self), (cst_children c) as [|? [|? ?]]. }
  assert (Htail : tail `suffix_of` first :: tail) by by apply suffix_cons_r.
  destruct (symbol_eq (symbol (token pn)) LITERAL).
  - destruct (bool_decide _); apply returns_ok; by repeat split.
  - destruct (bool_decide _); apply returns_ok; by repeat split.
Qed.

Lemma kept_body n pn tokens i :
  returns (kept tokens) (match_body self m n pn tokens i).
Proof.
  unfold match_body. destruct tokens as [|t tokens].
  { by destruct (negb _). }
  destruct (is_terminal (symbol (token pn)));
    [by apply kept_terminal | by apply kept_nonterminal].
Qed.

End Contract.

Lemma match_kept self turns depth :
  forall pn tokens i,
    returns (kept tokens) (match_ self turns depth pn tokens i).
Proof.
  induction depth as [|depth IH]; intros pn tokens i; [done|].
  rewrite match_S. by apply kept_body.
Qed.

(** ** The bound of the builder *)

Lemma short_of_refl {A} (r : result A) : short_of r r.
Proof. by right. Qed.

Lemma short_of_bind {A B} (r r' : result A) (k k' : A -> result B) :
  short_of r r' -> (forall a, short_of (k a) (k' a)) ->
  short_of (bind r k) (bind r' k').
Proof.
  intros [-> | ->] Hk; [by left|].
  destruct r'; [apply Hk | apply short_of_refl..].
Qed.

Lemma builder_fuel_mono fuel :
  (forall fuel' gc nm tokens e,
      fuel <= fuel' ->
      short_of (make_parser_node_fuel fuel gc nm tokens e)
        (make_parser_node_fuel fuel' gc nm tokens e))
  /\ (forall fuel' gc nm e this tokens,
        fuel <= fuel' ->
        short_of (make_parser_node_loop fuel gc nm e this tokens)
          (make_parser_node_loop fuel' gc nm e this tokens)).
Proof.
  induction fuel as [|fuel [IHnode IHloop]]; [split; intros; by left|].
  split.
  - intros [|fuel'] gc nm tokens e Hle; [lia|].
    destruct tokens as [|t ts]; [apply short_of_refl|].
    cbn [make_parser_node_fuel].
    apply short_of_bind; [apply IHloop; lia|]. intros [[? ?] ?].
    apply short_of_refl.
  - intros [|fuel'] gc nm e this tokens Hle; [lia|].
    destruct tokens as [|first tail]; [apply short_of_refl|].
    cbn [make_parser_node_loop].
    destruct (symbol_in (symbol first) openers).
    { apply short_of_bind; [apply short_of_refl|]. intros closer.
      apply short_of_bind; [apply IHnode; lia|]. intros [[g [c|]] r].
      - apply short_of_bind; [apply short_of_refl|]. intros kind.
        apply IHloop. lia.
      - apply IHloop. lia. }
    destruct (symbol_in (symbol first) closers); [apply short_of_refl|].
    destruct (symbol_eq (symbol first) OR); apply IHloop; lia.
Qed.

(** What the builder returns or raises with some fuel is what
    [make_parser_node] returns or raises. *)
Lemma make_parser_node_eq fuel gc nm tokens e r :
  make_parser_node_fuel fuel gc nm tokens e = r ->
  r <> OutOfFuel ->
  make_parser_node gc nm tokens e = r.
Proof.
  intros Hr Hne.
  pose proof (make_parser_node_total gc nm tokens e) as Htotal.
  unfold make_parser_node in *.
  destruct (Nat.le_ge_cases fuel (2 * length tokens + 2)) as [Hle|Hle].
  - destruct (proj1 (builder_fuel_mono fuel) _ gc nm tokens e Hle) as [H|H];
      congruence.
  - destruct (proj1 (builder_fuel_mono _) _ gc nm tokens e Hle) as [H|H];
      congruence.
Qed.

Lemma absorb_app this X Y : absorb this (X ++ Y) = absorb (absorb this X) Y.
Proof. apply fold_left_app. Qed.

(** The flat tokens become leaves, in order, and an OR marker among them
    tags the node ALTERNATING. *)
Lemma absorb_spec X :
  forall this,
    absorb this X
    = mkEBNFNode
        (if existsb or_token X then set_symbol (token this) ALTERNATING
         else token this)
        (children this ++ map leaf_of X).
Proof.
  induction X as [|t X IH]; intros [tk kids].
  - cbn. by rewrite app_nil_r.
  - change (absorb (mkEBNFNode tk kids) (t :: X))
      with (absorb (if symbol_eq (symbol t) OR
                    then add (retag (mkEBNFNode tk kids) ALTERNATING)
                           (mkEBNFNode t [])
                    else add (mkEBNFNode tk kids) (mkEBNFNode t [])) X).
    cbn [existsb map]. unfold or_token at 1.
    destruct (symbol_eq (symbol t) OR); rewrite IH; cbn.
    + rewrite <- app_assoc. by destruct (existsb or_token X).
    + by rewrite <- app_assoc.
Qed.

Lemma groupings_opener s closer :
  groupings s = Some closer ->
  symbol_in s openers = true /\ exists kind, SEQ_MAP s = Some kind.
Proof.
  unfold groupings, SEQ_MAP, symbol_in, openers. cbn.
  destruct (symbol_eq s STARTGROUP); [by eauto|].
  destruct (symbol_eq s STARTREPEAT); [by eauto|].
  destruct (symbol_eq s STARTOPTION); [by eauto|].
  destruct (symbol_eq s STARTATL); [by eauto|done].
Qed.

Lemma closer_not_opener s :
  symbol_in s closers = true -> symbol_in s openers = false.
Proof.
  intros H. name_cases H x Hname; by rewrite (symbol_in_ext _ _ _ Hname).
Qed.

Lemma groupings_closer s closer :
  groupings s = Some closer -> symbol_in closer closers = true.
Proof.
  unfold groupings.
  destruct (symbol_eq s STARTGROUP); [by intros [= <-]|].
  destruct (symbol_eq s STARTREPEAT); [by intros [= <-]|].
  destruct (symbol_eq s STARTOPTION); [by intros [= <-]|].
  destruct (symbol_eq s STARTATL); [by intros [= <-]|done].
Qed.

(** The loop at the opener of a group over flat tokens, closed or left
    open at the end of the rule. *)
Lemma loop_flat_group F gc nm e this o X closing closer kind :
  forallb flat X = true -> X <> [] ->
  groupings (symbol o) = Some closer ->
  SEQ_MAP (symbol o) = Some kind ->
  (closing = []
   \/ exists c, closing = [c] /\ symbol_eq closer (symbol c) = true) ->
  let key := split_dash nm in
  make_parser_node_loop (S (S (length X + S (S F)))) gc nm e this
    (o :: X ++ closing)
  = Ok (increment gc key,
        add this
          (retag (absorb (start_node (group_name key (S (count gc key)))) X)
             kind),
        []).
Proof.
  intros HX Hne Hgr Hkind Hclosing key.
  destruct (groupings_opener _ _ Hgr) as [Hopen _].
  cbn [make_parser_node_loop]. rewrite Hopen. unfold subscript at 1.
  rewrite Hgr. cbn [bind].
  rewrite make_parser_node_fuel_S by (by destruct X).
  rewrite loop_flat_prefix by exact HX. rewrite count_increment.
  fold key. fold (start_node (group_name key (S (count gc key)))).
  destruct Hclosing as [->|(c & -> & Hc)].
  - cbn [make_parser_node_loop bind]. unfold subscript. rewrite Hkind.
    reflexivity.
  - pose proof (groupings_closer _ _ Hgr) as Hcl.
    pose proof (symbol_eq_name _ _ Hc) as Hname.
    rewrite (symbol_in_ext _ _ _ Hname) in Hcl.
    cbn [make_parser_node_loop]. rewrite (closer_not_opener _ Hcl), Hcl.
    unfold differs. rewrite Hc. cbn [negb bind]. unfold subscript.
    rewrite Hkind. reflexivity.
Qed.

(** ** The builder on simple rule bodies *)

(** X1.  A body of flat meta-tokens becomes one node named after the rule, with
    one leaf per token in the order of the tokens; the node is ALTERNATING
    if an OR marker is among the tokens and SEQUENCE otherwise, every token
    is consumed and [groupcount] is left as it was. *)
Theorem make_parser_node_flat gc nm X e :
  forallb flat X = true -> X <> [] ->
  make_parser_node gc nm X e
  = Ok (gc,
        Some (mkEBNFNode
                (EBNFToken (if existsb or_token X then ALTERNATING
                            else SEQUENCE) nm 0 0)
                (map leaf_of X)),
        []).
Proof.
  intros HX Hne.
  apply (make_parser_node_eq (S (length X + 1))); [|done].
  rewrite make_parser_node_fuel_S by done.
  rewrite <- (app_nil_r X) at 2. rewrite loop_flat_prefix by exact HX.
  cbn [make_parser_node_loop bind]. rewrite absorb_spec. cbn.
  by destruct (existsb or_token X).
Qed.

(** The witness of [make_parser_node_flat]: the body ["a" | B]. *)
Lemma make_parser_node_flat_witness :
  make_parser_node ∅ "r" [meta LITERAL "a"; meta OR "|"; meta TERM "B"] None
  = Ok (∅,
        Some (group ALTERNATING "r"
                [leaf LITERAL "a"; leaf OR "|"; leaf TERM "B"]),
        []).
Proof.
  exact (make_parser_node_flat ∅ "r"
           [meta LITERAL "a"; meta OR "|"; meta TERM "B"] None
           eq_refl ltac:(discriminate)).
Defined.

(** X2.  A closing bracket that no group of the rule is open for, after flat
    tokens, makes the builder raise [AttributeError]: [endtoken] is None
    there, and the error message reads [endtoken.name]. *)
Theorem stray_closer_raises_attribute_error gc nm pre c post :
  forallb flat pre = true ->
  symbol_in (symbol c) closers = true ->
  make_parser_node gc nm (pre ++ c :: post) None = Raise AttributeError.
Proof.
  intros Hpre Hc.
  apply (make_parser_node_eq (S (length pre + 1))); [|done].
  rewrite make_parser_node_fuel_S by (by destruct pre).
  rewrite loop_flat_prefix by exact Hpre.
  cbn [make_parser_node_loop]. by rewrite (closer_not_opener _ Hc), Hc.
Qed.

(** The witness of [stray_closer_raises_attribute_error]: the body ["a" )]. *)
Lemma stray_closer_raises_attribute_error_witness :
  make_parser_node ∅ "r" ([meta LITERAL "a"] ++ meta ENDGROUP ")" :: []) None
  = Raise AttributeError.
Proof.
  exact (stray_closer_raises_attribute_error ∅ "r" [meta LITERAL "a"]
           (meta ENDGROUP ")") [] eq_refl eq_refl).
Defined.

(** X3.  A group over flat tokens that is closed by the bracket of another kind
    of group is rejected with [SyntaxError] "Expected ... to close group,
    got ...", naming the bracket the opener calls for and the one found. *)
Theorem mismatched_closer_rejected gc nm e pre o X c post closer :
  forallb flat pre = true ->
  forallb flat X = true ->
  groupings (symbol o) = Some closer ->
  symbol_in (symbol c) closers = true ->
  symbol_eq closer (symbol c) = false ->
  make_parser_node gc nm (pre ++ o :: X ++ c :: post) e
  = Raise (SyntaxError (ExpectedToClose (name closer) (name (symbol c)))).
Proof.
  intros Hpre HX Hgr Hc Hdiff.
  destruct (groupings_opener _ _ Hgr) as [Hopen _].
  apply (make_parser_node_eq (S (length pre + S (S (length X + 1)))));
    [|done].
  rewrite make_parser_node_fuel_S by (by destruct pre).
  rewrite loop_flat_prefix by exact Hpre.
  cbn [make_parser_node_loop]. rewrite Hopen. unfold subscript at 1.
  rewrite Hgr. cbn [bind].
  rewrite make_parser_node_fuel_S by (by destruct X).
  rewrite loop_flat_prefix by exact HX.
  cbn [make_parser_node_loop]. rewrite (closer_not_opener _ Hc), Hc.
  unfold differs. by rewrite Hdiff.
Qed.

(** The witness of [mismatched_closer_rejected]: the body [( "a" ]]. *)
Lemma mismatched_closer_rejected_witness :
  make_parser_node ∅ "r"
    ([] ++ meta STARTGROUP "(" :: [meta LITERAL "a"]
        ++ meta ENDOPTION "]" :: []) None
  = Raise (SyntaxError (ExpectedToClose "ENDGROUP" "ENDOPTIONAL")).
Proof.
  exact (mismatched_closer_rejected ∅ "r" None [] (meta STARTGROUP "(")
           [meta LITERAL "a"] (meta ENDOPTION "]") [] ENDGROUP
           eq_refl eq_refl eq_refl eq_refl eq_refl).
Defined.

(** X4.  A group over flat tokens that is still open when the tokens of the rule
    end is no error: the builder returns the tree it returns for the same
    body with the closing bracket in place. *)
Theorem unclosed_group_accepted gc nm e pre o X c closer kind :
  forallb flat pre = true ->
  forallb flat X = true ->
  X <> [] ->
  groupings (symbol o) = Some closer ->
  SEQ_MAP (symbol o) = Some kind ->
  symbol_eq closer (symbol c) = true ->
  let key := split_dash nm in
  let tree :=
    add (absorb (start_node nm) pre)
      (retag (absorb (start_node (group_name key (S (count gc key)))) X)
         kind) in
  make_parser_node gc nm (pre ++ o :: X) e
  = Ok (increment gc key, Some tree, [])
  /\ make_parser_node gc nm (pre ++ o :: X ++ [c]) e
     = Ok (increment gc key, Some tree, []).
Proof.
  intros Hpre HX Hne Hgr Hkind Hc key tree. split.
  - apply (make_parser_node_eq (S (length pre + S (S (length X + 2)))));
      [|done].
    rewrite make_parser_node_fuel_S by (by destruct pre).
    rewrite loop_flat_prefix by exact Hpre.
    rewrite <- (app_nil_r X) at 2.
    by rewrite (loop_flat_group 0 _ _ _ _ _ _ [] closer kind) by auto.
  - apply (make_parser_node_eq (S (length pre + S (S (length X + 2)))));
      [|done].
    rewrite make_parser_node_fuel_S by (by destruct pre).
    rewrite loop_flat_prefix by exact Hpre.
    by rewrite (loop_flat_group 0 _ _ _ _ _ _ [c] closer kind) by eauto.
Qed.

(** The witness of [unclosed_group_accepted]: the bodies [{ "a"] and
    [{ "a" }]. *)
Lemma unclosed_group_accepted_witness :
  let tree := group SEQUENCE "r" [group REPEATING "r-1" [leaf LITERAL "a"]] in
  make_parser_node ∅ "r" ([] ++ meta STARTREPEAT "{" :: [meta LITERAL "a"])
    None
  = Ok ({["r" := 1]}, Some tree, [])
  /\ make_parser_node ∅ "r"
       ([] ++ meta STARTREPEAT "{" :: [meta LITERAL "a"]
           ++ [meta ENDREPEAT "}"]) None
     = Ok ({["r" := 1]}, Some tree, []).
Proof.
  exact (unclosed_group_accepted ∅ "r" None [] (meta STARTREPEAT "{")
           [meta LITERAL "a"] (meta ENDREPEAT "}") ENDREPEAT REPEATING
           eq_refl eq_refl ltac:(discriminate) eq_refl eq_refl eq_refl).
Defined.

Lemma split_dash_prefix s t :
  split_dash (split_dash s +:+ String "-" t) = split_dash s.
Proof.
  induction s as [|c s IH]; [done|].
  cbn [split_dash]. destruct (bool_decide (c = "-"%char)) eqn:Hc; [done|].
  simpl. by rewrite Hc, IH.
Qed.

Lemma split_dash_group_name nm n :
  split_dash (group_name (split_dash nm) n) = split_dash nm.
Proof. apply split_dash_prefix. Qed.

Lemma seq_map_kind s kind : SEQ_MAP s = Some kind -> kind ∈ group_kinds.
Proof.
  unfold SEQ_MAP, group_kinds.
  destruct (symbol_eq s STARTGROUP); [intros [= <-]; repeat constructor|].
  destruct (symbol_eq s STARTREPEAT); [intros [= <-]; repeat constructor|].
  destruct (symbol_eq s STARTOPTION); [intros [= <-]; repeat constructor|].
  destruct (symbol_eq s STARTATL); [intros [= <-]; repeat constructor|done].
Qed.

Lemma suffix_map_kind s kind : SUFFIX_MAP s = Some kind -> kind ∈ group_kinds.
Proof.
  unfold SUFFIX_MAP, group_kinds.
  destruct (symbol_eq s REP); [intros [= <-]; repeat constructor|].
  destruct (symbol_eq s OPT); [intros [= <-]; repeat constructor|].
  destruct (symbol_eq s ATL); [intros [= <-]; repeat constructor|done].
Qed.

Lemma group_kind_nonterminal kind :
  kind ∈ ALTERNATING :: group_kinds -> is_terminal kind = false.
Proof.
  unfold group_kinds. intros H.
  repeat (apply elem_of_cons in H as [->|H]); try done.
  by apply elem_of_nil in H.
Qed.

Lemma root_kinds_some e kind :
  kind ∈ root_kinds e -> kind ∈ ALTERNATING :: group_kinds.
Proof.
  destruct e; [done|]. unfold root_kinds, group_kinds. intros H.
  repeat (apply elem_of_cons in H as [->|H]); [repeat constructor..|].
  by apply elem_of_nil in H.
Qed.

(** The child of a group, tagged by the loop that met the opener. *)
Lemma built_child e key name c kind :
  split_dash name = key ->
  built_root e name c ->
  kind ∈ group_kinds ->
  built key (retag c kind) = true.
Proof.
  intros Hname (Hebnf & Hlex & _ & Hkids) Hkind.
  destruct c as [tk kids]. cbn in *.
  rewrite (group_kind_nonterminal kind) by (by apply list_elem_of_further).
  rewrite Hebnf, Hlex, Hname, !bool_decide_true by done. cbn.
  by rewrite <- Hname.
Qed.

Lemma built_root_add e nm this thing :
  built_root e nm this -> built (split_dash nm) thing = true ->
  built_root e nm (add this thing).
Proof.
  intros (Hebnf & Hlex & Hkind & Hkids) Hthing. repeat split; try done.
  unfold add. cbn [children]. rewrite forallb_app, Hkids. cbn [forallb].
  by rewrite Hthing.
Qed.

Lemma built_root_retag e nm this kind :
  built_root e nm this -> kind ∈ root_kinds e ->
  built_root e nm (retag this kind).
Proof. by intros (Hebnf & Hlex & _ & Hkids) Hkind. Qed.

Lemma built_leaf key t :
  is_terminal (symbol t) = true -> built key (mkEBNFNode t []) = true.
Proof. cbn. by intros ->. Qed.

Lemma built_root_start e nm : built_root e nm (start_node nm).
Proof.
  repeat split. destruct e; [|apply list_elem_of_here].
  apply list_elem_of_further, list_elem_of_here.
Qed.

(** The trees the builder returns are built as [built_root] and [built]
    say, and the tokens it hands back are tokens it was given. *)
Lemma builder_built fuel :
  (forall gc nm tokens e g child rest,
      lexed tokens = true ->
      make_parser_node_fuel fuel gc nm tokens e = Ok (g, child, rest) ->
      lexed rest = true /\ from_option (built_root e nm) True child)
  /\ (forall gc nm e this tokens g this' rest,
        lexed tokens = true ->
        built_root e nm this ->
        make_parser_node_loop fuel gc nm e this tokens = Ok (g, this', rest) ->
        lexed rest = true /\ built_root e nm this').
Proof.
  induction fuel as [|fuel [IHnode IHloop]]; [by split|].
  split.
  - intros gc nm [|t ts] e g child rest Hlex; [by intros [= _ <- <-]|].
    cbn [make_parser_node_fuel].
    destruct (make_parser_node_loop fuel gc nm e _ (t :: ts))
      as [[[g' this'] rest']| |] eqn:Hloop; cbn [bind]; [|done|done].
    intros [= _ <- <-].
    by apply (IHloop _ _ _ _ _ _ _ _ Hlex (built_root_start e nm) Hloop).
  - intros gc nm e this [|first tail] g this' rest Hlex Hthis;
      [by intros [= _ <- <-]|].
    cbn [lexed forallb] in Hlex. apply andb_prop in Hlex as [Hfirst Htail].
    cbn [make_parser_node_loop].
    destruct (symbol_in (symbol first) openers).
    { unfold subscript.
      destruct (groupings (symbol first)) as [closer|]; cbn [bind]; [|done].
      destruct (make_parser_node_fuel fuel _ _ tail _)
        as [[[g2 child] tokens']| |] eqn:Hnode; cbn [bind]; [|done|done].
      destruct (IHnode _ _ _ _ _ _ _ Htail Hnode) as [Hlex' Hchild].
      destruct child as [c|]; [|by apply IHloop].
      destruct (SEQ_MAP (symbol first)) as [kind|] eqn:Hkind; cbn [bind];
        [|done].
      apply IHloop; [done|]. apply built_root_add; [done|].
      apply (built_child (Some closer) _ _ _ _ (split_dash_group_name nm _)
               Hchild (seq_map_kind _ _ Hkind)). }
    destruct (symbol_in (symbol first) closers).
    { destruct (differs e (symbol first)) eqn:Hdiff; [by destruct e|].
      destruct e as [e|]; [|done].
      destruct tail as [|second tail']; [by intros [= _ <- <-]|].
      destruct (symbol_in (symbol first) [ENDREPEAT; ENDOPTION]
                && symbol_in (symbol second) suffixes); [done|].
      pose proof Htail as Hlex'.
      cbn [lexed forallb] in Htail. apply andb_prop in Htail as [_ Htail'].
      destruct (symbol_in (symbol second) suffixes).
      - unfold subscript.
        destruct (SUFFIX_MAP (symbol second)) as [kind|] eqn:Hkind;
          cbn [bind]; [|done].
        intros [= _ <- <-]. split; [done|].
        apply built_root_retag; [done|].
        apply list_elem_of_further. by eapply suffix_map_kind.
      - by intros [= _ <- <-]. }
    destruct (symbol_eq (symbol first) OR).
    + apply IHloop; [done|]. apply built_root_add; [|by apply built_leaf].
      apply built_root_retag; [done|].
      destruct e; [apply list_elem_of_here|].
      apply list_elem_of_further, list_elem_of_here.
    + apply IHloop; [done|]. apply built_root_add; [done|by apply built_leaf].
Qed.

(** ** The shape of the trees the builder returns *)

(** X5.  Over meta-tokens with terminal symbols, the root [make_parser_node]
    returns holds an [EBNFToken] with the name it was called with; outside
    every group it is SEQUENCE or ALTERNATING.  Every group below the root
    is SEQUENCE, REPEATING, OPTIONAL or ATLEASTONCE, never ALTERNATING, and
    is named after the rule; every other node is a leaf that holds a
    meta-token.  The tokens handed back are meta-tokens as well. *)
Theorem make_parser_node_tree_shape gc nm tokens e g root rest :
  lexed tokens = true ->
  make_parser_node gc nm tokens e = Ok (g, Some root, rest) ->
  built_root e nm root /\ lexed rest = true.
Proof.
  intros Hlex Hnode. unfold make_parser_node in Hnode.
  destruct (proj1 (builder_built _) _ _ _ _ _ _ _ Hlex Hnode) as [Hrest Hroot].
  by split.
Qed.

(** The witness of [make_parser_node_tree_shape]: the body
    ["a" ( "b" | "c" ) *], whose group is neither ALTERNATING nor
    REPEATING in the tree. *)
Lemma make_parser_node_tree_shape_witness :
  built_root None "r"
    (group SEQUENCE "r"
       [leaf LITERAL "a";
        group SEQUENCE "r-1" [leaf LITERAL "b"; leaf OR "|"; leaf LITERAL "c"]])
  /\ lexed [] = true.
Proof.
  exact (make_parser_node_tree_shape ∅ "r"
           [meta LITERAL "a"; meta STARTGROUP "("; meta LITERAL "b";
            meta OR "|"; meta LITERAL "c"; meta ENDGROUP ")"; meta REP "*"]
           None _ _ _ eq_refl eq_refl).
Defined.

(** ** The tables [EBNFParser.__init__] fills *)

Lemma islower_not_isupper s : islower s = true -> isupper s = false.
Proof.
  unfold islower, isupper, str_case. intros [_ Hsome]%andb_prop.
  apply existsb_exists in Hsome as (c & Hin & Hc).
  apply andb_false_iff. left. apply not_true_is_false. intros Hall.
  rewrite forallb_forall in Hall. specialize (Hall c Hin).
  unfold has_case, cased_char in Hc, Hall.
  by destruct (case_of c) as [[]|].
Qed.

(** The case of a key is the case of its code points, also beyond ASCII:
    [é] is a rule key and [É] a terminal key, and a key that mixes the two
    cases, or holds a title-case letter, is neither. *)
Lemma case_beyond_ascii :
  islower "é" = true /\ islower "é-1" = true /\ isupper "É" = true
  /\ cased (rule "aÉ" []) = false /\ cased (rule "ǅ" []) = false.
Proof. repeat split; vm_compute; reflexivity. Qed.

Lemma init_step_ok st d st' :
  init_step st d = Ok st' ->
  st_symbol_table st !! key d = None
  /\ ((islower (key d) = true
       /\ exists root,
           make_parser_node (st_groupcount st) (key d) (ebnf_tokens d) None
           = Ok (st_groupcount st', root, [])
           /\ st_symbol_table st'
              = <[key d := EBNFNonTerminalSymbol (key d)]> (st_symbol_table st)
           /\ st_rules st' = rules_set (st_rules st) (key d) root)
      \/ (islower (key d) = false /\ isupper (key d) = true
          /\ st_symbol_table st'
             = <[key d := EBNFTerminalSymbol (key d)]> (st_symbol_table st)
          /\ st_rules st' = st_rules st)
      \/ (islower (key d) = false /\ isupper (key d) = false /\ st' = st)).
Proof.
  unfold init_step.
  destruct (st_symbol_table st !! key d) as [s|] eqn:Hkey.
  { by rewrite bool_decide_true by eauto. }
  rewrite bool_decide_false by (by intros [? ?]).
  intros Hstep. split; [done|].
  destruct (islower (key d)).
  - destruct (make_parser_node _ _ _ _) as [[[g root] [|? ?]]| |];
      cbn [bind] in Hstep; try done.
    injection Hstep as <-. left. split; [done|]. by exists root.
  - destruct (isupper (key d)).
    + destruct (bool_decide (is_Some (symbols (st_tokenizer st) !! key d)));
        [done|]. injection Hstep as <-. right. left. by repeat split.
    + injection Hstep as <-. right. right. by repeat split.
Qed.

Lemma init_loop_total data : forall st, init_loop st data <> OutOfFuel.
Proof.
  induction data as [|d data IH]; intros st; [done|].
  cbn [init_loop]. pose proof (init_step_total st d) as H.
  destruct (init_step st d); cbn [bind]; [apply IH|done|done].
Qed.

Lemma lower_keys_snoc done_ d :
  lower_keys (done_ ++ [d])
  = lower_keys done_ ++ (if islower (key d) then [key d] else []).
Proof.
  unfold lower_keys. rewrite List.filter_app, map_app. cbn.
  by destruct (islower (key d)).
Qed.

Lemma upper_keys_snoc done_ d :
  upper_keys (done_ ++ [d])
  = upper_keys done_ ++ (if isupper (key d) then [key d] else []).
Proof.
  unfold upper_keys. rewrite List.filter_app, map_app. cbn.
  by destruct (isupper (key d)).
Qed.

Lemma rules_set_fresh rs k v :
  k ∉ map fst rs -> map fst (rules_set rs k v) = map fst rs ++ [k].
Proof.
  induction rs as [|[k1 w1] rs IH]; [done|].
  cbn [map fst rules_set]. intros Hk.
  apply not_elem_of_cons in Hk as [Hne Hk].
  rewrite bool_decide_false by congruence. cbn. by rewrite IH.
Qed.

Lemma table_of_none data k :
  table_of data k = None -> (k ∉ lower_keys data) /\ (k ∉ upper_keys data).
Proof.
  unfold table_of. intros H. split; intros Hin.
  - by rewrite bool_decide_true in H.
  - destruct (bool_decide (k ∈ lower_keys data)); [done|].
    by rewrite bool_decide_true in H.
Qed.

Lemma snoc_other (k k' : string) l :
  k <> k' -> bool_decide (k ∈ l ++ [k']) = bool_decide (k ∈ l).
Proof.
  intros Hne. apply bool_decide_ext.
  rewrite elem_of_app, list_elem_of_singleton. tauto.
Qed.

Lemma init_step_tables done_ st d st' :
  init_step st d = Ok st' ->
  tables_of done_ st -> tables_of (done_ ++ [d]) st'.
Proof.
  intros [Hfresh Hcases]%init_step_ok (Hrules & Hnodup & Htable).
  rewrite Htable in Hfresh. apply table_of_none in Hfresh as [Hlo Hup].
  unfold tables_of, table_of.
  rewrite lower_keys_snoc, upper_keys_snoc.
  destruct Hcases as [(Hlower & root & _ & -> & ->)
                     |[(Hlower & Hupper & -> & ->)|(Hlower & Hupper & ->)]].
  - rewrite Hlower, (islower_not_isupper _ Hlower), app_nil_r.
    split; [|split].
    + rewrite rules_set_fresh by (by rewrite Hrules). by rewrite Hrules.
    + apply NoDup_app. split; [done|]. split; [|apply NoDup_singleton].
      intros x Hx Hx'. apply list_elem_of_singleton in Hx'. by subst x.
    + intros k. destruct (decide (k = key d)) as [->|Hne].
      * rewrite lookup_insert_eq.
        rewrite bool_decide_true; [done|].
        apply elem_of_app. right. by apply list_elem_of_singleton.
      * rewrite lookup_insert_ne by done. rewrite Htable. unfold table_of.
        by rewrite (snoc_other k (key d) (lower_keys done_)).
  - rewrite Hlower, Hupper, app_nil_r.
    split; [done|]. split; [done|].
    intros k. destruct (decide (k = key d)) as [->|Hne].
    + rewrite lookup_insert_eq. rewrite bool_decide_false by done.
      rewrite bool_decide_true; [done|].
      apply elem_of_app. right. by apply list_elem_of_singleton.
    + rewrite lookup_insert_ne by done. rewrite Htable. unfold table_of.
      by rewrite (snoc_other k (key d) (upper_keys done_)).
  - rewrite Hlower, Hupper, !app_nil_r. by repeat split.
Qed.

Lemma init_loop_tables data :
  forall done_ st st',
    init_loop st data = Ok st' ->
    tables_of done_ st -> tables_of (done_ ++ data) st'.
Proof.
  induction data as [|d data IH]; intros done_ st st'.
  - intros [= <-]. by rewrite app_nil_r.
  - cbn [init_loop].
    destruct (init_step st d) as [st1| |] eqn:Hstep; cbn [bind]; [|done|done].
    intros Hloop Hinv.
    replace (done_ ++ d :: data) with ((done_ ++ [d]) ++ data)
      by (by rewrite <- app_assoc).
    apply (IH _ st1 st' Hloop). by eapply init_step_tables.
Qed.

Lemma tables_of_start gc : tables_of [] (init_start gc).
Proof.
  split; [done|]. split; [constructor|]. intros k. apply lookup_empty.
Qed.

Lemma compiled_tables gc data gc' p :
  EBNFParser_init gc data = Ok (gc', p) ->
  exists st,
    init_loop (init_start gc) data = Ok st
    /\ tables_of data st
    /\ rules p = st_rules st /\ symbol_table p = st_symbol_table st
    /\ start_rule p = head (map fst (st_rules st))
    /\ st_rules st <> [].
Proof.
  unfold EBNFParser_init.
  destruct (init_loop (init_start gc) data) as [st| |] eqn:Hloop;
    cbn [bind]; [|done|done].
  destruct (st_rules st) as [|[k v] rs] eqn:Hrules; [done|].
  intros [= _ <-]. exists st. split; [done|]. split.
  { apply (init_loop_tables data [] _ _ Hloop (tables_of_start gc)). }
  cbn [rules symbol_table start_rule]. by rewrite Hrules.
Qed.

(** X6.  The rule table of a grammar that compiles holds the rules in the order
    of their definitions, each once: a rule key defined twice is not
    accepted.  The start rule is the first of them, so a grammar without a
    rule definition does not compile. *)
Theorem compile_rule_table gc data gc' p :
  EBNFParser_init gc data = Ok (gc', p) ->
  map fst (rules p) = lower_keys data
  /\ NoDup (lower_keys data)
  /\ start_rule p = head (lower_keys data)
  /\ lower_keys data <> [].
Proof.
  intros (st & _ & (Hrules & Hnodup & _) & -> & _ & -> & Hne)%compiled_tables.
  rewrite Hrules. repeat split; try done.
  rewrite <- Hrules. by destruct (st_rules st).
Qed.

(** The witness of [compile_rule_table]: the grammar
    [e := t "y" ; t := f ; f := "x" ;]. *)
Lemma compile_rule_table_witness :
  map fst (rules grammar_chain) = lower_keys grammar_chain_text
  /\ NoDup (lower_keys grammar_chain_text)
  /\ start_rule grammar_chain = head (lower_keys grammar_chain_text)
  /\ lower_keys grammar_chain_text <> [].
Proof.
  exact (compile_rule_table ∅ grammar_chain_text ∅ grammar_chain eq_refl).
Defined.

(** X7.  The symbol table of a grammar that compiles: a non-terminal symbol
    under the key of every rule definition, a terminal symbol under the key
    of every terminal definition, each named by its key, and nothing
    else. *)
Theorem compile_symbol_table gc data gc' p k :
  EBNFParser_init gc data = Ok (gc', p) ->
  symbol_table p !! k
  = if bool_decide (k ∈ lower_keys data) then Some (EBNFNonTerminalSymbol k)
    else if bool_decide (k ∈ upper_keys data) then Some (EBNFTerminalSymbol k)
    else None.
Proof.
  intros (st & _ & (_ & _ & Htable) & _ & -> & _)%compiled_tables.
  apply Htable.
Qed.

(** The witness of [compile_symbol_table]: the terminal [A] of the grammar
    [r := A ; A := [a]+ ;]. *)
Lemma compile_symbol_table_witness :
  symbol_table grammar_term !! "A"
  = if bool_decide ("A" ∈ lower_keys grammar_term_text)
    then Some (EBNFNonTerminalSymbol "A")
    else if bool_decide ("A" ∈ upper_keys grammar_term_text)
    then Some (EBNFTerminalSymbol "A")
    else None.
Proof.
  exact (compile_symbol_table ∅ grammar_term_text ∅ grammar_term "A"
           eq_refl).
Defined.

Lemma keys_elem (f : string -> bool) data k :
  k ∈ map key (List.filter (fun d => f (key d)) data) -> f k = true.
Proof.
  intros (d & -> & Hd)%list_elem_of_fmap.
  by apply list_elem_of_In, filter_In in Hd as [_ Hd].
Qed.

Lemma table_of_uncased data k :
  islower k = false -> isupper k = false -> table_of data k = None.
Proof.
  intros Hlower Hupper. unfold table_of.
  rewrite !bool_decide_false; [done| |].
  - intros H%(keys_elem isupper). congruence.
  - intros H%(keys_elem islower). congruence.
Qed.

Lemma init_loop_cased data :
  forall done_ st,
    tables_of done_ st ->
    init_loop st data = init_loop st (List.filter cased data).
Proof.
  induction data as [|d data IH]; intros done_ st Hinv; [done|].
  cbn [List.filter]. unfold cased at 1.
  destruct (islower (key d) || isupper (key d)) eqn:Hcased.
  - cbn [init_loop].
    destruct (init_step st d) as [st1| |] eqn:Hstep; cbn [bind]; [|done|done].
    apply (IH (done_ ++ [d])). by eapply init_step_tables.
  - apply orb_false_elim in Hcased as [Hlower Hupper].
    cbn [init_loop].
    assert (Hstep : init_step st d = Ok st).
    { unfold init_step. destruct Hinv as (_ & _ & Htable).
      rewrite Htable, (table_of_uncased _ _ Hlower Hupper).
      rewrite bool_decide_false by (by intros [? ?]).
      by rewrite Hlower, Hupper. }
    rewrite Hstep. cbn [bind]. by apply (IH done_).
Qed.

(** X8.  A definition whose key is neither all lower case nor all upper
    case is passed over without a word: the grammar compiles as it does
    with the definition taken out. *)
Theorem compile_ignores_uncased gc data :
  EBNFParser_init gc data = EBNFParser_init gc (List.filter cased data).
Proof.
  unfold EBNFParser_init.
  by rewrite (init_loop_cased data [] _ (tables_of_start gc)).
Qed.

Lemma init_loop_stores data :
  forall done_ st st',
    init_loop st data = Ok st' ->
    tables_of done_ st ->
    (forall d, d ∈ done_ -> islower (key d) = true ->
       exists g g',
         make_parser_node g (key d) (ebnf_tokens d) None
         = Ok (g', rules_get (st_rules st) (key d), [])) ->
    forall d, d ∈ done_ ++ data -> islower (key d) = true ->
      exists g g',
        make_parser_node g (key d) (ebnf_tokens d) None
        = Ok (g', rules_get (st_rules st') (key d), []).
Proof.
  induction data as [|d data IH]; intros done_ st st'.
  - intros [= <-] _ Hdone. by rewrite app_nil_r.
  - cbn [init_loop].
    destruct (init_step st d) as [st1| |] eqn:Hstep; cbn [bind]; [|done|done].
    intros Hloop Hinv Hdone.
    replace (done_ ++ d :: data) with ((done_ ++ [d]) ++ data)
      by (by rewrite <- app_assoc).
    apply (IH _ st1 st' Hloop); [by eapply init_step_tables|].
    pose proof Hinv as (_ & _ & Htable).
    apply init_step_ok in Hstep as [Hfresh Hcases].
    rewrite Htable in Hfresh. apply table_of_none in Hfresh as [Hlo Hup].
    intros d' [Hd'|Hd']%elem_of_app Hlower'.
    + destruct (Hdone d' Hd' Hlower') as (g & g' & Hnode).
      exists g, g'. rewrite Hnode. do 3 f_equal.
      destruct Hcases as [(Hlower & root & _ & _ & ->)
                         |[(_ & _ & _ & ->)|(_ & _ & ->)]]; try done.
      rewrite rules_get_set, bool_decide_false; [done|].
      intros Heq. apply Hlo. rewrite Heq. unfold lower_keys.
      apply list_elem_of_fmap. exists d'. split; [done|].
      apply list_elem_of_In, filter_In. split; [|done].
      by apply list_elem_of_In.
    + apply list_elem_of_singleton in Hd' as ->.
      destruct Hcases as [(Hlower & root & Hnode & _ & ->)
                         |[(Hlower & _)|(Hlower & _)]]; try congruence.
      exists (st_groupcount st), (st_groupcount st1). rewrite Hnode.
      by rewrite rules_get_set, bool_decide_true.
Qed.

(** X9.  Every rule of a grammar that compiles is stored as the tree the
    builder returns for the meta-tokens of its definition, and the builder
    consumed all of them; an empty body is stored as None. *)
Theorem compile_stores_builder_tree gc data gc' p d :
  EBNFParser_init gc data = Ok (gc', p) ->
  d ∈ data ->
  islower (key d) = true ->
  exists g g',
    make_parser_node g (key d) (ebnf_tokens d) None
    = Ok (g', rules_get (rules p) (key d), []).
Proof.
  intros (st & Hloop & _ & -> & _)%compiled_tables Hd Hlower.
  apply (init_loop_stores data [] _ _ Hloop (tables_of_start gc)); [|done..].
  intros d' Hd'. by apply elem_of_nil in Hd'.
Qed.

(** The witness of [compile_stores_builder_tree]: the rule [t := f ;] of the
    grammar [e := t "y" ; t := f ; f := "x" ;]. *)
Lemma compile_stores_builder_tree_witness :
  exists g g',
    make_parser_node g "t" [meta RULE "f"] None
    = Ok (g', rules_get (rules grammar_chain) "t", []).
Proof.
  exact (compile_stores_builder_tree ∅ grammar_chain_text ∅ grammar_chain
           (rule "t" [meta RULE "f"]) eq_refl
           ltac:(apply list_elem_of_further, list_elem_of_here) eq_refl).
Defined.

(** X10.  A key that an earlier definition of the grammar has, as a rule or as
    a terminal, is not accepted a second time: the grammar does not
    compile, and when the definitions before the second one compile, the
    error is [SyntaxError] "rule for ... already exists". *)
Theorem duplicate_key_rejected gc pre d post :
  key d ∈ map key (List.filter cased pre) ->
  (exists e, EBNFParser_init gc (pre ++ d :: post) = Raise e)
  /\ (forall st,
        init_loop (init_start gc) pre = Ok st ->
        EBNFParser_init gc (pre ++ d :: post)
        = Raise (SyntaxError (RuleAlreadyExists (key d)))).
Proof.
  intros Hdup.
  assert (Hraise : forall st,
             init_loop (init_start gc) pre = Ok st ->
             EBNFParser_init gc (pre ++ d :: post)
             = Raise (SyntaxError (RuleAlreadyExists (key d)))).
  { intros st Hloop. unfold EBNFParser_init.
    rewrite init_loop_app, Hloop. cbn [bind init_loop].
    destruct (init_loop_tables pre [] _ _ Hloop (tables_of_start gc))
      as (_ & _ & Htable).
    unfold init_step. rewrite Htable. cbn [app]. unfold table_of.
    apply list_elem_of_fmap in Hdup as (d' & Hkey & Hd').
    apply list_elem_of_In, filter_In in Hd' as [Hd' Hcased'].
    apply list_elem_of_In in Hd'. unfold cased in Hcased'.
    assert (Hin : forall f, f (key d') = true ->
                    key d ∈ map key (List.filter (fun x => f (key x)) pre)).
    { intros f Hf. apply list_elem_of_fmap. exists d'. split; [done|].
      apply list_elem_of_In, filter_In. split; [|done].
      by apply list_elem_of_In. }
    destruct (islower (key d')) eqn:Hlower.
    - rewrite (bool_decide_true (key d ∈ lower_keys pre)) by by apply Hin.
      by rewrite bool_decide_true by eauto.
    - cbn [orb] in Hcased'.
      destruct (bool_decide (key d ∈ lower_keys pre));
        [by rewrite bool_decide_true by eauto|].
      rewrite (bool_decide_true (key d ∈ upper_keys pre)) by by apply Hin.
      by rewrite bool_decide_true by eauto. }
  split; [|exact Hraise].
  pose proof (init_loop_total pre (init_start gc)) as Htotal.
  destruct (init_loop (init_start gc) pre) as [st|e|] eqn:Hloop; [|..|done].
  - eexists. by apply (Hraise st).
  - exists e. unfold EBNFParser_init. by rewrite init_loop_app, Hloop.
Qed.

(** The witness of [duplicate_key_rejected]: the grammar
    [r := "a" ; r := "b" ;]. *)
Lemma duplicate_key_rejected_witness :
  (exists e,
      EBNFParser_init ∅ ([rule "r" [meta LITERAL "a"]]
                           ++ rule "r" [meta LITERAL "b"] :: []) = Raise e)
  /\ (forall st,
        init_loop (init_start ∅) [rule "r" [meta LITERAL "a"]] = Ok st ->
        EBNFParser_init ∅ ([rule "r" [meta LITERAL "a"]]
                             ++ rule "r" [meta LITERAL "b"] :: [])
        = Raise (SyntaxError (RuleAlreadyExists "r"))).
Proof.
  exact (duplicate_key_rejected ∅ [rule "r" [meta LITERAL "a"]]
           (rule "r" [meta LITERAL "b"]) []
           ltac:(apply list_elem_of_here)).
Defined.

(** ** The tokens a tree accounts for *)

Lemma returns_and {A} (P Q : A -> Prop) r :
  returns P r -> returns Q r -> returns (fun a => P a /\ Q a) r.
Proof. intros HP HQ a Ha. split; [by apply HP | by apply HQ]. Qed.

Lemma yields_nil tokens rest : rest `suffix_of` tokens -> yields [] tokens rest.
Proof.
  intros [used ->]. exists used, []. repeat split; try done.
  apply sublist_nil_l.
Qed.

Lemma yields_suffix found tokens rest :
  yields found tokens rest -> rest `suffix_of` tokens.
Proof. intros (used & ts & -> & _). by exists used. Qed.

Lemma yields_app f1 f2 tokens mid rest :
  yields f1 tokens mid -> yields f2 mid rest -> yields (f1 ++ f2) tokens rest.
Proof.
  intros (u1 & t1 & -> & Hl1 & Hs1 & Hn1 & Hx1)
         (u2 & t2 & -> & Hl2 & Hs2 & Hn2 & Hx2).
  exists (u1 ++ u2), (t1 ++ t2). repeat split.
  - by rewrite app_assoc.
  - by rewrite flat_map_app, Hl1, Hl2, map_app.
  - by apply sublist_app.
  - intros Hne Hu. apply app_eq_nil in Hu as [-> ->].
    destruct f1; [destruct f2; [done|] |]; [by apply Hn2 | by apply Hn1].
  - by rewrite forallb_app, Hx1, Hx2.
Qed.

Lemma yields_more found tokens mid rest :
  yields found tokens mid -> rest `suffix_of` mid -> yields found tokens rest.
Proof.
  intros H1 H2. rewrite <- (app_nil_r found).
  eapply yields_app; [exact H1 | by apply yields_nil].
Qed.

Lemma yields_ate first tail : yields [ate first] (first :: tail) tail.
Proof. exists [first], [first]. by repeat split. Qed.

(** A node with children stands for its children. *)
Lemma yields_wrap c tokens rest :
  yields (cst_children c) tokens rest ->
  has_lexeme c = true -> cst_children c <> [] ->
  yields [c] tokens rest.
Proof.
  intros (used & ts & -> & Hl & Hs & Hn & Hx) Hc Hne.
  exists used, ts. repeat split; try done.
  - destruct c as [tk [|k kids]]; [done|].
    cbn [flat_map]. rewrite app_nil_r. exact Hl.
  - intros _. by apply Hn.
  - cbn. by rewrite Hc.
Qed.

Section Yield.

Variable self : EBNFParser.
Variable m : EBNFNode -> list Token -> nat -> result outcome.
Hypothesis roots : roots_ok (rules self).
Hypothesis m_kept : forall pn tokens i, returns (kept tokens) (m pn tokens i).
Hypothesis m_grown :
  forall pn tokens i, returns (grown pn tokens) (m pn tokens i).

Lemma grown_sequence_loop i orig expected :
  forall ok found tokens,
    yields found orig tokens ->
    returns (fun r => yields r.1.2 orig r.2)
      (match_sequence_loop m i orig expected ok found tokens).
Proof.
  induction expected as [|this expected IH]; intros ok found tokens Hy.
  - cbn [match_sequence_loop]. destruct ok; [|done]. by apply returns_ok.
  - cbn [match_sequence_loop]. destruct tokens as [|t tokens].
    { destruct (oneormore this); [done|]. apply returns_ok.
      by apply yields_nil. }
    eapply returns_bind; [apply returns_and; [apply m_kept|apply m_grown]|].
    intros [[ok' node] tokens'] [(_ & Hs & _) Hg]. cbn in Hs, Hg.
    destruct node as [n|].
    + eapply returns_bind with (P := fun _ => True); [done|]. intros _ _.
      apply IH. eapply yields_app; [exact Hy | apply Hg].
    + apply returns_ok. by eapply yields_more.
Qed.

Lemma grown_sequence nm originals tokens i :
  returns (fun r => yields r.1.2 tokens r.2)
    (match_sequence m nm originals tokens i).
Proof. apply grown_sequence_loop. by apply yields_nil. Qed.

Lemma grown_optional pn tokens i :
  returns (fun o => from_option (fun n => yields (cst_children n) tokens o.2)
                      True o.1.2)
    (match_optional m pn tokens i).
Proof.
  unfold match_optional. eapply returns_bind; [apply grown_sequence|].
  intros [[[] kids] tokens'] Hy; by apply returns_ok.
Qed.

Lemma grown_one_or_more_loop n nm expected i orig :
  forall acc ok kids tokens mid,
    yields acc orig mid -> yields kids mid tokens ->
    returns (fun r => yields r.1 orig r.2)
      (match_one_or_more_loop m n nm expected i acc ok kids tokens).
Proof.
  induction n as [|n IH]; intros acc ok kids tokens mid Ha Hk.
  - cbn [match_one_or_more_loop]. destruct ok; [done|].
    apply returns_ok. eapply yields_more; [exact Ha|].
    by eapply yields_suffix.
  - cbn [match_one_or_more_loop]. destruct ok.
    + eapply returns_bind; [apply grown_sequence|].
      intros [[ok' kids'] tokens'] Hy. cbn in Hy.
      apply (IH _ _ _ _ tokens); [by eapply yields_app | done].
    + apply returns_ok. eapply yields_more; [exact Ha|].
      by eapply yields_suffix.
Qed.

Lemma grown_one_or_more n pn tokens i :
  returns (fun o => from_option (fun n => yields (cst_children n) tokens o.2)
                      True o.1.2)
    (match_one_or_more m n pn tokens i).
Proof.
  unfold match_one_or_more. eapply returns_bind; [apply grown_sequence|].
  intros [[ok kids] tokens1] Hy. cbn in Hy.
  destruct (negb ok); [done|].
  eapply returns_bind.
  { apply (grown_one_or_more_loop n _ _ i tokens [] ok kids tokens1 tokens);
      [by apply yields_nil | done]. }
  intros [[|a acc] tokens2] Hy2; by apply returns_ok.
Qed.

Lemma grown_repeating_loop n nm expected i orig :
  forall acc tokens,
    yields acc orig tokens ->
    returns (fun r => yields r.1 orig r.2)
      (match_repeating_loop m n nm expected i acc tokens).
Proof.
  induction n as [|n IH]; intros acc tokens Ha; [done|].
  cbn [match_repeating_loop].
  eapply returns_bind; [apply grown_sequence|].
  intros [[[] addends] tokens'] Hy; cbn in Hy.
  - apply IH. by eapply yields_app.
  - apply returns_ok. eapply yields_more; [exact Ha|].
    by eapply yields_suffix.
Qed.

Lemma grown_repeating n pn tokens i :
  returns (fun o => from_option (fun n => yields (cst_children n) tokens o.2)
                      True o.1.2)
    (match_repeating m n pn tokens i).
Proof.
  unfold match_repeating. eapply returns_bind.
  { apply (grown_repeating_loop n _ _ i tokens [] tokens).
    by apply yields_nil. }
  intros [[|a acc] tokens'] Hy; by apply returns_ok.
Qed.

Lemma grown_alternate_loop nm i tokens alternates :
  returns (fun r => from_option (fun fr => yields fr.1 tokens fr.2) True r)
    (match_alternate_loop m nm i tokens alternates).
Proof.
  induction alternates as [|alt alternates IH]; [by apply returns_ok|].
  cbn [match_alternate_loop].
  pose proof (grown_sequence nm alt tokens (S i)) as H.
  destruct (match_sequence m nm alt tokens (S i)) as [[[[] found] rest]|[]|];
    try done.
  apply returns_ok. exact (H _ eq_refl).
Qed.

Lemma grown_alternate pn tokens i :
  returns (fun o => from_option (fun n => yields (cst_children n) tokens o.2)
                      True o.1.2)
    (match_alternate m pn tokens i).
Proof.
  unfold match_alternate.
  destruct tokens as [|t tokens]; [by apply returns_ok|].
  eapply returns_bind; [apply grown_alternate_loop|].
  intros [[found rest]|] H; by apply returns_ok.
Qed.

Lemma grown_finish node_token kids child tokens tokens' :
  yields kids tokens tokens' ->
  from_option (fun n => yields (cst_children n) tokens tokens') True child ->
  kids = [] \/ child = None ->
  let o := finish_nonterminal node_token kids child tokens' in
  grown_node o.1.2 tokens o.2.
Proof.
  intros Hk Hc Hor. unfold finish_nonterminal.
  destruct child as [c|].
  - destruct Hor as [->|]; [|done]. cbn [app]. cbn in Hc.
    destruct (cst_children c); [done|]. by repeat split.
  - destruct kids; [done|]. by repeat split.
Qed.

Lemma grown_nonterminal n pn tokens i :
  returns (fun o => grown_node o.1.2 tokens o.2)
    (match_nonterminal self m n pn tokens i).
Proof.
  unfold match_nonterminal.
  destruct (symbol_table self !! _) as [sym|]; [|done].
  destruct tokens as [|t tokens]; [by apply returns_ok|].
  assert (Hnil : yields [] (t :: tokens) (t :: tokens)) by by apply yields_nil.
  destruct (alternate pn).
  { eapply returns_bind;
      [apply returns_and; [by apply kept_alternate|apply grown_alternate]|].
    intros [[ok child] tokens'] [(_ & Hs & _) Hg]. apply returns_ok.
    apply grown_finish; [by apply yields_nil | done | by left]. }
  destruct (repeating pn).
  { eapply returns_bind;
      [apply returns_and; [by apply kept_repeating|apply grown_repeating]|].
    intros [[ok child] tokens'] [(_ & Hs & _) Hg]. apply returns_ok.
    apply grown_finish; [by apply yields_nil | done | by left]. }
  destruct (optional pn).
  { eapply returns_bind;
      [apply returns_and; [by apply kept_optional|apply grown_optional]|].
    intros [[ok child] tokens'] [(_ & Hs & _) Hg]. apply returns_ok.
    apply grown_finish; [by apply yields_nil | done | by left]. }
  destruct (oneormore pn).
  { eapply returns_bind;
      [apply returns_and; [by apply kept_one_or_more|apply grown_one_or_more]|].
    intros [[ok child] tokens'] [(_ & Hs & _) Hg].
    destruct (negb ok); [done|]. apply returns_ok.
    apply grown_finish; [by apply yields_nil | done | by left]. }
  destruct (symbol_eq (symbol (token pn)) SEQUENCE); [|done].
  eapply returns_bind; [apply grown_sequence|].
  intros [[ok found] tokens'] Hy. apply returns_ok.
  apply grown_finish; [done | done | by right].
Qed.

Lemma grown_rule rule tokens i :
  returns (fun o => grown_node o.1.2 tokens o.2)
    (match_rule self m rule tokens i).
Proof.
  unfold match_rule.
  destruct (rules_get (rules self) rule) as [pn|] eqn:Hpn; [|done].
  destruct (negb (ebnf (token pn))); [done|].
  eapply returns_bind; [apply m_grown|].
  intros [[ok node] tokens'] Hg.
  assert (Hnode : grown_node node tokens tokens').
  { unfold grown in Hg. cbn in Hg. destruct node as [c|]; [|done].
    destruct Hg as [Hy Hc]. split; [done|]. apply Hc. by eapply roots. }
  destruct i; [destruct tokens'|]; by try apply returns_ok.
Qed.

Lemma grown_terminal pn tokens i :
  returns (fun o => from_option (fun n => yields (cst_children n) tokens o.2)
                      True o.1.2)
    (match_terminal self m pn tokens i).
Proof.
  unfold match_terminal.
  destruct tokens as [|first tail]; [by apply returns_ok|].
  destruct (symbol_eq (symbol (token pn)) RULE).
  { eapply returns_bind;
      [apply returns_and; [apply kept_rule; apply m_kept|apply grown_rule]|].
    intros [[ok child] tokens'] [(_ & Hs & _) Hg]. cbn in Hs, Hg.
    apply returns_ok. cbn.
    destruct child as [c|]; [|by apply yields_nil].
    destruct Hg as (Hy & Hc & Hne).
    destruct (collapse_tree self), (cst_children c) as [|? [|? ?]] eqn:Hkids;
      try done; by apply yields_wrap; rewrite ?Hkids. }
  destruct (symbol_eq (symbol (token pn)) LITERAL).
  - destruct (bool_decide _); apply returns_ok; [apply yields_ate | done].
  - destruct (bool_decide _); apply returns_ok; [apply yields_ate | done].
Qed.

Lemma grown_body n pn tokens i :
  returns (grown pn tokens) (match_body self m n pn tokens i).
Proof.
  unfold match_body. destruct tokens as [|t tokens].
  { by destruct (negb _). }
  destruct (is_terminal (symbol (token pn))) eqn:Hterm.
  - intros o Ho. pose proof (grown_terminal pn _ i o Ho) as H.
    unfold grown. destruct o as [[ok [c|]] rest]; [|done]. split; [done|].
    cbn. congruence.
  - intros o Ho. pose proof (grown_nonterminal n pn _ i o Ho) as H.
    unfold grown. destruct o as [[ok [c|]] rest]; [|done].
    destruct H as (Hy & Hc & Hne). by split.
Qed.

End Yield.

Lemma match_grown self turns depth :
  roots_ok (rules self) ->
  forall pn tokens i,
    returns (grown pn tokens) (match_ self turns depth pn tokens i).
Proof.
  intros Hroots. induction depth as [|depth IH]; intros pn tokens i; [done|].
  rewrite match_S. apply grown_body; [done | apply match_kept | done].
Qed.

(** ** Trees the matcher can walk *)

Lemma raises_bind {A B} (P : A -> Prop) allowed r (k : A -> result B) :
  returns P r -> raises_only allowed r ->
  (forall a, P a -> raises_only allowed (k a)) ->
  raises_only allowed (bind r k).
Proof.
  intros HP Hr Hk. destruct r as [a|e|]; cbn [bind]; [| |done].
  2: { intros e' [= <-]. by apply Hr. }
  apply Hk. by apply HP.
Qed.

Lemma raises_ok {A} allowed (a : A) : raises_only allowed (Ok a).
Proof. done. Qed.

Lemma raises_fuel {A} allowed : raises_only allowed (@OutOfFuel A).
Proof. done. Qed.

Lemma raises_raise {A} (allowed : exn -> bool) e :
  allowed e = true -> raises_only allowed (@Raise A e).
Proof. by intros H ? [= <-]. Qed.

Lemma EBNFNode_forall_ind (P : EBNFNode -> Prop) :
  (forall tk kids, Forall P kids -> P (mkEBNFNode tk kids)) ->
  forall n, P n.
Proof.
  intros H. fix IH 1. intros [tk kids]. apply H.
  induction kids as [|k kids IHkids]; constructor; [apply IH | exact IHkids].
Qed.

Lemma built_sound table key :
  is_Some (table !! key) ->
  forall n, built key n = true -> sound table n = true.
Proof.
  intros Hkey. induction n as [tk kids IH] using EBNFNode_forall_ind.
  cbn [built sound]. destruct (is_terminal (symbol tk)); [done|].
  cbn [orb]. intros Hb.
  apply andb_prop in Hb as [Hb Hkids]. apply andb_prop in Hb as [Hb Hkind].
  apply andb_prop in Hb as [_ Hname].
  apply bool_decide_eq_true in Hname, Hkind.
  rewrite Hname. rewrite !bool_decide_true; [|done|].
  - cbn [andb]. apply forallb_forall. intros k Hk.
    rewrite Forall_forall in IH. rewrite forallb_forall in Hkids.
    apply IH; [by apply list_elem_of_In | by apply Hkids].
  - by apply list_elem_of_further.
Qed.

Lemma rules_get_key rs k root :
  rules_get rs k = Some root -> k ∈ map fst rs.
Proof.
  induction rs as [|[k1 v1] rs IH]; [done|].
  cbn [rules_get map fst]. case_bool_decide as Hk.
  - subst k1. intros _. apply list_elem_of_here.
  - intros H. by apply list_elem_of_further, IH.
Qed.

(** The trees in the rule table of the loop of [__init__]. *)
Lemma init_loop_built data :
  Forall (fun d => lexed (ebnf_tokens d) = true) data ->
  forall st st',
    init_loop st data = Ok st' ->
    (forall k root, rules_get (st_rules st) k = Some root ->
                    built_root None k root) ->
    forall k root, rules_get (st_rules st') k = Some root ->
                   built_root None k root.
Proof.
  induction 1 as [|d data Hd _ IH]; intros st st'; [by intros [= <-]|].
  cbn [init_loop].
  destruct (init_step st d) as [st1| |] eqn:Hstep; cbn [bind]; [|done|done].
  intros Hloop Hrules. apply (IH st1 st' Hloop).
  apply init_step_ok in Hstep as [_ Hcases].
  destruct Hcases as [(Hlower & root & Hnode & _ & ->)
                     |[(_ & _ & _ & ->)|(_ & _ & ->)]]; try done.
  intros k root'. rewrite rules_get_set.
  case_bool_decide as Hk; [|apply Hrules].
  intros ->. subst k. unfold make_parser_node in Hnode.
  by destruct (proj1 (builder_built _) _ _ _ _ _ _ _ Hd Hnode).
Qed.

Lemma islower_nonempty k : islower k = true -> k <> "".
Proof. by intros H ->. Qed.

Lemma lower_keys_elem data k :
  k ∈ lower_keys data ->
  exists d, d ∈ data /\ key d = k /\ islower k = true.
Proof.
  unfold lower_keys. intros (d & -> & Hd)%list_elem_of_fmap.
  apply list_elem_of_In, filter_In in Hd as [Hd Hlower].
  exists d. split; [by apply list_elem_of_In | done].
Qed.

Lemma root_kind_nonterminal s :
  s ∈ root_kinds None -> is_terminal s = false /\ s ∈ node_kinds.
Proof.
  unfold root_kinds, node_kinds, group_kinds. intros H.
  repeat (apply elem_of_cons in H as [->|H]);
    [split; [done|] .. | by apply elem_of_nil in H].
  - apply list_elem_of_further, list_elem_of_here.
  - apply list_elem_of_here.
Qed.

(** A grammar of meta-tokens with terminal symbols and rule keys without a
    dash compiles to trees [match] can walk. *)
Lemma lexed_grammar_forall data :
  lexed_grammar data = true ->
  Forall (fun d => lexed (ebnf_tokens d) = true) data.
Proof.
  unfold lexed_grammar. rewrite forallb_forall, Forall_forall.
  intros H d Hd. by apply H, list_elem_of_In.
Qed.

Lemma plain_keys_elem data d :
  plain_keys data = true -> d ∈ data -> islower (key d) = true ->
  split_dash (key d) = key d.
Proof.
  unfold plain_keys. rewrite forallb_forall.
  intros H Hd%list_elem_of_In Hlower. apply H in Hd.
  rewrite Hlower in Hd. by apply bool_decide_eq_true in Hd.
Qed.

Lemma compiled_fit gc data gc' p b :
  EBNFParser_init gc data = Ok (gc', p) ->
  lexed_grammar data = true ->
  plain_keys data = true ->
  rules_fit (set_collapse b p).
Proof.
  intros (st & Hloop & (Hkeys & _ & Htable) & Hrules & Htab & _)%compiled_tables
    Hlex%lexed_grammar_forall Hplain' k root.
  pose proof (plain_keys_elem data) as Hplain.
  specialize (fun d => Hplain d Hplain').
  cbn [set_collapse rules symbol_table]. rewrite Hrules, Htab. intros Hroot.
  assert (Hbuilt : built_root None k root).
  { by apply (init_loop_built data Hlex _ _ Hloop). }
  destruct Hbuilt as (Hebnf & Hname & Hkind & Hkids).
  destruct (root_kind_nonterminal _ Hkind) as [Hterm Hnode].
  split; [done|]. split; [done|].
  apply rules_get_key in Hroot. rewrite Hkeys in Hroot.
  destruct (lower_keys_elem _ _ Hroot) as (d & Hd & <- & Hlower).
  assert (Hkey : is_Some (st_symbol_table st !! key d)).
  { rewrite Htable. unfold table_of. by rewrite bool_decide_true by done. }
  rewrite (Hplain d Hd Hlower) in Hkids.
  destruct root as [tk kids]. cbn in Hname, Hterm, Hnode, Hkids |- *.
  rewrite Hterm, Hname, (Hplain d Hd Hlower), !bool_decide_true by done.
  cbn [orb andb]. apply forallb_forall. intros kid Hkid.
  rewrite forallb_forall in Hkids. by apply (built_sound _ (key d)), Hkids.
Qed.

Lemma split_by_or_sound table l :
  forallb (sound table) l = true ->
  Forall (fun alt => forallb (sound table) alt = true) (split_by_or l).
Proof.
  intros Hl. apply Forall_forall. intros alt Halt.
  apply forallb_forall. intros x Hx.
  rewrite forallb_forall in Hl. apply Hl.
  assert (Hin : In x (concat (split_by_or l))).
  { apply in_concat. exists alt. split; [by apply list_elem_of_In | done]. }
  rewrite split_by_or_concat in Hin. by apply filter_In in Hin as [Hin _].
Qed.

Section Errors.

Variable self : EBNFParser.
Variable m : EBNFNode -> list Token -> nat -> result outcome.
Hypothesis fit : rules_fit self.
Hypothesis m_kept : forall pn tokens i, returns (kept tokens) (m pn tokens i).
Hypothesis m_grown :
  forall pn tokens i, returns (grown pn tokens) (m pn tokens i).
Hypothesis m_err :
  forall pn tokens i,
    sound (symbol_table self) pn = true -> tokens <> [] ->
    raises_only matcher_error (m pn tokens i).

Lemma err_sequence_loop i orig expected :
  forallb (sound (symbol_table self)) expected = true ->
  forall ok found tokens,
    raises_only matcher_error
      (match_sequence_loop m i orig expected ok found tokens).
Proof.
  induction expected as [|this expected IH]; intros Hexp ok found tokens.
  - cbn [match_sequence_loop]. by destruct ok; [|apply raises_raise].
  - cbn [forallb] in Hexp. apply andb_prop in Hexp as [Hthis Hexp].
    cbn [match_sequence_loop]. destruct tokens as [|t tokens].
    { by destruct (oneormore this); [apply raises_raise|]. }
    eapply raises_bind; [apply m_grown | by apply m_err |].
    intros [[ok' node] tokens'] Hg. unfold grown in Hg. cbn in Hg.
    destruct node as [n|]; [|done].
    destruct Hg as [(used & ts & _ & _ & _ & _ & Hlex) _].
    unfold token_lexemes. rewrite Hlex. cbn [bind]. by apply IH.
Qed.

Lemma err_sequence nm originals tokens i :
  forallb (sound (symbol_table self)) originals = true ->
  raises_only matcher_error (match_sequence m nm originals tokens i).
Proof. intros H. by apply err_sequence_loop. Qed.

Lemma err_optional pn tokens i :
  forallb (sound (symbol_table self)) (children pn) = true ->
  raises_only matcher_error (match_optional m pn tokens i).
Proof.
  intros H. unfold match_optional.
  eapply raises_bind with (P := fun _ => True); [done|by apply err_sequence|].
  by intros [[[] ?] ?] _.
Qed.

Lemma err_one_or_more_loop n nm expected i :
  forallb (sound (symbol_table self)) expected = true ->
  forall acc ok kids tokens,
    raises_only matcher_error
      (match_one_or_more_loop m n nm expected i acc ok kids tokens).
Proof.
  intros H. induction n as [|n IH]; intros acc ok kids tokens.
  - by destruct ok.
  - cbn [match_one_or_more_loop]. destruct ok; [|done].
    eapply raises_bind with (P := fun _ => True); [done|by apply err_sequence|].
    intros [[ok' kids'] tokens'] _. apply IH.
Qed.

Lemma err_one_or_more n pn tokens i :
  forallb (sound (symbol_table self)) (children pn) = true ->
  raises_only matcher_error (match_one_or_more m n pn tokens i).
Proof.
  intros H. unfold match_one_or_more.
  eapply raises_bind with (P := fun _ => True); [done|by apply err_sequence|].
  intros [[ok kids] tokens1] _. destruct (negb ok); [by apply raises_raise|].
  eapply raises_bind with (P := fun _ => True);
    [done|by apply err_one_or_more_loop|].
  by intros [[|? ?] ?] _.
Qed.

Lemma err_repeating_loop n nm expected i :
  forallb (sound (symbol_table self)) expected = true ->
  forall acc tokens,
    raises_only matcher_error
      (match_repeating_loop m n nm expected i acc tokens).
Proof.
  intros H. induction n as [|n IH]; intros acc tokens; [done|].
  cbn [match_repeating_loop].
  eapply raises_bind with (P := fun _ => True); [done|by apply err_sequence|].
  intros [[[] addends] tokens'] _; [apply IH|done].
Qed.

Lemma err_repeating n pn tokens i :
  forallb (sound (symbol_table self)) (children pn) = true ->
  raises_only matcher_error (match_repeating m n pn tokens i).
Proof.
  intros H. unfold match_repeating.
  eapply raises_bind with (P := fun _ => True);
    [done|by apply err_repeating_loop|].
  by intros [[|? ?] ?] _.
Qed.

Lemma err_alternate_loop nm i tokens alternates :
  Forall (fun alt => forallb (sound (symbol_table self)) alt = true)
    alternates ->
  raises_only matcher_error (match_alternate_loop m nm i tokens alternates).
Proof.
  induction 1 as [|alt alternates Halt _ IH]; [done|].
  cbn [match_alternate_loop].
  pose proof (err_sequence nm alt tokens (S i) Halt) as H.
  destruct (match_sequence m nm alt tokens (S i)) as [[[[] ?] ?]|e|];
    [done|exact IH| |done].
  pose proof (H e eq_refl) as He. destruct e; try done; by apply raises_raise.
Qed.

Lemma err_alternate pn tokens i :
  forallb (sound (symbol_table self)) (children pn) = true ->
  raises_only matcher_error (match_alternate m pn tokens i).
Proof.
  intros H. unfold match_alternate. destruct tokens as [|t tokens]; [done|].
  eapply raises_bind with (P := fun _ => True);
    [done|by apply err_alternate_loop, split_by_or_sound|].
  by intros [[? ?]|] _.
Qed.

Lemma err_nonterminal n pn tokens i :
  sound (symbol_table self) pn = true ->
  is_terminal (symbol (token pn)) = false ->
  raises_only matcher_error (match_nonterminal self m n pn tokens i).
Proof.
  destruct pn as [tk kids]. cbn [sound token]. intros Hsound Hterm.
  rewrite Hterm in Hsound. cbn [orb] in Hsound.
  apply andb_prop in Hsound as [Hsound Hkids].
  apply andb_prop in Hsound as [Hkind Hkey].
  apply bool_decide_eq_true in Hkind, Hkey. destruct Hkey as [sym Hkey].
  unfold match_nonterminal. cbn [token children]. rewrite Hkey.
  destruct tokens as [|t tokens]; [done|].
  assert (Hfin : forall r : result outcome,
             raises_only matcher_error r ->
             raises_only matcher_error (do '(ok, child, tokens') <- r ;
                   Ok (finish_nonterminal
                         (mkToken sym (lexeme tk) (start tk) (end_ tk) false)
                         [] child tokens'))).
  { intros r Hr. eapply raises_bind with (P := fun _ => True); [done|done|].
    by intros [[? ?] ?] _. }
  unfold alternate, repeating, optional, oneormore. cbn [token].
  unfold node_kinds, group_kinds in Hkind.
  repeat (apply elem_of_cons in Hkind as [->|Hkind]);
    [.. | by apply elem_of_nil in Hkind].
  - apply Hfin. by apply err_alternate.
  - change (symbol_eq SEQUENCE ALTERNATING) with false.
    change (symbol_eq SEQUENCE REPEATING) with false.
    change (symbol_eq SEQUENCE OPTIONAL) with false.
    change (symbol_eq SEQUENCE ATLEASTONCE) with false.
    change (symbol_eq SEQUENCE SEQUENCE) with true. cbv iota.
    eapply raises_bind with (P := fun _ => True);
      [done|by apply err_sequence|].
    by intros [[? ?] ?] _.
  - apply Hfin. by apply err_repeating.
  - apply Hfin. by apply err_optional.
  - change (symbol_eq ATLEASTONCE ALTERNATING) with false.
    change (symbol_eq ATLEASTONCE REPEATING) with false.
    change (symbol_eq ATLEASTONCE OPTIONAL) with false.
    change (symbol_eq ATLEASTONCE ATLEASTONCE) with true. cbv iota.
    eapply raises_bind with (P := fun _ => True);
      [done|by apply err_one_or_more|].
    intros [[ok ?] ?] _. by destruct (negb ok); [apply raises_raise|].
Qed.

Lemma err_rule rule tokens i :
  tokens <> [] ->
  raises_only matcher_error (match_rule self m rule tokens (S i)).
Proof.
  intros Hne. unfold match_rule.
  destruct (rules_get (rules self) rule) as [root|] eqn:Hroot;
    [|by apply raises_raise].
  destruct (fit _ _ Hroot) as (Hebnf & _ & Hsound). rewrite Hebnf. cbn [negb].
  eapply raises_bind with (P := fun _ => True); [done|by apply m_err|].
  by intros [[? ?] ?] _.
Qed.

Lemma err_terminal pn tokens i :
  raises_only matcher_error (match_terminal self m pn tokens i).
Proof.
  unfold match_terminal. destruct tokens as [|first tail]; [done|].
  destruct (symbol_eq (symbol (token pn)) RULE).
  { eapply raises_bind with (P := fun _ => True); [done|by apply err_rule|].
    by intros [[? ?] ?] _. }
  destruct (symbol_eq (symbol (token pn)) LITERAL); by destruct (bool_decide _).
Qed.

Lemma err_body n pn tokens i :
  sound (symbol_table self) pn = true -> tokens <> [] ->
  raises_only matcher_error (match_body self m n pn tokens i).
Proof.
  intros Hsound Hne. unfold match_body. destruct tokens as [|t tokens]; [done|].
  destruct (is_terminal (symbol (token pn))) eqn:Hterm;
    [apply err_terminal | by apply err_nonterminal].
Qed.

End Errors.

Lemma rules_fit_roots self : rules_fit self -> roots_ok (rules self).
Proof.
  intros Hfit k root Hroot. by destruct (Hfit k root Hroot) as (_ & ? & _).
Qed.

Lemma match_err self turns depth :
  rules_fit self ->
  forall pn tokens i,
    sound (symbol_table self) pn = true -> tokens <> [] ->
    raises_only matcher_error (match_ self turns depth pn tokens i).
Proof.
  intros Hfit. induction depth as [|depth IH]; intros pn tokens i Hsound Hne.
  { by apply raises_raise. }
  rewrite match_S.
  apply err_body; [done | apply match_grown, rules_fit_roots, Hfit | done..].
Qed.

Lemma compile_rule_table_keys gc data gc' p :
  EBNFParser_init gc data = Ok (gc', p) ->
  exists k, start_rule p = Some k /\ islower k = true.
Proof.
  intros (st & _ & (Hkeys & _) & _ & _ & -> & Hne)%compiled_tables.
  rewrite Hkeys. destruct (lower_keys data) as [|k ks] eqn:Hlower.
  { by destruct (st_rules st). }
  exists k. split; [done|].
  apply (keys_elem islower data). fold (lower_keys data). rewrite Hlower.
  apply list_elem_of_here.
Qed.

Lemma compile_symbol_table_lookup gc data gc' p k :
  EBNFParser_init gc data = Ok (gc', p) ->
  symbol_table p !! k = table_of data k.
Proof.
  intros (st & _ & (_ & _ & Htable) & _ & -> & _)%compiled_tables.
  apply Htable.
Qed.

(** ** The group counter *)

Lemma counted_refl key gc : counted key 0 gc gc.
Proof. split; [lia | done]. Qed.

Lemma counted_increment key gc : counted key 1 gc (increment gc key).
Proof.
  split; [rewrite count_increment; lia|].
  intros k Hk. unfold increment. by rewrite lookup_insert_ne.
Qed.

Lemma counted_trans key n1 n2 g1 g2 g3 :
  counted key n1 g1 g2 -> counted key n2 g2 g3 -> counted key (n1 + n2) g1 g3.
Proof.
  intros [H1 K1] [H2 K2]. split; [lia|].
  intros k Hk. by rewrite K2, K1.
Qed.

Lemma opened_app u v : opened (u ++ v) = opened u + opened v.
Proof. unfold opened. by rewrite List.filter_app, length_app. Qed.

Lemma suffix_not_opener s :
  symbol_in s suffixes = true -> symbol_in s openers = false.
Proof.
  intros H. name_cases H x Hname; by rewrite (symbol_in_ext _ _ _ Hname).
Qed.

(** The builder counts one group under the key of the rule for every
    opening bracket it consumes, and touches no other key. *)
Lemma builder_counts fuel :
  (forall gc nm tokens e g child rest,
      make_parser_node_fuel fuel gc nm tokens e = Ok (g, child, rest) ->
      exists used,
        tokens = used ++ rest /\ counted (split_dash nm) (opened used) gc g)
  /\ (forall gc nm e this tokens g this' rest,
        make_parser_node_loop fuel gc nm e this tokens = Ok (g, this', rest) ->
        exists used,
          tokens = used ++ rest /\ counted (split_dash nm) (opened used) gc g).
Proof.
  induction fuel as [|fuel [IHnode IHloop]]; [by split|].
  split.
  - intros gc nm [|t ts] e g child rest.
    { intros [= <- _ <-]. exists []. split; [done|apply counted_refl]. }
    cbn [make_parser_node_fuel].
    destruct (make_parser_node_loop fuel gc nm e _ (t :: ts))
      as [[[g' this'] rest']| |] eqn:Hloop; cbn [bind]; [|done|done].
    intros [= <- _ <-]. by eapply IHloop.
  - intros gc nm e this [|first tail] g this' rest.
    { intros [= <- _ <-]. exists []. split; [done|apply counted_refl]. }
    assert (Hskip : forall th,
               symbol_in (symbol first) openers = false ->
               make_parser_node_loop fuel gc nm e th tail
               = Ok (g, this', rest) ->
               exists used,
                 first :: tail = used ++ rest
                 /\ counted (split_dash nm) (opened used) gc g).
    { intros th Hopen Hloop.
      destruct (IHloop _ _ _ _ _ _ _ _ Hloop) as (used & -> & Hcount).
      exists (first :: used). split; [done|].
      unfold opened. cbn [List.filter]. by rewrite Hopen. }
    cbn [make_parser_node_loop].
    destruct (symbol_in (symbol first) openers) eqn:Hopen.
    { unfold subscript.
      destruct (groupings (symbol first)) as [closer|]; cbn [bind]; [|done].
      destruct (make_parser_node_fuel fuel _ _ tail _)
        as [[[g2 child] tokens']| |] eqn:Hnode; cbn [bind]; [|done|done].
      destruct (IHnode _ _ _ _ _ _ _ Hnode) as (used1 & -> & Hcount1).
      rewrite split_dash_group_name in Hcount1.
      assert (Hnext : forall th,
                 make_parser_node_loop fuel g2 nm e th tokens'
                 = Ok (g, this', rest) ->
                 exists used,
                   first :: used1 ++ tokens' = used ++ rest
                   /\ counted (split_dash nm) (opened used) gc g).
      { intros th Hloop.
        destruct (IHloop _ _ _ _ _ _ _ _ Hloop) as (used2 & -> & Hcount2).
        exists (first :: used1 ++ used2).
        split; [cbn [app]; by rewrite app_assoc|].
        replace (opened (first :: used1 ++ used2))
          with (1 + opened used1 + opened used2).
        - eapply counted_trans; [|exact Hcount2].
          eapply counted_trans; [apply counted_increment | exact Hcount1].
        - change (first :: used1 ++ used2)
            with ([first] ++ used1 ++ used2).
          rewrite !opened_app. unfold opened at 3. cbn [List.filter].
          by rewrite Hopen. }
      destruct child as [c|]; [|apply Hnext].
      destruct (SEQ_MAP (symbol first)); cbn [bind]; [apply Hnext | done]. }
    destruct (symbol_in (symbol first) closers) eqn:Hclose.
    { destruct (differs e (symbol first)); [by destruct e|].
      assert (Hone : exists used,
                 first :: tail = used ++ tail
                 /\ counted (split_dash nm) (opened used) gc gc).
      { exists [first]. split; [done|]. unfold opened. cbn [List.filter].
        rewrite Hopen. apply counted_refl. }
      destruct tail as [|second tail']; [by intros [= <- _ <-]|].
      destruct (symbol_in (symbol first) [ENDREPEAT; ENDOPTION]
                && symbol_in (symbol second) suffixes); [done|].
      destruct (symbol_in (symbol second) suffixes) eqn:Hsfx;
        [|by intros [= <- _ <-]].
      unfold subscript.
      destruct (SUFFIX_MAP (symbol second)); cbn [bind]; [|done].
      intros [= <- _ <-]. exists [first; second]. split; [done|].
      unfold opened. cbn [List.filter].
      rewrite Hopen, (suffix_not_opener _ Hsfx). apply counted_refl. }
    destruct (symbol_eq (symbol first) OR); by apply Hskip.
Qed.

(** X11.  [make_parser_node] counts in [groupcount] one group for every opening
    bracket among the tokens it consumed, under the name of the rule up to
    its first dash, and leaves the counts of all other names as they
    were. *)
Theorem make_parser_node_counts_groups gc nm tokens e g root rest :
  make_parser_node gc nm tokens e = Ok (g, root, rest) ->
  exists used,
    tokens = used ++ rest
    /\ count g (split_dash nm) = count gc (split_dash nm) + opened used
    /\ forall k, k <> split_dash nm -> g !! k = gc !! k.
Proof.
  unfold make_parser_node. intros Hnode.
  destruct (proj1 (builder_counts _) _ _ _ _ _ _ _ Hnode)
    as (used & Htokens & Hcount & Hother).
  by exists used.
Qed.

(** The witness of [make_parser_node_counts_groups]: the body [( "a" ) *]. *)
Lemma make_parser_node_counts_groups_witness :
  exists used,
    body_group_star = used ++ []
    /\ count {["r" := 1]} (split_dash "r")
       = count ∅ (split_dash "r") + opened used
    /\ forall k,
         k <> split_dash "r" ->
         ({["r" := 1]} : gmap string nat) !! k = (∅ : gmap string nat) !! k.
Proof.
  exact (make_parser_node_counts_groups ∅ "r" body_group_star None
           {["r" := 1]} _ [] eq_refl).
Defined.

(** ** What [match] and [parse] return *)

(** X12.  Every call of [match] that returns keeps the return contract: [ok] is
    true exactly when a node comes back, and the tokens that come back are
    a tail of the tokens that went in.  When no node comes back, or a node
    without children, tokens are left. *)
Theorem match_return_contract self turns depth pn tokens i ok node rest :
  match_ self turns depth pn tokens i = Ok (ok, node, rest) ->
  (ok = true <-> is_Some node)
  /\ (exists used, tokens = used ++ rest)
  /\ (childless node = true -> rest <> []).
Proof.
  intros (Hok & Hsuffix & Hleft)%match_kept. cbn in Hok, Hsuffix, Hleft.
  split; [|by split].
  rewrite Hok. split; [by intros ?%bool_decide_eq_true|].
  intros H. by apply bool_decide_eq_true.
Qed.

(** The witness of [match_return_contract]: the leaf ["a"] over the tokens
    [a c]. *)
Lemma match_return_contract_witness :
  (true = true
   <-> is_Some (Some (mkCSTNode (Lexeme "a") [ate (lit "a")])))
  /\ (exists used, [lit "a"; lit "c"] = used ++ [lit "c"])
  /\ (childless (Some (mkCSTNode (Lexeme "a") [ate (lit "a")])) = true ->
      [lit "c"] <> []).
Proof.
  exact (match_return_contract grammar_ab 9 1 (leaf LITERAL "a")
           [lit "a"; lit "c"] 2 _ _ _ eq_refl).
Defined.

(** X13.  [parse] has one way of returning: with [ok] true, a node that has
    children, and no token left.  Whatever else happens to a parse ends in
    an exception. *)
Theorem parse_returns_only_success self turns depth tokens ok node rest :
  parse self turns depth tokens = Ok (ok, node, rest) ->
  ok = true /\ rest = []
  /\ exists tk kid kids, node = Some (mkCSTNode tk (kid :: kids)).
Proof.
  unfold parse.
  destruct (start_rule self) as [[|c start]|]; [done| |done].
  unfold match_rule.
  destruct (rules_get (rules self) _) as [root|]; [|done].
  destruct (negb (ebnf (token root))); [done|].
  destruct (match_ self turns depth root tokens 1)
    as [[[ok' node'] rest']| |] eqn:Hmatch; cbn [bind]; [|done|done].
  destruct rest' as [|t rest']; [|done]. intros [= <- <- <-].
  apply match_kept in Hmatch as (Hok & _ & Hleft). cbn in Hok, Hleft.
  destruct node' as [[tk [|kid kids]]|]; try (by destruct Hleft).
  split; [|split; [done|by eauto]].
  rewrite Hok. by apply bool_decide_eq_true.
Qed.

(** The witness of [parse_returns_only_success]: the grammar [r := "a" "b" ;]
    over the tokens [a b]. *)
Lemma parse_returns_only_success_witness :
  true = true /\ @nil Token = []
  /\ exists tk kid kids,
      Some (mkCSTNode (Tok (mkToken (EBNFNonTerminalSymbol "r") "r" 0 0 false))
              [ate (lit "a"); ate (lit "b")])
      = Some (mkCSTNode tk (kid :: kids)).
Proof.
  exact (parse_returns_only_success grammar_ab 9 3 [lit "a"; lit "b"]
           _ _ _ eq_refl).
Defined.

(** X14.  The tree a parse returns for a grammar that compiles is a tree of the
    input: its root is built around a token, and its leaves are tokens of
    the input, in the order of the input. *)
Theorem parse_tree_of_input gc data gc' p b turns depth tokens ok node rest :
  EBNFParser_init gc data = Ok (gc', p) ->
  parse (set_collapse b p) turns depth tokens = Ok (ok, node, rest) ->
  exists n ts,
    node = Some n /\ has_lexeme n = true
    /\ leaves n = map Tok ts /\ ts `sublist_of` tokens.
Proof.
  intros Hroots%compiled_roots. unfold parse.
  destruct (start_rule (set_collapse b p)) as [[|c start]|]; [done| |done].
  unfold match_rule.
  destruct (rules_get (rules (set_collapse b p)) _) as [root|] eqn:Hroot;
    [|done].
  destruct (negb (ebnf (token root))); [done|].
  destruct (match_ (set_collapse b p) turns depth root tokens 1)
    as [[[ok' node'] rest']| |] eqn:Hmatch; cbn [bind]; [|done|done].
  destruct rest' as [|t rest']; [|done]. intros [= <- <- <-].
  pose proof Hmatch as (_ & _ & Hleft)%match_kept.
  apply (match_grown (set_collapse b p) _ _ Hroots) in Hmatch.
  unfold grown in Hmatch.
  cbn in Hleft, Hmatch.
  destruct node' as [n|]; [|by destruct Hleft].
  destruct Hmatch as [(used & ts & Htokens & Hleaves & Hsub & _) Hnode].
  destruct (Hnode (Hroots _ _ Hroot)) as [Hlex Hkids].
  exists n, ts. rewrite app_nil_r in Htokens. subst used.
  repeat split; try done.
  destruct n as [tk [|kid kids]]; [done|]. exact Hleaves.
Qed.

(** The witness of [parse_tree_of_input]: the grammar
    [e := t "y" ; t := f ; f := "x" ;] over the tokens [x y]. *)
Lemma parse_tree_of_input_witness :
  exists n ts,
    Some (mkCSTNode (Tok (mkToken (EBNFNonTerminalSymbol "e") "e" 0 0 false))
            [ate (lit "x"); ate (lit "y")]) = Some n
    /\ has_lexeme n = true
    /\ leaves n = map Tok ts /\ ts `sublist_of` [lit "x"; lit "y"].
Proof.
  exact (parse_tree_of_input ∅ grammar_chain_text ∅ grammar_chain true 9 9
           [lit "x"; lit "y"] _ _ _ eq_refl eq_refl).
Defined.

(** ** The errors of a parse *)

(** X15.  For a grammar that compiles, with meta-tokens of [EBNFTokenizer] and
    rule keys without a dash, a parse of at least one token raises nothing
    but: the [SyntaxError]s "No rule for", "Missing group", "Expected ... and
    found nothing" and "Did not find required seqence"; [ValueError] "not
    all input consumed", with the first three of the tokens left;
    [UnboundLocalError], from a group without children; and
    [RecursionError].  The trace never fails a parse, [match_nonterminal]
    never misses its symbol or runs out of options, and no rule is found
    without its [EBNFToken]. *)
Theorem parse_raises_only gc data gc' p b turns depth tokens e :
  EBNFParser_init gc data = Ok (gc', p) ->
  lexed_grammar data = true ->
  plain_keys data = true ->
  tokens <> [] ->
  parse (set_collapse b p) turns depth tokens = Raise e ->
  matcher_error e = true
  \/ exists rest,
       rest <> [] /\ rest `suffix_of` tokens
       /\ e = ValueError (NotAllInputConsumed (take 3 rest)).
Proof.
  intros Hinit Hlex Hplain Hne.
  pose proof (compiled_fit gc data gc' p b Hinit Hlex Hplain) as Hfit.
  destruct (compile_rule_table_keys gc data gc' p Hinit) as (k & Hstart & Hk).
  unfold parse. cbn [start_rule set_collapse]. rewrite Hstart.
  destruct k as [|c start]; [done|]. unfold match_rule.
  destruct (rules_get _ _) as [root|] eqn:Hroot;
    [|intros [= <-]; by left].
  destruct (Hfit _ _ Hroot) as (Hebnf & _ & Hsound). rewrite Hebnf. cbn [negb].
  pose proof (match_err _ turns depth Hfit root tokens 1 Hsound Hne) as Herr.
  pose proof (match_kept (set_collapse b p) turns depth root tokens 1)
    as Hkept.
  destruct (match_ _ turns depth root tokens 1) as [[[ok node] rest]|e'|];
    cbn [bind]; [| |done].
  - destruct rest as [|t rest]; [done|]. intros [= <-]. right.
    destruct (Hkept _ eq_refl) as (_ & Hsuffix & _).
    exists (t :: rest). by repeat split.
  - intros [= <-]. left. by apply Herr.
Qed.

(** The witness of [parse_raises_only]: the grammar [r := ( "a" ) * ;] over
    the tokens [a a], which raises "not all input consumed". *)
Lemma parse_raises_only_witness :
  matcher_error (ValueError (NotAllInputConsumed [lit "a"])) = true
  \/ exists rest,
       rest <> [] /\ rest `suffix_of` [lit "a"; lit "a"]
       /\ ValueError (NotAllInputConsumed [lit "a"])
          = ValueError (NotAllInputConsumed (take 3 rest)).
Proof.
  exact (parse_raises_only ∅ [rule "r" body_group_star] {["r" := 1]}
           grammar_group_star true 9 5 [lit "a"; lit "a"] _
           eq_refl eq_refl eq_refl ltac:(discriminate) eq_refl).
Defined.

Lemma loop_top_root fuel :
  forall gc nm this tokens g this' rest,
    make_parser_node_loop fuel gc nm None this tokens = Ok (g, this', rest) ->
    top_root this -> top_root this'.
Proof.
  induction fuel as [|fuel IH]; intros gc nm this tokens g this' rest; [done|].
  destruct tokens as [|first tail]; [by intros [= _ <- _]|].
  cbn [make_parser_node_loop].
  destruct (symbol_in (symbol first) openers).
  { unfold subscript.
    destruct (groupings (symbol first)) as [closer|]; cbn [bind]; [|done].
    destruct (make_parser_node_fuel fuel _ _ tail _)
      as [[[g2 child] tokens']| |]; cbn [bind]; [|done|done].
    destruct child as [c|]; [|apply IH].
    destruct (SEQ_MAP (symbol first)); cbn [bind]; [|done].
    intros Hloop Hthis. by eapply IH. }
  destruct (symbol_in (symbol first) closers); [done|].
  destruct (symbol_eq (symbol first) OR).
  - intros Hloop [Hebnf _]. eapply IH; [exact Hloop|]. split; [done|].
    apply list_elem_of_further, list_elem_of_here.
  - intros Hloop Hthis. by eapply IH.
Qed.

Lemma make_parser_node_top_root gc nm tokens g root rest :
  make_parser_node gc nm tokens None = Ok (g, Some root, rest) ->
  top_root root.
Proof.
  unfold make_parser_node.
  replace (2 * length tokens + 2) with (S (2 * length tokens + 1)) by lia.
  destruct tokens as [|t tokens]; [done|].
  cbn [make_parser_node_fuel].
  destruct (make_parser_node_loop _ gc nm None _ (t :: tokens))
    as [[[g' this'] rest']| |] eqn:Hloop; cbn [bind]; [|done|done].
  intros [= _ <- _]. eapply loop_top_root; [exact Hloop|].
  split; [done|apply list_elem_of_here].
Qed.

Lemma init_loop_top_roots data :
  forall st st',
    init_loop st data = Ok st' ->
    (forall k root, rules_get (st_rules st) k = Some root -> top_root root) ->
    forall k root, rules_get (st_rules st') k = Some root -> top_root root.
Proof.
  induction data as [|d data IH]; intros st st'; [by intros [= <-]|].
  cbn [init_loop].
  destruct (init_step st d) as [st1| |] eqn:Hstep; cbn [bind]; [|done|done].
  intros Hloop Hrules. apply (IH st1 st' Hloop).
  apply init_step_ok in Hstep as [_ Hcases].
  destruct Hcases as [(Hlower & root & Hnode & _ & ->)
                     |[(_ & _ & _ & ->)|(_ & _ & ->)]]; try done.
  intros k root'. rewrite rules_get_set.
  case_bool_decide as Hk; [|apply Hrules].
  intros ->. by eapply make_parser_node_top_root.
Qed.

Lemma compiled_top_roots gc data gc' p k root :
  EBNFParser_init gc data = Ok (gc', p) ->
  rules_get (rules p) k = Some root -> top_root root.
Proof.
  intros (st & Hloop & _ & -> & _)%compiled_tables.
  by apply (init_loop_top_roots data _ _ Hloop).
Qed.

Lemma top_root_not_optional root :
  top_root root -> optional root || repeating root = false.
Proof.
  intros [_ Hkind]. unfold optional, repeating, root_kinds in *.
  repeat (apply elem_of_cons in Hkind as [->|Hkind]); try done.
  by apply elem_of_nil in Hkind.
Qed.

(** ** The ends of the input *)

(** X16.  A parse of no tokens at all raises [SyntaxError] for every grammar
    that compiles: "Unexpected end of tokens" for the root of the start
    rule, which is never an optional or a repeating node, or "No rule for"
    the start rule when its body is empty. *)
Theorem parse_empty_input_raises gc data gc' p b turns depth :
  EBNFParser_init gc data = Ok (gc', p) ->
  exists k,
    start_rule p = Some k
    /\ parse (set_collapse b p) turns (S depth) []
       = Raise (SyntaxError
           match rules_get (rules p) k with
           | Some root => UnexpectedEndOfTokens root
           | None => NoRuleFor k
           end).
Proof.
  intros Hinit.
  destruct (compile_rule_table_keys gc data gc' p Hinit) as (k & Hstart & Hk).
  exists k. split; [done|].
  unfold parse. cbn [start_rule set_collapse]. rewrite Hstart.
  destruct k as [|c start]; [done|]. unfold match_rule.
  cbn [rules set_collapse].
  destruct (rules_get (rules p) _) as [root|] eqn:Hroot; [|done].
  pose proof (compiled_top_roots _ _ _ _ _ _ Hinit Hroot) as Htop.
  destruct Htop as [Hebnf Hkind]. rewrite Hebnf. cbn [negb].
  rewrite match_S. unfold match_body.
  by rewrite (top_root_not_optional root).
Qed.

(** The witness of [parse_empty_input_raises]: the grammar
    [e := t "y" ; t := f ; f := "x" ;]. *)
Lemma parse_empty_input_raises_witness :
  exists k,
    start_rule grammar_chain = Some k
    /\ parse (set_collapse true grammar_chain) 9 1 []
       = Raise (SyntaxError
           match rules_get (rules grammar_chain) k with
           | Some root => UnexpectedEndOfTokens root
           | None => NoRuleFor k
           end).
Proof.
  exact (parse_empty_input_raises ∅ grammar_chain_text ∅ grammar_chain
           true 9 0 eq_refl).
Defined.

(** ** Groups without children *)

(** X17.  [match] on a group that has no children, with a token left, raises
    [UnboundLocalError]: [match_sequence] returns its variable [ok], which
    only a child assigns. *)
Theorem empty_group_raises_unbound_local self turns depth pn t tokens i :
  children pn = [] ->
  symbol (token pn) ∈ group_kinds ->
  is_Some (symbol_table self !! split_dash (lexeme (token pn))) ->
  match_ self (S turns) (S depth) pn (t :: tokens) i = Raise UnboundLocalError.
Proof.
  intros Hkids Hkind [sym Hsym]. rewrite match_S. unfold match_body.
  rewrite (group_kind_nonterminal (symbol (token pn)))
    by (by apply list_elem_of_further).
  unfold match_nonterminal. rewrite Hsym.
  unfold alternate, repeating, optional, oneormore.
  unfold match_repeating, match_optional, match_one_or_more.
  cbn [match_repeating_loop]. unfold match_sequence. rewrite Hkids.
  unfold group_kinds in Hkind.
  repeat (apply elem_of_cons in Hkind as [->|Hkind]); try done.
  by apply elem_of_nil in Hkind.
Qed.

(** The witness of [empty_group_raises_unbound_local]: the group of
    [r := ( ) ;] over the token [a]. *)
Lemma empty_group_raises_unbound_local_witness :
  match_ grammar_empty_group 1 1 (group SEQUENCE "r-1" []) (lit "a" :: []) 2
  = Raise UnboundLocalError.
Proof.
  exact (empty_group_raises_unbound_local grammar_empty_group 0 0
           (group SEQUENCE "r-1" []) (lit "a") [] 2 eq_refl
           ltac:(apply list_elem_of_here) ltac:(by eexists)).
Defined.

(** ** Sequences that match in part *)

(** X18.  A SEQUENCE node reports a match as soon as children were found for it:
    when its first children match and a later child misses, [match] returns
    [ok] true with the children found so far, and the children behind the
    miss are not asked for. *)
Theorem sequence_node_accepts_prefix
    self turns depth pn i pre this post tokens found toks ok toks' sym :
  symbol (token pn) = SEQUENCE ->
  symbol_table self !! split_dash (lexeme (token pn)) = Some sym ->
  children pn = pre ++ this :: post ->
  run_prefix (match_ self turns depth) (S i) pre tokens = Some (found, toks) ->
  found <> [] ->
  toks <> [] ->
  match_ self turns depth this toks (S (S i)) = Ok (ok, None, toks') ->
  match_ self turns (S depth) pn tokens i
  = Ok (true,
        Some (mkCSTNode
                (Tok (mkToken sym (lexeme (token pn)) (start (token pn))
                        (end_ (token pn)) false))
                found),
        toks').
Proof.
  intros Hsym Htable Hkids Hrun Hfound Hne Hmiss.
  assert (Htokens : tokens <> []).
  { intros ->. destruct pre; cbn in Hrun; [|done].
    injection Hrun as <- _. done. }
  destruct tokens as [|t tokens]; [done|].
  rewrite match_S. unfold match_body. rewrite Hsym.
  change (is_terminal SEQUENCE) with false. cbv iota.
  unfold match_nonterminal. rewrite Htable.
  unfold alternate, repeating, optional, oneormore. rewrite Hsym.
  change (symbol_eq SEQUENCE ALTERNATING) with false.
  change (symbol_eq SEQUENCE REPEATING) with false.
  change (symbol_eq SEQUENCE OPTIONAL) with false.
  change (symbol_eq SEQUENCE ATLEASTONCE) with false.
  change (symbol_eq SEQUENCE SEQUENCE) with true. cbv iota.
  rewrite Hkids.
  rewrite (match_sequence_child_miss _ _ _ pre this post _ found toks ok toks'
             Hrun Hne Hmiss).
  cbn [bind]. unfold finish_nonterminal. by destruct found.
Qed.

(** The witness of [sequence_node_accepts_prefix]: the rule [s := "a" "b" ;]
    over the tokens [a c] matches, with the child [a]. *)
Lemma sequence_node_accepts_prefix_witness :
  match_ grammar_prefix 9 2
    (group SEQUENCE "s" [leaf LITERAL "a"; leaf LITERAL "b"])
    [lit "a"; lit "c"] 2
  = Ok (true,
        Some (mkCSTNode
                (Tok (mkToken (EBNFNonTerminalSymbol "s") "s" 0 0 false))
                [ate (lit "a")]),
        [lit "c"]).
Proof.
  exact (sequence_node_accepts_prefix grammar_prefix 9 1
           (group SEQUENCE "s" [leaf LITERAL "a"; leaf LITERAL "b"]) 2
           [leaf LITERAL "a"] (leaf LITERAL "b") [] [lit "a"; lit "c"]
           [ate (lit "a")] [lit "c"] false [lit "c"]
           (EBNFNonTerminalSymbol "s")
           eq_refl eq_refl eq_refl eq_refl ltac:(discriminate)
           ltac:(discriminate) eq_refl).
Defined.

(** ** Rule names with a dash *)

Lemma compiled_built gc data gc' p k root :
  EBNFParser_init gc data = Ok (gc', p) ->
  lexed_grammar data = true ->
  rules_get (rules p) k = Some root -> built_root None k root.
Proof.
  intros (st & Hloop & _ & -> & _)%compiled_tables Hlex%lexed_grammar_forall.
  by apply (init_loop_built data Hlex _ _ Hloop).
Qed.

(** X19.  A rule whose name has a dash compiles, but [match_nonterminal] looks
    its symbol up under the part of the name before the dash: when the
    start rule is such a rule and no definition has that part as its key,
    every parse of at least one token raises [KeyError]. *)
Theorem dashed_rule_name_raises_key_error
    gc data gc' p b turns depth k root t tokens :
  EBNFParser_init gc data = Ok (gc', p) ->
  lexed_grammar data = true ->
  start_rule p = Some k ->
  rules_get (rules p) k = Some root ->
  table_of data (split_dash k) = None ->
  parse (set_collapse b p) turns (S depth) (t :: tokens)
  = Raise (KeyError (split_dash k)).
Proof.
  intros Hinit Hlex Hstart Hroot Hkey.
  destruct (compile_rule_table_keys gc data gc' p Hinit) as (k' & Hk' & Hlower).
  rewrite Hstart in Hk'. injection Hk' as <-.
  destruct (compiled_built _ _ _ _ _ _ Hinit Hlex Hroot)
    as (Hebnf & Hname & Hkind & _).
  destruct (root_kind_nonterminal _ Hkind) as [Hterm _].
  unfold parse. cbn [start_rule set_collapse]. rewrite Hstart.
  destruct k as [|c start]; [done|]. unfold match_rule.
  cbn [rules set_collapse].
  rewrite Hroot, Hebnf. cbn [negb]. rewrite match_S. unfold match_body.
  rewrite Hterm. unfold match_nonterminal. cbn [symbol_table].
  rewrite (compile_symbol_table_lookup gc data gc' p _ Hinit), Hname, Hkey.
  reflexivity.
Qed.

(** The witness of [dashed_rule_name_raises_key_error]: the grammar
    [my-rule := "a" ;] over the token [a]. *)
Lemma dashed_rule_name_raises_key_error_witness :
  parse (set_collapse true grammar_dashed) 9 1 (lit "a" :: [])
  = Raise (KeyError (split_dash "my-rule")).
Proof.
  exact (dashed_rule_name_raises_key_error ∅ grammar_dashed_text ∅
           grammar_dashed true 9 0 "my-rule"
           (group SEQUENCE "my-rule" [leaf LITERAL "a"]) (lit "a") []
           eq_refl eq_refl eq_refl eq_refl eq_refl).
Defined.

(** ** The code of a node *)

(** X20.  [EBNFNode.key] is one of six codes: the four kinds of group exclude
    one another, so the codes it joins are never more than one. *)
Theorem EBNFNode_key_codes n :
  EBNFNode_key n ∈ ["trm"; "seq"; "rep"; "opt"; "atl"; "alt"].
Proof.
  unfold EBNFNode_key. destruct (children n); [apply list_elem_of_here|].
  destruct (repeating n) eqn:Hrep, (optional n) eqn:Hopt,
    (oneormore n) eqn:Hatl, (alternate n) eqn:Halt;
    try (cbn; by repeat first [apply list_elem_of_here
                              | apply list_elem_of_further]).
  all: exfalso; unfold repeating, optional, oneormore, alternate in *.
  all: repeat match goal with
         | H : symbol_eq _ _ = true |- _ => apply symbol_eq_name in H
         end; cbn in *; congruence.
Qed.

(** ** The builder terminates *)

(** X21.  [make_parser_node] returns or raises on every list of meta-tokens: its
    loop and its recursion consume a token each time round, so they end
    within twice the number of tokens, and a higher bound changes
    nothing. *)
Theorem make_parser_node_terminates gc nm tokens e fuel :
  2 * length tokens + 2 <= fuel ->
  make_parser_node_fuel fuel gc nm tokens e = make_parser_node gc nm tokens e
  /\ make_parser_node gc nm tokens e <> OutOfFuel.
Proof.
  intros Hfuel. pose proof (make_parser_node_total gc nm tokens e) as Htotal.
  split; [|done]. unfold make_parser_node in *.
  destruct (proj1 (builder_fuel_mono _) _ gc nm tokens e Hfuel) as [H|H];
    congruence.
Qed.

(** The witness of [make_parser_node_terminates]: the body [{ "a" }] with the
    bound 50. *)
Lemma make_parser_node_terminates_witness :
  make_parser_node_fuel 50 ∅ "r" body_braces None
  = make_parser_node ∅ "r" body_braces None
  /\ make_parser_node ∅ "r" body_braces None <> OutOfFuel.
Proof.
  exact (make_parser_node_terminates ∅ "r" body_braces None 50
           ltac:(vm_compute; lia)).
Defined.

(** ** The alternatives of a node *)

Lemma split_by_or_from_app l1 x l2 :
  is_or x = true ->
  forall cur,
    split_by_or_from cur (l1 ++ x :: l2)
    = split_by_or_from cur l1 ++ split_by_or l2.
Proof.
  intros Hx. induction l1 as [|y l1 IH]; intros cur.
  - cbn [app split_by_or_from]. unfold is_or in Hx. rewrite Hx.
    by destruct cur.
  - cbn [app split_by_or_from].
    destruct (symbol_eq (symbol (token y)) OR); [|apply IH].
    destruct cur; [apply IH|]. by rewrite IH.
Qed.

Lemma split_by_or_from_plain l :
  forallb (fun n => negb (is_or n)) l = true ->
  forall cur,
    split_by_or_from cur l
    = match cur ++ l with [] => [] | _ :: _ => [cur ++ l] end.
Proof.
  induction l as [|y l IH]; intros Hl cur.
  - rewrite app_nil_r. by destruct cur.
  - cbn [forallb] in Hl. apply andb_prop in Hl as [Hy Hl].
    cbn [split_by_or_from]. unfold is_or in Hy.
    apply negb_true_iff in Hy. rewrite Hy, (IH Hl).
    by rewrite <- app_assoc.
Qed.

(** X22.  [split_by_or] groups the children as [groupby] does: a list without
    OR markers is one alternative, none if it is empty, and an OR marker
    cuts the list in two that are split on their own. *)
Theorem split_by_or_groups l1 x l2 l :
  (is_or x = true ->
   split_by_or (l1 ++ x :: l2) = split_by_or l1 ++ split_by_or l2)
  /\ (forallb (fun n => negb (is_or n)) l = true ->
      split_by_or l = match l with [] => [] | _ :: _ => [l] end).
Proof.
  split.
  - intros Hx. by apply split_by_or_from_app.
  - intros Hl. by apply (split_by_or_from_plain l Hl []).
Qed.

(** The witness of [split_by_or_groups]: the children ["a" "b" | "c"]. *)
Lemma split_by_or_groups_witness :
  split_by_or ([leaf LITERAL "a"; leaf LITERAL "b"] ++ leaf OR "|"
                 :: [leaf LITERAL "c"])
  = split_by_or [leaf LITERAL "a"; leaf LITERAL "b"]
    ++ split_by_or [leaf LITERAL "c"]
  /\ split_by_or [leaf LITERAL "a"; leaf LITERAL "b"]
     = [[leaf LITERAL "a"; leaf LITERAL "b"]].
Proof.
  split.
  - exact (proj1 (split_by_or_groups [leaf LITERAL "a"; leaf LITERAL "b"]
                    (leaf OR "|") [leaf LITERAL "c"] []) eq_refl).
  - exact (proj2 (split_by_or_groups [] (leaf OR "|") []
                    [leaf LITERAL "a"; leaf LITERAL "b"]) eq_refl).
Defined.

(** X23.  The handler for [ValueError] in [match_alternate] has nothing to
    catch: for a grammar that compiles, with meta-tokens of [EBNFTokenizer]
    and rule keys without a dash, the match of an alternative never raises
    [ValueError]. *)
Theorem alternate_never_catches
    gc data gc' p b turns depth pn alt tokens i v :
  EBNFParser_init gc data = Ok (gc', p) ->
  lexed_grammar data = true ->
  plain_keys data = true ->
  forallb (sound (symbol_table p)) (children pn) = true ->
  alt ∈ split_by_or (children pn) ->
  match_sequence (match_ (set_collapse b p) turns depth)
    (lexeme (token pn)) alt tokens (S i)
  <> Raise (ValueError v).
Proof.
  intros Hinit Hlex Hplain Hkids Halt Hraise.
  pose proof (compiled_fit gc data gc' p b Hinit Hlex Hplain) as Hfit.
  pose proof (split_by_or_sound _ _ Hkids) as Halts.
  rewrite Forall_forall in Halts. specialize (Halts alt Halt).
  assert (Herr : raises_only matcher_error
            (match_sequence (match_ (set_collapse b p) turns depth)
               (lexeme (token pn)) alt tokens (S i))).
  { apply (err_sequence (set_collapse b p)); [|by apply match_err|done].
    apply match_grown, rules_fit_roots, Hfit. }
  by specialize (Herr _ Hraise).
Qed.

(** The witness of [alternate_never_catches]: the first alternative of
    [r := "a" "b" | "a" ;] over the token [a]. *)
Lemma alternate_never_catches_witness :
  match_sequence (match_ (set_collapse true grammar_alt) 9 1) "r"
    [leaf LITERAL "a"; leaf LITERAL "b"] [lit "a"] 2
  <> Raise (ValueError NoStartRule).
Proof.
  exact (alternate_never_catches ∅
           [rule "r" [meta LITERAL "a"; meta LITERAL "b"; meta OR "|";
                      meta LITERAL "a"]] ∅ grammar_alt true 9 1
           (group ALTERNATING "r"
              [leaf LITERAL "a"; leaf LITERAL "b"; leaf OR "|";
               leaf LITERAL "a"])
           [leaf LITERAL "a"; leaf LITERAL "b"] [lit "a"] 1 NoStartRule
           eq_refl eq_refl eq_refl eq_refl ltac:(apply list_elem_of_here)).
Defined.

(** ** Optional groups inside a sequence *)

Lemma optional_not_others pn :
  symbol (token pn) = OPTIONAL ->
  alternate pn = false /\ repeating pn = false /\ optional pn = true.
Proof. unfold alternate, repeating, optional. by intros ->. Qed.

(** X24.  With a token left, an OPTIONAL node whose child sequence does
    not match returns non-match, with the token list that attempt left,
    and a sequence that holds the node after the children [pre] stops
    there, with [ok] false, the children found for [pre] and that token
    list: the group is not skipped, and the children [post] behind it are
    not attempted.  With no token left the group is not tried, as [match]
    on it would raise [IndexError]: the sequence returns [ok] false with
    no children and the token list it was called with. *)
Theorem optional_miss_ends_sequence
    self turns depth pn nm i pre post tokens found toks :
  let inner := match_ self turns (S depth) in
  let outer := match_ self turns (S (S depth)) in
  symbol (token pn) = OPTIONAL ->
  is_Some (symbol_table self !! split_dash (lexeme (token pn))) ->
  run_prefix outer i pre tokens = Some (found, toks) ->
  (forall body_found toks',
      toks <> [] ->
      match_sequence inner (lexeme (token pn)) (children pn) toks
        (S (S (S i)))
      = Ok (false, body_found, toks') ->
      outer pn toks (S i) = Ok (false, None, toks')
      /\ match_sequence outer nm (pre ++ pn :: post) tokens i
         = Ok (false, found, toks'))
  /\ (toks = [] ->
      outer pn toks (S i) = Raise IndexError
      /\ match_sequence outer nm (pre ++ pn :: post) tokens i
         = Ok (false, [], tokens)).
Proof.
  intros inner outer Hsym [sym Hsym_table] Hrun.
  destruct (optional_not_others pn Hsym) as (Halt & Hrep & Hopt). split.
  - intros body_found toks' Hne Hbody.
    assert (Hnode : outer pn toks (S i) = Ok (false, None, toks')).
    { destruct toks as [|t toks]; [done|].
      unfold outer. rewrite match_S. unfold match_body. rewrite Hsym.
      change (is_terminal OPTIONAL) with false. cbv iota.
      unfold match_nonterminal. rewrite Hsym_table, Halt, Hrep, Hopt.
      unfold match_optional. fold inner. rewrite Hbody. reflexivity. }
    split; [exact Hnode|].
    by apply match_sequence_child_miss with (toks := toks) (ok := false).
  - intros ->. split.
    + unfold outer. rewrite match_S. unfold match_body. by rewrite Hopt.
    + apply match_sequence_out_of_tokens with (found := found); [done|].
      unfold oneormore. by rewrite Hsym.
Qed.

(** The witness of [optional_miss_ends_sequence]: the sequence [[ "a" ] "b"]
    over the token [b], and the sequence ["a" [ "b" ]] over the token
    [a]. *)
Lemma optional_miss_ends_sequence_witness :
  (match_ grammar_opt_a_b 9 2 (group OPTIONAL "r-1" [leaf LITERAL "a"])
     [lit "b"] 2 = Ok (false, None, [lit "b"])
   /\ match_sequence (match_ grammar_opt_a_b 9 2) "r"
        ([] ++ group OPTIONAL "r-1" [leaf LITERAL "a"] :: [leaf LITERAL "b"])
        [lit "b"] 1 = Ok (false, [], [lit "b"]))
  /\ (match_ grammar_opt_a_b 9 2 (group OPTIONAL "r-1" [leaf LITERAL "b"])
        [] 2 = Raise IndexError
      /\ match_sequence (match_ grammar_opt_a_b 9 2) "r"
           ([leaf LITERAL "a"]
              ++ group OPTIONAL "r-1" [leaf LITERAL "b"] :: [])
           [lit "a"] 1 = Ok (false, [], [lit "a"])).
Proof.
  split.
  - exact (proj1 (optional_miss_ends_sequence grammar_opt_a_b 9 0
             (group OPTIONAL "r-1" [leaf LITERAL "a"]) "r" 1 []
             [leaf LITERAL "b"] [lit "b"] [] [lit "b"]
             eq_refl ltac:(by eexists) eq_refl)
             [] [lit "b"] ltac:(discriminate) eq_refl).
  - exact (proj2 (optional_miss_ends_sequence grammar_opt_a_b 9 0
             (group OPTIONAL "r-1" [leaf LITERAL "b"]) "r" 1
             [leaf LITERAL "a"] [] [lit "a"] [ate (lit "a")] []
             eq_refl ltac:(by eexists) eq_refl) eq_refl).
Defined.

(** ** Groups that never end *)

Section Stall.

Variable self : EBNFParser.
Variable m : EBNFNode -> list Token -> nat -> result outcome.
Variables (nm : string) (expected : list EBNFNode) (tokens : list Token).
Hypothesis stall :
  forall j, match_sequence m nm expected tokens (S j) = Ok (true, [], tokens).

Lemma repeating_loop_stalls n i acc :
  match_repeating_loop m n nm expected i acc tokens = OutOfFuel.
Proof.
  revert acc. induction n as [|n IH]; intros acc; [done|].
  cbn [match_repeating_loop]. rewrite stall. cbn [bind]. apply IH.
Qed.

Lemma one_or_more_loop_stalls n i acc kids :
  match_one_or_more_loop m n nm expected i acc true kids tokens = OutOfFuel.
Proof.
  revert acc kids. induction n as [|n IH]; intros acc kids; [done|].
  cbn [match_one_or_more_loop]. rewrite stall. cbn [bind]. apply IH.
Qed.

End Stall.

(** X25.  A REPEATING or ATLEASTONCE group whose only child names a rule loops
    for ever when that rule does not match at the tokens the group is
    tried on: the leaf of the rule reports a match without a child and
    consumes nothing, so every turn of the loop of the group finds the
    tokens as they were.  However many turns the loop is granted, the
    call does not return. *)
Theorem rule_group_never_ends self depth pn lf t tokens ok :
  symbol (token pn) ∈ [REPEATING; ATLEASTONCE] ->
  is_Some (symbol_table self !! split_dash (lexeme (token pn))) ->
  children pn = [lf] ->
  symbol (token lf) = RULE ->
  (forall turns j,
      match_rule self (match_ self turns depth) (lexeme (token lf))
        (t :: tokens) (S j)
      = Ok (ok, None, t :: tokens)) ->
  forall turns i,
    match_ self turns (S (S depth)) pn (t :: tokens) i = OutOfFuel.
Proof.
  intros Hkind [sym Hsym] Hkids Hlf Hrule turns i.
  assert (Hstall : forall j,
             match_sequence (match_ self turns (S depth))
               (lexeme (token pn)) [lf] (t :: tokens) (S j)
             = Ok (true, [], t :: tokens)).
  { intros j. unfold match_sequence. cbn [match_sequence_loop].
    rewrite match_S. unfold match_body, match_terminal. rewrite Hlf.
    change (is_terminal RULE) with true.
    change (symbol_eq RULE RULE) with true. cbv iota.
    rewrite Hrule. reflexivity. }
  rewrite match_S. unfold match_body.
  rewrite (group_kind_nonterminal (symbol (token pn))).
  2: { repeat (apply elem_of_cons in Hkind as [->|Hkind]);
         [| |by apply elem_of_nil in Hkind].
       - apply list_elem_of_further, list_elem_of_further, list_elem_of_here.
       - do 4 apply list_elem_of_further. apply list_elem_of_here. }
  unfold match_nonterminal. rewrite Hsym.
  unfold alternate, repeating, optional, oneormore.
  repeat (apply elem_of_cons in Hkind as [->|Hkind]);
    [| |by apply elem_of_nil in Hkind].
  - change (symbol_eq REPEATING ALTERNATING) with false.
    change (symbol_eq REPEATING REPEATING) with true. cbv iota.
    unfold match_repeating. rewrite Hkids.
    by rewrite (repeating_loop_stalls _ _ _ _ Hstall).
  - change (symbol_eq ATLEASTONCE ALTERNATING) with false.
    change (symbol_eq ATLEASTONCE REPEATING) with false.
    change (symbol_eq ATLEASTONCE OPTIONAL) with false.
    change (symbol_eq ATLEASTONCE ATLEASTONCE) with true. cbv iota.
    unfold match_one_or_more. rewrite Hkids, Hstall. cbn [bind negb].
    by rewrite (one_or_more_loop_stalls _ _ _ _ Hstall).
Qed.

(** The witness of [rule_group_never_ends]: the group of
    [r := { s } ; s := "a" ;] over the token [b]. *)
Lemma rule_group_never_ends_witness :
  match_ grammar_rep_rule 9 4 (group REPEATING "r-1" [leaf RULE "s"])
    (lit "b" :: []) 2
  = OutOfFuel.
Proof.
  exact (rule_group_never_ends grammar_rep_rule 2
           (group REPEATING "r-1" [leaf RULE "s"]) (leaf RULE "s") (lit "b") []
           false ltac:(apply list_elem_of_here) ltac:(by eexists) eq_refl
           eq_refl (fun turns j => eq_refl) 9 2).
Defined.

(** ** Errors inside an alternation *)

(** X26.  An exception other than [ValueError] that the match of an alternative
    raises ends the alternation: [match_alternate] raises it, and the
    alternatives behind are not tried. *)
Theorem alternate_propagates_errors
    match_rec pn tokens i missed alt later e :
  tokens <> [] ->
  split_by_or (children pn) = missed ++ alt :: later ->
  Forall (fun a =>
            alt_misses
              (match_sequence match_rec (lexeme (token pn)) a tokens (S i))
            = true) missed ->
  match_sequence match_rec (lexeme (token pn)) alt tokens (S i) = Raise e ->
  (forall v, e <> ValueError v) ->
  match_alternate match_rec pn tokens i = Raise e.
Proof.
  intros Hne Hsplit Hmissed Halt He. unfold match_alternate.
  destruct tokens as [|t tokens]; [done|].
  rewrite Hsplit, match_alternate_loop_skip by exact Hmissed.
  cbn [match_alternate_loop]. rewrite Halt.
  destruct e; try done. by destruct (He e).
Qed.

(** The witness of [alternate_propagates_errors]: the alternation
    [< "a" > | "b"] over the token [b] raises "Missing group", although
    the second alternative matches the token. *)
Lemma alternate_propagates_errors_witness :
  match_alternate (match_ grammar_atl_or_b 9 2)
    (group ALTERNATING "r"
       [group ATLEASTONCE "r-1" [leaf LITERAL "a"]; leaf OR "|";
        leaf LITERAL "b"])
    [lit "b"] 2
  = Raise (SyntaxError (MissingGroup [lit "b"])).
Proof.
  exact (alternate_propagates_errors (match_ grammar_atl_or_b 9 2)
           (group ALTERNATING "r"
              [group ATLEASTONCE "r-1" [leaf LITERAL "a"]; leaf OR "|";
               leaf LITERAL "b"])
           [lit "b"] 2 [] [group ATLEASTONCE "r-1" [leaf LITERAL "a"]]
           [[leaf LITERAL "b"]] (SyntaxError (MissingGroup [lit "b"]))
           ltac:(discriminate) eq_refl ltac:(constructor) eq_refl
           ltac:(discriminate)).
Defined.

(** ** At-least-once groups inside a sequence *)

Lemma match_sequence_child_raises match_rec nm i pre this post tokens found
    toks e :
  run_prefix match_rec i pre tokens = Some (found, toks) ->
  toks <> [] ->
  match_rec this toks (S i) = Raise e ->
  match_sequence match_rec nm (pre ++ this :: post) tokens i = Raise e.
Proof.
  intros Hrun Hne Hraise. unfold match_sequence.
  destruct (match_sequence_loop_prefix match_rec i tokens pre (this :: post)
              tokens None [] found toks Hrun) as [ok' ->].
  destruct toks as [|t toks]; [done|].
  cbn [match_sequence_loop]. by rewrite Hraise.
Qed.

(** X27.  With a token left, an ATLEASTONCE node whose child sequence does
    not match at the first attempt raises [SyntaxError] "Missing group"
    with the token list that attempt left, and so does a sequence that
    holds the node after the children [pre]: the children found for [pre]
    are lost with it.  With no token left [match] on the node raises
    [SyntaxError] "Unexpected end of tokens", and the sequence, which
    does not get to call it, raises [SyntaxError] "Expected ... and found
    nothing". *)
Theorem atleastonce_miss_raises
    self turns depth pn nm i pre post tokens found toks :
  let inner := match_ self turns (S depth) in
  let outer := match_ self turns (S (S depth)) in
  symbol (token pn) = ATLEASTONCE ->
  is_Some (symbol_table self !! split_dash (lexeme (token pn))) ->
  run_prefix outer i pre tokens = Some (found, toks) ->
  (forall body_found toks',
      toks <> [] ->
      match_sequence inner (lexeme (token pn)) (children pn) toks
        (S (S (S i)))
      = Ok (false, body_found, toks') ->
      outer pn toks (S i) = Raise (SyntaxError (MissingGroup toks'))
      /\ match_sequence outer nm (pre ++ pn :: post) tokens i
         = Raise (SyntaxError (MissingGroup toks')))
  /\ (toks = [] ->
      outer pn toks (S i) = Raise (SyntaxError (UnexpectedEndOfTokens pn))
      /\ match_sequence outer nm (pre ++ pn :: post) tokens i
         = Raise (SyntaxError (ExpectedFoundNothing pn))).
Proof.
  intros inner outer Hsym [sym Hsym_table] Hrun. split.
  - intros body_found toks' Hne Hbody.
    assert (Hnode : outer pn toks (S i)
                    = Raise (SyntaxError (MissingGroup toks'))).
    { destruct toks as [|t toks]; [done|].
      unfold outer. rewrite match_S. unfold match_body. rewrite Hsym.
      change (is_terminal ATLEASTONCE) with false. cbv iota.
      unfold match_nonterminal. rewrite Hsym_table.
      unfold alternate, repeating, optional, oneormore. rewrite Hsym.
      change (symbol_eq ATLEASTONCE ALTERNATING) with false.
      change (symbol_eq ATLEASTONCE REPEATING) with false.
      change (symbol_eq ATLEASTONCE OPTIONAL) with false.
      change (symbol_eq ATLEASTONCE ATLEASTONCE) with true. cbv iota.
      unfold match_one_or_more. fold inner. rewrite Hbody. reflexivity. }
    split; [exact Hnode|].
    by apply match_sequence_child_raises with (found := found) (toks := toks).
  - intros ->. split.
    + unfold outer. rewrite match_S. unfold match_body.
      unfold optional, repeating. by rewrite Hsym.
    + apply match_sequence_nothing_left with (found := found); [done|].
      unfold oneormore. by rewrite Hsym.
Qed.

(** The witness of [atleastonce_miss_raises]: the sequence ["a" < "b" >]
    over the tokens [a c], and over the token [a]. *)
Lemma atleastonce_miss_raises_witness :
  (match_ grammar_a_atl_b 9 2 (group ATLEASTONCE "r-1" [leaf LITERAL "b"])
     [lit "c"] 2 = Raise (SyntaxError (MissingGroup [lit "c"]))
   /\ match_sequence (match_ grammar_a_atl_b 9 2) "r"
        ([leaf LITERAL "a"]
           ++ group ATLEASTONCE "r-1" [leaf LITERAL "b"] :: [])
        [lit "a"; lit "c"] 1
      = Raise (SyntaxError (MissingGroup [lit "c"])))
  /\ (match_ grammar_a_atl_b 9 2 (group ATLEASTONCE "r-1" [leaf LITERAL "b"])
        [] 2
      = Raise (SyntaxError
          (UnexpectedEndOfTokens
             (group ATLEASTONCE "r-1" [leaf LITERAL "b"])))
      /\ match_sequence (match_ grammar_a_atl_b 9 2) "r"
           ([leaf LITERAL "a"]
              ++ group ATLEASTONCE "r-1" [leaf LITERAL "b"] :: [])
           [lit "a"] 1
         = Raise (SyntaxError
             (ExpectedFoundNothing
                (group ATLEASTONCE "r-1" [leaf LITERAL "b"])))).
Proof.
  split.
  - exact (proj1 (atleastonce_miss_raises grammar_a_atl_b 9 0
             (group ATLEASTONCE "r-1" [leaf LITERAL "b"]) "r" 1
             [leaf LITERAL "a"] [] [lit "a"; lit "c"] [ate (lit "a")]
             [lit "c"] eq_refl ltac:(by eexists) eq_refl)
             [] [lit "c"] ltac:(discriminate) eq_refl).
  - exact (proj2 (atleastonce_miss_raises grammar_a_atl_b 9 0
             (group ATLEASTONCE "r-1" [leaf LITERAL "b"]) "r" 1
             [leaf LITERAL "a"] [] [lit "a"] [ate (lit "a")] []
             eq_refl ltac:(by eexists) eq_refl) eq_refl).
Defined.

(** ** Rules that are a sequence of literals and terminals *)

Lemma plain_leaf_match self turns depth b t ts i :
  symbol b ∈ [LITERAL; TERM] ->
  match_ self turns (S depth) (leaf_of b) (t :: ts) i
  = if leaf_accepts b t
    then Ok (true, Some (mkCSTNode (Lexeme (lexeme b)) [ate t]), ts)
    else Ok (false, None, t :: ts).
Proof.
  intros Hb. rewrite match_S. unfold match_body, match_terminal, leaf_accepts.
  cbn [leaf_of token].
  repeat (apply elem_of_cons in Hb as [->|Hb]);
    [| |by apply elem_of_nil in Hb].
  - change (is_terminal LITERAL) with true.
    change (symbol_eq LITERAL RULE) with false.
    change (symbol_eq LITERAL LITERAL) with true. cbv iota.
    by destruct (bool_decide (lexeme b = lexeme t)).
  - change (is_terminal TERM) with true.
    change (symbol_eq TERM RULE) with false.
    change (symbol_eq TERM LITERAL) with false. cbv iota.
    by destruct (bool_decide (lexeme b = name (symbol t))).
Qed.

Lemma plain_leaf_not_oneormore b :
  symbol b ∈ [LITERAL; TERM] -> oneormore (leaf_of b) = false.
Proof.
  intros Hb. unfold oneormore. cbn [leaf_of token].
  repeat (apply elem_of_cons in Hb as [->|Hb]); try done.
  by apply elem_of_nil in Hb.
Qed.

Lemma match_sequence_loop_eat self turns depth i orig body :
  Forall (fun b => symbol b ∈ [LITERAL; TERM]) body ->
  forall ok found tokens,
    (body = [] -> ok = Some true) ->
    match_sequence_loop (match_ self turns (S depth)) i orig
      (map leaf_of body) ok found tokens
    = Ok (eat body orig found tokens).
Proof.
  induction 1 as [|b body Hb _ IH]; intros ok found tokens Hok.
  - by rewrite (Hok eq_refl).
  - cbn [map match_sequence_loop eat].
    rewrite (plain_leaf_not_oneormore b Hb).
    destruct tokens as [|t ts]; [done|].
    rewrite (plain_leaf_match _ _ _ _ _ _ _ Hb).
    destruct (leaf_accepts b t); cbn [bind]; [|done].
    unfold token_lexemes. cbn [cst_children forallb has_lexeme ate cst_token
      andb bind].
    apply IH. intros _. reflexivity.
Qed.

Lemma eat_accepts orig body :
  orig <> [] ->
  forall found tokens,
    if accepts body tokens
    then eat body orig found tokens = (true, found ++ map ate tokens, [])
    else (eat body orig found tokens).2 <> [].
Proof.
  intros Horig. induction body as [|b body IH]; intros found tokens.
  - destruct tokens; cbn; [by rewrite app_nil_r | done].
  - destruct tokens as [|t ts]; [done|]. cbn [accepts eat].
    destruct (leaf_accepts b t); cbn [andb]; [|done].
    specialize (IH (found ++ [ate t]) ts).
    destruct (accepts body ts); [|done].
    rewrite IH. by rewrite <- app_assoc.
Qed.

(** X28.  A start rule whose body is a sequence of literals and terminals
    parses exactly the token lists that match the body token by token:
    such a list parses to a node for the rule with one leaf per token, and
    every other list of at least one token raises [ValueError] "not all
    input consumed". *)
Theorem plain_sequence_parses self turns depth k sym body tokens :
  start_rule self = Some k ->
  k <> "" ->
  rules_get (rules self) k
  = Some (mkEBNFNode (EBNFToken SEQUENCE k 0 0) (map leaf_of body)) ->
  symbol_table self !! split_dash k = Some sym ->
  Forall (fun b => symbol b ∈ [LITERAL; TERM]) body ->
  body <> [] ->
  tokens <> [] ->
  if accepts body tokens
  then parse self turns (S (S depth)) tokens
       = Ok (true,
             Some (mkCSTNode (Tok (mkToken sym k 0 0 false))
                     (map ate tokens)),
             [])
  else exists rest,
         rest <> []
         /\ parse self turns (S (S depth)) tokens
            = Raise (ValueError (NotAllInputConsumed (take 3 rest))).
Proof.
  intros Hstart Hk Hroot Hsym Hbody Hne Htokens.
  assert (Hparse :
    parse self turns (S (S depth)) tokens
    = let '(ok, found, rest) := eat body tokens [] tokens in
      match rest with
      | [] =>
          Ok (finish_nonterminal (mkToken sym k 0 0 false) found None rest)
      | _ :: _ => Raise (ValueError (NotAllInputConsumed (take 3 rest)))
      end).
  { unfold parse. rewrite Hstart. destruct k as [|c k']; [done|].
    unfold match_rule. rewrite Hroot. cbn [token ebnf EBNFToken negb].
    rewrite match_S. unfold match_body.
    destruct tokens as [|t ts]; [done|].
    cbn [token symbol EBNFToken]. change (is_terminal SEQUENCE) with false.
    cbv iota. unfold match_nonterminal.
    cbn [token lexeme EBNFToken]. rewrite Hsym.
    unfold alternate, repeating, optional, oneormore.
    cbn [token symbol EBNFToken children start end_].
    change (symbol_eq SEQUENCE ALTERNATING) with false.
    change (symbol_eq SEQUENCE REPEATING) with false.
    change (symbol_eq SEQUENCE OPTIONAL) with false.
    change (symbol_eq SEQUENCE ATLEASTONCE) with false.
    change (symbol_eq SEQUENCE SEQUENCE) with true. cbv iota.
    unfold match_sequence.
    rewrite (match_sequence_loop_eat _ _ _ _ _ _ Hbody) by done.
    cbn [bind]. destruct (eat body (t :: ts) [] (t :: ts)) as [[ok found] rest].
    unfold finish_nonterminal.
    destruct found, rest; reflexivity. }
  pose proof (eat_accepts tokens body Htokens [] tokens) as Heat.
  rewrite Hparse. destruct (accepts body tokens).
  - rewrite Heat. cbn [app]. unfold finish_nonterminal.
    destruct tokens; [done|]. reflexivity.
  - destruct (eat body tokens [] tokens) as [[ok found] rest].
    cbn in Heat. exists rest. split; [done|]. by destruct rest.
Qed.

(** The witness of [plain_sequence_parses]: the grammar [r := "a" "b" ;]
    over the tokens [a b], which match, and over the tokens [a c], which
    do not. *)
Lemma plain_sequence_parses_witness :
  parse grammar_ab 9 2 [lit "a"; lit "b"]
  = Ok (true,
        Some (mkCSTNode (Tok (mkToken (EBNFNonTerminalSymbol "r") "r" 0 0
                                false))
                (map ate [lit "a"; lit "b"])),
        [])
  /\ exists rest,
       rest <> []
       /\ parse grammar_ab 9 2 [lit "a"; lit "c"]
          = Raise (ValueError (NotAllInputConsumed (take 3 rest))).
Proof.
  split.
  - exact (plain_sequence_parses grammar_ab 9 0 "r"
             (EBNFNonTerminalSymbol "r") [meta LITERAL "a"; meta LITERAL "b"]
             [lit "a"; lit "b"] eq_refl ltac:(discriminate) eq_refl eq_refl
             ltac:(repeat constructor) ltac:(discriminate)
             ltac:(discriminate)).
  - exact (plain_sequence_parses grammar_ab 9 0 "r"
             (EBNFNonTerminalSymbol "r") [meta LITERAL "a"; meta LITERAL "b"]
             [lit "a"; lit "c"] eq_refl ltac:(discriminate) eq_refl eq_refl
             ltac:(repeat constructor) ltac:(discriminate)
             ltac:(discriminate)).
Defined.

(** ** Groups over one literal or terminal *)

Section Run.

Variable self : EBNFParser.
Variables (turns depth : nat) (nm : string) (b : Token).
Hypothesis plain : symbol b ∈ [LITERAL; TERM].

Lemma match_sequence_one tokens i :
  match_sequence (match_ self turns (S depth)) nm [leaf_of b] tokens i
  = Ok (eat [b] tokens [] tokens).
Proof.
  unfold match_sequence.
  apply (match_sequence_loop_eat self turns depth i tokens [b]); [|done].
  constructor; [exact plain | constructor].
Qed.

Lemma eat_one_stops rest :
  stops b rest = true -> eat [b] rest [] rest = (false, [], rest).
Proof.
  destruct rest as [|t rest]; [done|]. cbn [stops eat].
  by intros ->%negb_true_iff.
Qed.

Lemma repeating_loop_run rest i :
  stops b rest = true ->
  forall run acc n,
    forallb (leaf_accepts b) run = true ->
    length run < n ->
    match_repeating_loop (match_ self turns (S depth)) n nm [leaf_of b] i acc
      (run ++ rest)
    = Ok (acc ++ map ate run, rest).
Proof.
  intros Hstop. induction run as [|t run IH]; intros acc n Hrun Hn.
  - destruct n as [|n]; [cbn in Hn; lia|]. cbn [match_repeating_loop app].
    rewrite match_sequence_one, (eat_one_stops rest Hstop). cbn [bind map].
    by rewrite app_nil_r.
  - destruct n as [|n]; [cbn in Hn; lia|]. cbn [match_repeating_loop].
    cbn [forallb] in Hrun. apply andb_prop in Hrun as [Ht Hrun].
    rewrite match_sequence_one. cbn [app eat]. rewrite Ht. cbn [bind app].
    rewrite IH by (done || cbn in Hn; lia). cbn [map].
    by rewrite <- app_assoc.
Qed.

Lemma one_or_more_loop_run rest i :
  stops b rest = true ->
  forall run acc kids n,
    forallb (leaf_accepts b) run = true ->
    length run < n ->
    match_one_or_more_loop (match_ self turns (S depth)) n nm [leaf_of b] i
      acc true kids (run ++ rest)
    = Ok (acc ++ kids ++ map ate run, rest).
Proof.
  intros Hstop. induction run as [|t run IH]; intros acc kids n Hrun Hn.
  - destruct n as [|n]; [cbn in Hn; lia|].
    cbn [match_one_or_more_loop app].
    rewrite match_sequence_one, (eat_one_stops rest Hstop). cbn [bind map].
    rewrite app_nil_r. by destruct n.
  - destruct n as [|n]; [cbn in Hn; lia|]. cbn [match_one_or_more_loop].
    cbn [forallb] in Hrun. apply andb_prop in Hrun as [Ht Hrun].
    rewrite match_sequence_one. cbn [app eat]. rewrite Ht. cbn [bind app].
    rewrite IH by (done || cbn in Hn; lia). cbn [map app].
    by rewrite <- !app_assoc.
Qed.

End Run.

(** X29.  A REPEATING or ATLEASTONCE group over one literal or terminal takes
    the longest run of tokens its leaf matches: from a run of at least one
    such token, [match] returns [ok] true, a node with one leaf per token of
    the run, and the tokens behind the run, whenever its loop is granted
    more turns than the run is long. *)
Theorem group_takes_longest_run self turns depth pn b sym run rest i :
  symbol (token pn) ∈ [REPEATING; ATLEASTONCE] ->
  symbol_table self !! split_dash (lexeme (token pn)) = Some sym ->
  children pn = [leaf_of b] ->
  symbol b ∈ [LITERAL; TERM] ->
  run <> [] ->
  forallb (leaf_accepts b) run = true ->
  stops b rest = true ->
  length run < turns ->
  match_ self turns (S (S depth)) pn (run ++ rest) i
  = Ok (true,
        Some (mkCSTNode
                (Tok (mkToken sym (lexeme (token pn)) (start (token pn))
                        (end_ (token pn)) false))
                (map ate run)),
        rest).
Proof.
  intros Hkind Hsym Hkids Hb Hne Hrun Hstop Hturns.
  destruct run as [|t run]; [done|].
  rewrite match_S. unfold match_body. cbn [app].
  assert (Hterm : is_terminal (symbol (token pn)) = false).
  { repeat (apply elem_of_cons in Hkind as [->|Hkind]); try done.
    by apply elem_of_nil in Hkind. }
  rewrite Hterm. unfold match_nonterminal. rewrite Hsym.
  unfold alternate, repeating, optional, oneormore.
  cbn [forallb] in Hrun. apply andb_prop in Hrun as [Ht Hrun].
  repeat (apply elem_of_cons in Hkind as [->|Hkind]);
    [| |by apply elem_of_nil in Hkind].
  - change (symbol_eq REPEATING ALTERNATING) with false.
    change (symbol_eq REPEATING REPEATING) with true. cbv iota.
    unfold match_repeating. rewrite Hkids.
    change (t :: run ++ rest) with ((t :: run) ++ rest).
    rewrite (repeating_loop_run self turns depth _ b Hb rest _ Hstop
               (t :: run) [] turns) by (cbn [forallb]; by rewrite ?Ht).
    reflexivity.
  - change (symbol_eq ATLEASTONCE ALTERNATING) with false.
    change (symbol_eq ATLEASTONCE REPEATING) with false.
    change (symbol_eq ATLEASTONCE OPTIONAL) with false.
    change (symbol_eq ATLEASTONCE ATLEASTONCE) with true. cbv iota.
    unfold match_one_or_more. rewrite Hkids.
    rewrite match_sequence_one by done. cbn [eat]. rewrite Ht.
    cbn [bind negb app].
    rewrite (one_or_more_loop_run self turns depth _ b Hb rest _ Hstop
               run [] [ate t] turns) by (done || cbn in Hturns; lia).
    reflexivity.
Qed.

(** The witness of [group_takes_longest_run]: the group of [r := { "a" } ;]
    over the tokens [a a b]. *)
Lemma group_takes_longest_run_witness :
  match_ grammar_braces 9 2 (group REPEATING "r-1" [leaf LITERAL "a"])
    ([lit "a"; lit "a"] ++ [lit "b"]) 2
  = Ok (true,
        Some (mkCSTNode
                (Tok (mkToken (EBNFNonTerminalSymbol "r") "r-1" 0 0 false))
                (map ate [lit "a"; lit "a"])),
        [lit "b"]).
Proof.
  exact (group_takes_longest_run grammar_braces 9 0
           (group REPEATING "r-1" [leaf LITERAL "a"]) (meta LITERAL "a")
           (EBNFNonTerminalSymbol "r") [lit "a"; lit "a"] [lit "b"] 2
           ltac:(apply list_elem_of_here) eq_refl eq_refl
           ltac:(apply list_elem_of_here) ltac:(discriminate) eq_refl eq_refl
           ltac:(vm_compute; lia)).
Defined.
